(** * Dependency graph engine and module resolver of lua_dec

    A shallow embedding of [src/dependency_graph.py] (class
    [DependencyGraph]) and [src/lua_module_resolver.py] (class
    [LuaModuleResolver]), followed by the properties of the design
    document that concern them.

    Conventions of the embedding:
    - a Python [dict] is an association list in insertion order
      ([PyDict]); a [defaultdict] is the same list read with a default;
    - a Python [set] of strings is a list without repetition ([PySet]);
      the list fixes one enumeration order of the set (Python leaves
      the iteration order of a set of strings unspecified), and
      [PySet.add] puts a new element last;
    - [Path(p).resolve()] depends on the file system; it is the section
      variable [resolve];
    - loops whose trip count is not structural ([while queue], the
      recursive [dfs] closures) take a fuel argument and return [None]
      when it runs out; [topological_sort] and [detect_cycles] are shown
      to return on every well-formed graph with the fuel they hand
      over. *)

From Stdlib Require Import List String Ascii ZArith NArith Lia Bool Arith.
Import ListNotations.
Open Scope string_scope.
Open Scope list_scope.

(** ** Python containers *)

Module PySet.

Definition t := list string.

Definition empty : t := [].

(** [x in s] *)
Definition mem (x : string) (s : t) : bool := existsb (String.eqb x) s.

(** [s.add(x)] *)
Definition add (x : string) (s : t) : t := if mem x s then s else s ++ [x].

(** [s.remove(x)] for an [x] known to be in [s] *)
Definition remove (x : string) (s : t) : t :=
  filter (fun y => negb (String.eqb x y)) s.

End PySet.

Module PyDict.

Section WithValue.
Context {V : Type}.

Definition t := list (string * V).

Definition empty : t := [].

(** [d.get(k)] *)
Fixpoint get (d : t) (k : string) : option V :=
  match d with
  | [] => None
  | (k', v) :: d' => if String.eqb k k' then Some v else get d' k
  end.

(** [d.get(k, dflt)]: never creates an entry *)
Definition get_default (d : t) (k : string) (dflt : V) : V :=
  match get d k with Some v => v | None => dflt end.

(** [k in d] *)
Definition contains (d : t) (k : string) : bool :=
  match get d k with Some _ => true | None => false end.

(** [d[k] = v]: an existing key keeps its position, a new one goes last *)
Fixpoint set (d : t) (k : string) (v : V) : t :=
  match d with
  | [] => [(k, v)]
  | (k', v') :: d' =>
      if String.eqb k k' then (k', v) :: d' else (k', v') :: set d' k v
  end.

(** [del d[k]] *)
Definition remove (d : t) (k : string) : t :=
  filter (fun kv => negb (String.eqb k (fst kv))) d.

(** [d.pop(k, dflt)] *)
Definition pop (d : t) (k : string) (dflt : V) : V * t :=
  (get_default d k dflt, remove d k).

(** [list(d)] *)
Definition keys (d : t) : list string := map fst d.

End WithValue.

Arguments t : clear implicits.

(** [d[k].add(x)] on a [defaultdict(set)]: reading a missing key creates it
    with an empty set. *)
Definition add_to (d : t PySet.t) (k x : string) : t PySet.t :=
  set d k (PySet.add x (get_default d k PySet.empty)).

End PyDict.

(** ** The graph object *)

Record DependencyGraph := mkGraph {
  graph : PyDict.t PySet.t;
  reverse_graph : PyDict.t PySet.t;
  file_to_module : PyDict.t string;
  module_to_file : PyDict.t string;
  file_contents : PyDict.t string;
  pending_module_dependents : PyDict.t PySet.t
}.

(** [DependencyGraph.__init__] *)
Definition init : DependencyGraph :=
  mkGraph PyDict.empty PyDict.empty PyDict.empty PyDict.empty PyDict.empty
          PyDict.empty.

Definition with_graph (self : DependencyGraph) (g : PyDict.t PySet.t) :=
  mkGraph g (reverse_graph self) (file_to_module self) (module_to_file self)
          (file_contents self) (pending_module_dependents self).

Definition with_reverse_graph (self : DependencyGraph) (r : PyDict.t PySet.t) :=
  mkGraph (graph self) r (file_to_module self) (module_to_file self)
          (file_contents self) (pending_module_dependents self).

(** Truth value of the optional [content] argument: [None] and the empty
    string are both false. *)
Definition truthy (content : option string) : bool :=
  match content with
  | Some s => negb (String.eqb s "")
  | None => false
  end.

(** The calls a driver makes while it discovers files. *)
Inductive call :=
| AddFile (file_path module_name : string) (content : option string)
| AddDependency (from_file to_module : string).

Definition call_path (c : call) : string :=
  match c with
  | AddFile p _ _ => p
  | AddDependency p _ => p
  end.

Section Graph.

(** [str(Path(p).resolve())] *)
Variable resolve : string -> string.

(** One turn of the back-filling loop of [add_file]. *)
Definition backfill (file_path : string) (self : DependencyGraph)
    (consumer : string) : DependencyGraph :=
  let g := PyDict.add_to (graph self) file_path consumer in
  let r := reverse_graph self in
  let r := if PyDict.contains r consumer then r
           else PyDict.set r consumer PySet.empty in
  let r := PyDict.add_to r consumer file_path in
  with_reverse_graph (with_graph self g) r.

Definition add_file (self : DependencyGraph) (file_path module_name : string)
    (content : option string) : DependencyGraph :=
  let file_path := resolve file_path in
  let f2m := PyDict.set (file_to_module self) file_path module_name in
  let m2f := PyDict.set (module_to_file self) module_name file_path in
  let fc := if truthy content
            then PyDict.set (file_contents self) file_path
                   (match content with Some s => s | None => "" end)
            else file_contents self in
  let g := if PyDict.contains (graph self) file_path then graph self
           else PyDict.set (graph self) file_path PySet.empty in
  let r := if PyDict.contains (reverse_graph self) file_path
           then reverse_graph self
           else PyDict.set (reverse_graph self) file_path PySet.empty in
  let '(pending, pmd) :=
    PyDict.pop (pending_module_dependents self) module_name PySet.empty in
  fold_left (backfill file_path) pending (mkGraph g r f2m m2f fc pmd).

Definition add_dependency (self : DependencyGraph)
    (from_file to_module : string) : DependencyGraph :=
  let from_file_str := resolve from_file in
  let g := if PyDict.contains (graph self) from_file_str then graph self
           else PyDict.set (graph self) from_file_str PySet.empty in
  match PyDict.get (module_to_file self) to_module with
  | Some to_file =>
      let g := if PyDict.contains g to_file then g
               else PyDict.set g to_file PySet.empty in
      let r := reverse_graph self in
      let r := if PyDict.contains r from_file_str then r
               else PyDict.set r from_file_str PySet.empty in
      let g := PyDict.add_to g to_file from_file_str in
      let r := PyDict.add_to r from_file_str to_file in
      with_reverse_graph (with_graph self g) r
  | None =>
      let pmd :=
        PyDict.add_to (pending_module_dependents self) to_module from_file_str in
      mkGraph g (reverse_graph self) (file_to_module self)
              (module_to_file self) (file_contents self) pmd
  end.

(** The queries hand back the object they were called on next to their
    result, so that what they leave behind can be stated. *)
Definition get_dependencies (self : DependencyGraph) (file_path : string)
    : PySet.t * DependencyGraph :=
  let file_path := resolve file_path in
  (PyDict.get_default (reverse_graph self) file_path PySet.empty, self).

Definition get_dependents (self : DependencyGraph) (file_path : string)
    : PySet.t * DependencyGraph :=
  let file_path := resolve file_path in
  (PyDict.get_default (graph self) file_path PySet.empty, self).

Definition do_call (self : DependencyGraph) (c : call) : DependencyGraph :=
  match c with
  | AddFile p m content => add_file self p m content
  | AddDependency p m => add_dependency self p m
  end.

(** The object after a sequence of calls on a fresh graph. *)
Definition run (calls : list call) : DependencyGraph :=
  fold_left do_call calls init.

End Graph.

(** ** Orderings and cycle search *)

(** [fold_left] for a loop body that may fail. *)
Fixpoint fold_opt {A B : Type} (f : A -> B -> option A) (l : list B) (a : A)
    : option A :=
  match l with
  | [] => Some a
  | b :: l' =>
      match f a b with
      | Some a' => fold_opt f l' a'
      | None => None
      end
  end.

(** [in_degree = defaultdict(int)], only ever read and written by index:
    a total map with value 0 for absent keys. *)
Definition in_degree_t := string -> Z.

Definition in_degree_set (d : in_degree_t) (k : string) (v : Z) : in_degree_t :=
  fun k' => if String.eqb k' k then v else d k'.

(** The two loops that fill [in_degree]. *)
Definition in_degree_init (g : PyDict.t PySet.t) : in_degree_t :=
  let d := fold_left (fun d node => in_degree_set d node 0%Z)
                     (PyDict.keys g) (fun _ => 0%Z) in
  fold_left
    (fun d (item : string * PySet.t) =>
       fold_left (fun d dep => in_degree_set d dep (d dep + 1)%Z) (snd item) d)
    g d.

(** One turn of [for dep in self.graph.get(node, set())]. *)
Definition relax (st : in_degree_t * list string) (dep : string)
    : in_degree_t * list string :=
  let d := in_degree_set (fst st) dep (fst st dep - 1)%Z in
  if (d dep =? 0)%Z then (d, snd st ++ [dep]) else (d, snd st).

(** [while queue: ...]; [None] when the fuel is used up. *)
Fixpoint kahn_loop (fuel : nat) (g : PyDict.t PySet.t) (in_degree : in_degree_t)
    (queue result : list string) : option (list string) :=
  match queue with
  | [] => Some result
  | node :: queue' =>
      match fuel with
      | O => None
      | S fuel' =>
          let result := result ++ [node] in
          let st := fold_left relax (PyDict.get_default g node PySet.empty)
                              (in_degree, queue') in
          kahn_loop fuel' g (fst st) (snd st) result
      end
  end.

(** Number of adjacency entries, [sum(len(deps) for deps in g.values())]. *)
Definition edge_count (g : PyDict.t PySet.t) : nat :=
  fold_right (fun (item : string * PySet.t) n => List.length (snd item) + n) 0 g.

Definition topological_sort (self : DependencyGraph) : option (list string) :=
  let g := graph self in
  let in_degree := in_degree_init g in
  let queue := filter (fun node => (in_degree node =? 0)%Z) (PyDict.keys g) in
  kahn_loop (List.length g + edge_count g) g in_degree queue [].

(** [path.index(node)] *)
Fixpoint index (node : string) (path : list string) : option nat :=
  match path with
  | [] => None
  | x :: path' =>
      if String.eqb x node then Some 0
      else match index node path' with
           | Some i => Some (S i)
           | None => None
           end
  end.

Record dfs_state := mkDfs {
  visited : PySet.t;
  rec_stack : PySet.t;
  cycles : list (list string)
}.

(** The closure [dfs(node, path)] of [detect_cycles].  [None] when the fuel
    (the recursion depth) is used up or [path.index] raises. *)
Fixpoint cycle_dfs (fuel : nat) (g : PyDict.t PySet.t) (st : dfs_state)
    (node : string) (path : list string) : option dfs_state :=
  match fuel with
  | O => None
  | S fuel' =>
      if PySet.mem node (rec_stack st) then
        match index node path with
        | Some cycle_start =>
            Some (mkDfs (visited st) (rec_stack st)
                        (cycles st ++ [skipn cycle_start path ++ [node]]))
        | None => None
        end
      else if PySet.mem node (visited st) then Some st
      else
        let st := mkDfs (PySet.add node (visited st))
                        (PySet.add node (rec_stack st)) (cycles st) in
        let path := path ++ [node] in
        match fold_opt (fun st dep => cycle_dfs fuel' g st dep path)
                       (PyDict.get_default g node PySet.empty) st with
        | Some st =>
            Some (mkDfs (visited st) (PySet.remove node (rec_stack st))
                        (cycles st))
        | None => None
        end
  end.

Definition detect_cycles (self : DependencyGraph) : option (list (list string)) :=
  let g := graph self in
  match fold_opt
          (fun st node =>
             if PySet.mem node (visited st) then Some st
             else cycle_dfs (S (List.length g + edge_count g)) g st node [])
          (PyDict.keys g) (mkDfs PySet.empty PySet.empty []) with
  | Some st => Some (cycles st)
  | None => None
  end.

(** The closure [dfs(node)] of [get_all_dependencies]; the state is
    [(visited, dependencies)]. *)
Fixpoint closure_dfs (fuel : nat) (r : PyDict.t PySet.t)
    (st : PySet.t * PySet.t) (node : string) : option (PySet.t * PySet.t) :=
  match fuel with
  | O => None
  | S fuel' =>
      if PySet.mem node (fst st) then Some st
      else
        fold_opt
          (fun st dep => closure_dfs fuel' r (fst st, PySet.add dep (snd st)) dep)
          (PyDict.get_default r node PySet.empty)
          (PySet.add node (fst st), snd st)
  end.

Section Orders.

Variable resolve : string -> string.

Definition get_all_dependencies (self : DependencyGraph) (file_path : string)
    : option PySet.t :=
  let file_path := resolve file_path in
  let r := reverse_graph self in
  match closure_dfs (S (List.length r + edge_count r)) r
                    (PySet.empty, PySet.empty) file_path with
  | Some st => Some (snd st)
  | None => None
  end.

(** The sub-dictionary built by [get_restoration_order]. *)
Definition restoration_subgraph (self : DependencyGraph)
    (all_deps : PySet.t) (start_file_str : string) : PyDict.t PySet.t :=
  let subgraph :=
    fold_left
      (fun sub dep =>
         PyDict.set sub dep (PyDict.get_default (graph self) dep PySet.empty))
      all_deps PyDict.empty in
  PyDict.set subgraph start_file_str
             (PyDict.get_default (graph self) start_file_str PySet.empty).

(** The result comes with the object as the [finally] clause leaves it. *)
Definition get_restoration_order (self : DependencyGraph) (start_file : string)
    : option (list string) * DependencyGraph :=
  let start_file_str := resolve start_file in
  if negb (PyDict.contains (graph self) start_file_str)
  then (Some [start_file_str], self)
  else
    match get_all_dependencies self start_file_str with
    | None => (None, self)
    | Some all_deps =>
        let subgraph := restoration_subgraph self all_deps start_file_str in
        let temp_graph := graph self in
        let self := with_graph self subgraph in
        let result := topological_sort self in
        (result, with_graph self temp_graph)
    end.

End Orders.

(** ** The module resolver *)

(** [s.split('.')] *)
Fixpoint split_dot (s : string) : list string :=
  match s with
  | EmptyString => [""]
  | String c s' =>
      if Ascii.eqb c "."%char then "" :: split_dot s'
      else match split_dot s' with
           | part :: parts => String c part :: parts
           | [] => [String c ""]
           end
  end.

(** [sep.join(parts)] *)
Fixpoint join (sep : string) (parts : list string) : string :=
  match parts with
  | [] => ""
  | [part] => part
  | part :: parts' => part ++ sep ++ join sep parts'
  end.

(** [s.lstrip('.')] *)
Fixpoint lstrip_dot (s : string) : string :=
  match s with
  | String c s' => if Ascii.eqb c "."%char then lstrip_dot s' else s
  | EmptyString => s
  end.

(** [Path(a) / b] and one step of [os.path.join], for a relative,
    non-empty [b] on a POSIX system. *)
Definition path_div (a b : string) : string := a ++ "/" ++ b.

(** [os.path.join(base, *parts)] *)
Definition os_path_join (base : string) (parts : list string) : string :=
  fold_left path_div parts base.

Definition extensions : list string :=
  [".lua.unluac"; ".lua"; ".so"; ".dll"; ".dylib"].

(** The path built first in the loop body (method 1 of its comments). *)
Definition method1_path (base_path : string) (path_parts : list string)
    (ext : string) : string :=
  path_div (path_div base_path (join "/" path_parts)) (lstrip_dot ext).

(** The path built second in the loop body (method 2 of its comments). *)
Definition method2_path (base_path : string) (path_parts : list string)
    (ext : string) : string :=
  os_path_join base_path path_parts ++ ext.

Section Resolver.

(** [Path(p).exists()] on the file system at hand. *)
Variable path_exists : string -> bool.

(** [self.base_paths] *)
Variable base_paths : list string.

(** The inner loop [for ext in extensions]. *)
Fixpoint try_extensions (base_path : string) (path_parts : list string)
    (exts : list string) : option string :=
  match exts with
  | [] => None
  | ext :: exts' =>
      let file_path := method1_path base_path path_parts ext in
      if path_exists file_path then Some file_path
      else
        let file_path := method2_path base_path path_parts ext in
        if path_exists file_path then Some file_path
        else try_extensions base_path path_parts exts'
  end.

(** The outer loop [for base_path in self.base_paths]. *)
Fixpoint try_base_paths (bases : list string) (path_parts : list string)
    : option string :=
  match bases with
  | [] => None
  | base_path :: bases' =>
      match try_extensions base_path path_parts extensions with
      | Some file_path => Some file_path
      | None => try_base_paths bases' path_parts
      end
  end.

Definition resolve_module_to_path (module_name : string) : option string :=
  try_base_paths base_paths (split_dot module_name).

(** The candidates of the design document, in its order: base directories
    outermost, extensions innermost, each candidate the base joined with
    the name segments and the extension appended. *)
Definition documented_candidates (module_name : string) : list string :=
  flat_map
    (fun base_path =>
       map (fun ext => method2_path base_path (split_dot module_name) ext)
           extensions)
    base_paths.

(** Resolution as the design document words it: the first existing
    documented candidate. *)
Definition documented_resolve (module_name : string) : option string :=
  find path_exists (documented_candidates module_name).

(** Every path the code probes, in probing order. *)
Definition probed_paths (module_name : string) : list string :=
  flat_map
    (fun base_path =>
       flat_map
         (fun ext =>
            [method1_path base_path (split_dot module_name) ext;
             method2_path base_path (split_dot module_name) ext])
         extensions)
    base_paths.

End Resolver.

(** ** Reference extraction *)

(** A text is a Python [str]: a sequence of Unicode code points. *)
Definition text := list N.

Definition text_of_string (s : string) : text :=
  map N_of_ascii (list_ascii_of_string s).

Fixpoint text_eqb (a b : text) : bool :=
  match a, b with
  | [], [] => true
  | x :: a', y :: b' => N.eqb x y && text_eqb a' b'
  | _, _ => false
  end.

(** The class [\s] of [re] on a [str] pattern: the code points for which
    [str.isspace] holds. *)
Definition is_space (c : N) : bool :=
  ((9 <=? c) && (c <=? 13) || (28 <=? c) && (c <=? 32)
   || (c =? 133) || (c =? 160) || (c =? 5760)
   || (8192 <=? c) && (c <=? 8202)
   || (c =? 8232) || (c =? 8233) || (c =? 8239) || (c =? 8287)
   || (c =? 12288))%N.

(** The class of the two quote characters (code points 34 and 39). *)
Definition is_quote (c : N) : bool := ((c =? 34) || (c =? 39))%N.

(** A literal prefix; the rest of the text after it. *)
Fixpoint match_literal (lit s : text) : option text :=
  match lit, s with
  | [], _ => Some s
  | x :: lit', y :: s' => if N.eqb x y then match_literal lit' s' else None
  | _ :: _, [] => None
  end.

(** [\s*], greedy. *)
Fixpoint skip_spaces (s : text) : text :=
  match s with
  | c :: s' => if is_space c then skip_spaces s' else s
  | [] => []
  end.

(** A greedy run of code points that are not quote characters: the run
    taken and the rest. *)
Fixpoint take_name (s : text) : text * text :=
  match s with
  | c :: s' =>
      if is_quote c then ([], s)
      else let '(name, rest) := take_name s' in (c :: name, rest)
  | [] => ([], [])
  end.

(** The tail shared by both patterns, anchored at the head of [s]: a quote
    character, a group of one or more code points that are not quote
    characters, a quote character.  Gives the group and the rest. *)
Definition match_quoted (s : text) : option (text * text) :=
  match s with
  | q :: s1 =>
      if is_quote q then
        match take_name s1 with
        | ([], _) => None
        | (name, q' :: s2) => if is_quote q' then Some (name, s2) else None
        | (_, []) => None
        end
      else None
  | [] => None
  end.

(** The first pattern of [require_patterns], anchored at the head of [s]:
    the word require, [\s*], an opening parenthesis, [\s*], the quoted
    group, [\s*], a closing parenthesis.  Every greedy run is followed by a
    token outside its class, so the backtracking of [re] has nothing else
    to try. *)
Definition match_call (s : text) : option (text * text) :=
  match match_literal (text_of_string "require") s with
  | Some s1 =>
      match skip_spaces s1 with
      | 40%N :: s2 =>
          match match_quoted (skip_spaces s2) with
          | Some (name, s3) =>
              match skip_spaces s3 with
              | 41%N :: s4 => Some (name, s4)
              | _ => None
              end
          | None => None
          end
      | _ => None
      end
  | None => None
  end.

(** The second pattern of [require_patterns], anchored at the head of [s]:
    the word require, [\s+], the quoted group. *)
Definition match_bare (s : text) : option (text * text) :=
  match match_literal (text_of_string "require") s with
  | Some (c :: s1) =>
      if is_space c then match_quoted (skip_spaces s1) else None
  | _ => None
  end.

(** [re.findall] for a pattern with one group that never matches the empty
    text: scan left to right, and after a match resume at its end ([skip]
    counts the code points of the match still to pass over). *)
Fixpoint findall_from (pattern : text -> option (text * text)) (skip : nat)
    (s : text) : list text :=
  match s with
  | [] => []
  | _ :: s' =>
      match skip with
      | S skip' => findall_from pattern skip' s'
      | O =>
          match pattern s with
          | Some (group, rest) =>
              group :: findall_from pattern
                         (List.length s - List.length rest - 1) s'
          | None => findall_from pattern 0 s'
          end
      end
  end.

Definition findall (pattern : text -> option (text * text)) (s : text)
    : list text :=
  findall_from pattern 0 s.

(** [list(set(l))]: one entry per distinct text. *)
Fixpoint list_set (l : list text) : list text :=
  match l with
  | [] => []
  | x :: l' =>
      if existsb (text_eqb x) l' then list_set l' else x :: list_set l'
  end.

(** The body of the [try] block once [content] is read. *)
Definition extract_references (content : text) : list text :=
  list_set (findall match_call content ++ findall match_bare content).

Section Extraction.

(** Reading the file: [None] when [open] or [read] raises. *)
Variable read_file : string -> option text.

Definition get_module_dependencies (file_path : string) : list text :=
  match read_file file_path with
  | Some content => extract_references content
  | None => list_set []
  end.

End Extraction.

(** ** Search roots of the resolver *)

(** [path in self.base_paths] *)
Definition in_paths (path : string) (base_paths : list string) : bool :=
  existsb (String.eqb path) base_paths.

(** [l.remove(x)]: the first occurrence goes. *)
Fixpoint list_remove (x : string) (l : list string) : list string :=
  match l with
  | [] => []
  | y :: l' => if String.eqb x y then l' else y :: list_remove x l'
  end.

(** [add_search_path]: the new value of [self.base_paths]. *)
Definition add_search_path (base_paths : list string) (path : string)
    : list string :=
  if negb (in_paths path base_paths) then base_paths ++ [path] else base_paths.

(** [remove_search_path]: the new value of [self.base_paths]. *)
Definition remove_search_path (base_paths : list string) (path : string)
    : list string :=
  if in_paths path base_paths then list_remove path base_paths else base_paths.

(** ** Looking a module file up by name *)

Section Finder.

(** [Path(p).exists()] *)
Variable path_exists : string -> bool.

(** [os.walk(search_path)]: the directories below the search path with
    the files each one holds, in walking order. *)
Variable walk_tree : string -> list (string * list string).

(** [self.base_paths] *)
Variable base_paths : list string.

(** The three file names tried for a module. *)
Definition possible_names (module_name : string) : list string :=
  let module_parts := split_dot module_name in
  [join "." module_parts; last module_parts ""; join "_" module_parts].

(** The inner loop [for file in files]. *)
Fixpoint find_file (root : string) (files : list string) (target : string)
    : option string :=
  match files with
  | [] => None
  | file :: files' =>
      if String.eqb file target then Some (path_div root file)
      else find_file root files' target
  end.

(** The loop [for root, dirs, files in os.walk(search_path)]. *)
Fixpoint find_in_walk (walked : list (string * list string))
    (target : string) : option string :=
  match walked with
  | [] => None
  | (root, files) :: walked' =>
      match find_file root files target with
      | Some p => Some p
      | None => find_in_walk walked' target
      end
  end.

(** The loop over the extensions. *)
Fixpoint find_with_extensions (search_path name : string)
    (exts : list string) : option string :=
  match exts with
  | [] => None
  | ext :: exts' =>
      let file_path := path_div search_path (name ++ ext) in
      if path_exists file_path then Some file_path
      else
        match find_in_walk (walk_tree search_path) (name ++ ext) with
        | Some p => Some p
        | None => find_with_extensions search_path name exts'
        end
  end.

(** The loop [for name in possible_names]. *)
Fixpoint find_with_names (search_path : string) (names : list string)
    : option string :=
  match names with
  | [] => None
  | name :: names' =>
      match find_with_extensions search_path name
              [".lua"; ".so"; ".dll"; ".dylib"] with
      | Some p => Some p
      | None => find_with_names search_path names'
      end
  end.

(** The loop [for search_path in search_paths]. *)
Fixpoint find_in_paths (search_paths : list string) (names : list string)
    : option string :=
  match search_paths with
  | [] => None
  | search_path :: search_paths' =>
      match find_with_names search_path names with
      | Some p => Some p
      | None => find_in_paths search_paths' names
      end
  end.

Definition find_module_file (module_name : string)
    (search_paths : option (list string)) : option string :=
  let search_paths :=
    match search_paths with
    | None => base_paths
    | Some paths => paths
    end in
  find_in_paths search_paths (possible_names module_name).

End Finder.

(** ** Helpers of the driver *)

(** [s.endswith(suffix)]: the reversed suffix starts the reversed string. *)
Fixpoint starts_with (p l : list ascii) : bool :=
  match p, l with
  | [], _ => true
  | a :: p', b :: l' => Ascii.eqb a b && starts_with p' l'
  | _ :: _, [] => false
  end.

Definition ends_with (s suffix : string) : bool :=
  starts_with (rev (list_ascii_of_string suffix)) (rev (list_ascii_of_string s)).

(** [s[:-n]] for a positive [n]. *)
Definition drop_last (n : nat) (s : string) : string :=
  substring 0 (String.length s - n) s.

(** [s.rfind('.')], [None] for -1. *)
Fixpoint rfind_dot (s : string) : option nat :=
  match s with
  | EmptyString => None
  | String c s' =>
      match rfind_dot s' with
      | Some i => Some (S i)
      | None => if Ascii.eqb c "."%char then Some 0 else None
      end
  end.

(** [PurePosixPath.name] from [parts]: empty when the path is only its
    root or has no part at all. *)
Definition path_name (parts : list string) : string :=
  match parts with
  | [] => ""
  | [p] => if String.prefix "/" p then "" else p
  | _ => last parts ""
  end.

(** [PurePosixPath.stem]: the name up to its last dot, when that dot is
    neither the first nor the last character. *)
Definition path_stem (parts : list string) : string :=
  let name := path_name parts in
  match rfind_dot name with
  | Some i =>
      if Nat.ltb 0 i && Nat.ltb i (String.length name - 1)
      then substring 0 i name
      else name
  | None => name
  end.

(** [LuaDecoder._extract_module_name], on the [parts] of its path
    argument. *)
Definition _extract_module_name (parts : list string) : string :=
  match index "lua" parts with
  | Some lua_index =>
      let module_parts := skipn (lua_index + 1) parts in
      let module_parts :=
        match module_parts with
        | [] => module_parts
        | _ :: _ =>
            let name := last module_parts "" in
            if ends_with name ".lua.unluac"
            then removelast module_parts ++ [drop_last 10 name]
            else if ends_with name ".lua"
            then removelast module_parts ++ [drop_last 4 name]
            else module_parts
        end in
      join "." module_parts
  | None =>
      let filename := path_stem parts in
      if ends_with filename ".lua" then drop_last 4 filename else filename
  end.

(** A value read from the configuration file: [None], a dictionary, or
    anything else. *)
#[warnings="-register-all"]
Inductive py_value (A : Type) : Type :=
| PyNone
| PyLeaf (a : A)
| PyDictValue (items : list (string * py_value A)).

Arguments PyNone {A}.
Arguments PyLeaf {A} a.
Arguments PyDictValue {A} items.

(** The loop [for key in keys] of [_get_nested_value]. *)
Fixpoint follow_keys {A : Type} (keys : list string) (value : py_value A)
    : py_value A :=
  match keys with
  | [] => value
  | key :: keys' =>
      match value with
      | PyDictValue items =>
          match PyDict.get items key with
          | Some v => follow_keys keys' v
          | None => PyNone
          end
      | _ => PyNone
      end
  end.

(** [LuaDecoder._get_nested_value] *)
Definition _get_nested_value {A : Type} (data : py_value A)
    (key_path : string) : py_value A :=
  follow_keys (split_dot key_path) data.

(** ** Vocabulary of the properties *)

(** [b in forward[a]], an absent key read as the empty set. *)
Definition forward_edge (self : DependencyGraph) (a b : string) : bool :=
  PySet.mem b (PyDict.get_default (graph self) a PySet.empty).

(** [a in reverse[b]], an absent key read as the empty set. *)
Definition reverse_edge (self : DependencyGraph) (b a : string) : bool :=
  PySet.mem a (PyDict.get_default (reverse_graph self) b PySet.empty).

(** The forward and reverse maps record the same edges. *)
Definition mirrored (self : DependencyGraph) : Prop :=
  forall a b, forward_edge self a b = reverse_edge self b a.

(** The module map and the path map are inverse to each other on their
    entries. *)
Definition mutual_inverses (self : DependencyGraph) : Prop :=
  forall m p,
    PyDict.get (module_to_file self) m = Some p <->
    PyDict.get (file_to_module self) p = Some m.

Section CallHistory.

Variable resolve : string -> string.

(** The path of the last registration of module [m] in [calls]. *)
Definition last_path_of (calls : list call) (m : string) : option string :=
  fold_left
    (fun acc c =>
       match c with
       | AddFile p m' _ => if String.eqb m m' then Some (resolve p) else acc
       | AddDependency _ _ => acc
       end)
    calls None.

(** The module name of the last registration of the canonical path [p]. *)
Definition last_module_of (calls : list call) (p : string) : option string :=
  fold_left
    (fun acc c =>
       match c with
       | AddFile q m _ => if String.eqb p (resolve q) then Some m else acc
       | AddDependency _ _ => acc
       end)
    calls None.

(** No module name is registered under two paths and no path under two
    module names. *)
Definition one_to_one (calls : list call) : Prop :=
  forall p1 m1 c1 p2 m2 c2,
    In (AddFile p1 m1 c1) calls -> In (AddFile p2 m2 c2) calls ->
    (resolve p1 = resolve p2 <-> m1 = m2).

End CallHistory.

(** Every path the object knows of (a node of either adjacency map, a
    registered file, a consumer waiting for a module) is in [paths]. *)
Definition confined (paths : list string) (self : DependencyGraph) : Prop :=
  (forall k, PyDict.contains (graph self) k = true -> In k paths) /\
  (forall k, PyDict.contains (reverse_graph self) k = true -> In k paths) /\
  (forall m p, PyDict.get (module_to_file self) m = Some p -> In p paths) /\
  (forall m x,
     PySet.mem x (PyDict.get_default (pending_module_dependents self) m
                                     PySet.empty) = true ->
     In x paths).

(** ** Vocabulary of the ordering properties *)

(** The consumers recorded for [u], [g.get(u, set())]. *)
Definition adj (g : PyDict.t PySet.t) (u : string) : PySet.t :=
  PyDict.get_default g u PySet.empty.

(** There is an edge dependency [u] -> consumer [v]. *)
Definition has_edge (g : PyDict.t PySet.t) (u v : string) : Prop :=
  In v (adj g u).

(** What a dictionary of sets built by the class always satisfies: a key
    occurs once, a set holds an element once, and every consumer of an edge
    is itself a node. *)
Record well_formed (g : PyDict.t PySet.t) : Prop := mkWf {
  wf_keys : NoDup (PyDict.keys g);
  wf_sets : forall u s, In (u, s) g -> NoDup s;
  wf_closed : forall u s v, In (u, s) g -> In v s -> In v (PyDict.keys g)
}.

(** [v] is reached from [u] along one or more edges. *)
Inductive reaches (g : PyDict.t PySet.t) : string -> string -> Prop :=
| reaches_edge u v : has_edge g u v -> reaches g u v
| reaches_step u v w : has_edge g u v -> reaches g v w -> reaches g u w.

Definition acyclic (g : PyDict.t PySet.t) : Prop :=
  forall u, ~ reaches g u u.

(** [u] occurs in [l] at a position strictly before that of [v]. *)
Definition before (l : list string) (u v : string) : Prop :=
  exists i j, index u l = Some i /\ index v l = Some j /\ i < j.

(** Consecutive elements of [l] are joined by edges. *)
Fixpoint walk (g : PyDict.t PySet.t) (l : list string) : Prop :=
  match l with
  | u :: (v :: _) as l' => has_edge g u v /\ walk g l'
  | _ => True
  end.

(** Number of dependencies of [v] that are not in [emitted]. *)
Definition remaining (g : PyDict.t PySet.t) (emitted : list string)
    (v : string) : nat :=
  List.length
    (filter
       (fun item : string * PySet.t =>
          PySet.mem v (snd item) && negb (PySet.mem (fst item) emitted))
       g).

(** What holds each time the [while] loop of [topological_sort] tests its
    queue. *)
Record kahn_invariant (g : PyDict.t PySet.t) (in_degree : in_degree_t)
    (queue result : list string) : Prop := mkKahn {
  kahn_nodup : NoDup (result ++ queue);
  kahn_nodes : forall v, In v (result ++ queue) -> In v (PyDict.keys g);
  kahn_count : forall v, in_degree v = Z.of_nat (remaining g result v);
  kahn_ready :
    forall v, In v (PyDict.keys g) ->
              (In v (result ++ queue) <-> in_degree v = 0%Z);
  kahn_order :
    forall u v, has_edge g u v -> In v result -> before result u v
}.

(** ** Vocabulary of the cycle search *)

(** How a call of [dfs] may change the shared state: the recursion stack
    does not grow, the visited set and the cycle list do not shrink. *)
Definition dfs_frame (st st' : dfs_state) : Prop :=
  incl (rec_stack st') (rec_stack st) /\
  incl (visited st) (visited st') /\
  incl (cycles st) (cycles st').

(** The nodes of [g] not visited yet. *)
Definition unvisited (g : PyDict.t PySet.t) (st : dfs_state) : list string :=
  filter (fun k => negb (PySet.mem k (visited st))) (PyDict.keys g).

(** A reported cycle goes through [a], [b] and [c]. *)
Definition cycle_through (a b c : string) (found : list (list string)) : Prop :=
  exists cyc, In cyc found /\ In a cyc /\ In b cyc /\ In c cyc.

(** Either none of [a], [b], [c] is visited yet, or a cycle through them is
    already reported. *)
Definition cycle_pending (a b c : string) (st : dfs_state) : Prop :=
  (~ In a (visited st) /\ ~ In b (visited st) /\ ~ In c (visited st)) \/
  cycle_through a b c (cycles st).

(** What every call keeps true of the object: the forward map is well
    formed and every consumer waiting for a module is already a node. *)
Definition graph_ok (self : DependencyGraph) : Prop :=
  well_formed (graph self) /\
  forall m x,
    In x (PyDict.get_default (pending_module_dependents self) m PySet.empty) ->
    In x (PyDict.keys (graph self)).

(** ** Vocabulary of the extraction property *)

(** The parenthesized reference to module x.y: the word require, an opening
    parenthesis, a double quote (code point 34), x.y, a double quote, a
    closing parenthesis. *)
Definition call_text : text :=
  text_of_string "require(" ++ [34%N] ++ text_of_string "x.y" ++ [34%N]
  ++ text_of_string ")".

(** The bare reference to module z, with single quotes. *)
Definition bare_text : text := text_of_string "require 'z'".

Definition name_xy : text := text_of_string "x.y".

Definition name_z : text := text_of_string "z".

(** A text made of the two references and of stretches of other text. *)
Inductive piece :=
| Filler (t : text)
| Call
| Bare.

Definition render_piece (p : piece) : text :=
  match p with
  | Filler t => t
  | Call => call_text
  | Bare => bare_text
  end.

Definition render (pieces : list piece) : text :=
  flat_map render_piece pieces.

(** A stretch of text without the letter r (code point 114): it holds no
    reference of its own and cannot begin or complete one. *)
Definition plain (t : text) : Prop := Forall (fun c => c <> 114%N) t.

(** ** Example data *)

(** [resolve] on a file system where the paths used in the examples are
    absolute and free of symbolic links. *)
Definition canonical (p : string) : string := p.

(** The calls of [test_dependency_graph], with absolute paths. *)
Definition test_calls : list call :=
  [AddFile "/w/file1.lua" "module1" None;
   AddFile "/w/file2.lua" "module2" None;
   AddFile "/w/file3.lua" "module3" None;
   AddDependency "/w/file1.lua" "module2";
   AddDependency "/w/file2.lua" "module3";
   AddDependency "/w/file1.lua" "module3"].

(** Three files a, b, c with b requiring a, c requiring b and a requiring
    c, and nothing else. *)
Definition triangle_calls : list call :=
  [AddFile "/w/a.lua" "a" None;
   AddFile "/w/b.lua" "b" None;
   AddFile "/w/c.lua" "c" None;
   AddDependency "/w/b.lua" "a";
   AddDependency "/w/c.lua" "b";
   AddDependency "/w/a.lua" "c"].

(** The same three files where c requires a as well, recorded before b
    does: the enumeration of the consumers of a starts with c. *)
Definition chord_calls : list call :=
  [AddFile "/w/a.lua" "a" None;
   AddFile "/w/b.lua" "b" None;
   AddFile "/w/c.lua" "c" None;
   AddDependency "/w/c.lua" "a";
   AddDependency "/w/b.lua" "a";
   AddDependency "/w/c.lua" "b";
   AddDependency "/w/a.lua" "c"].

(** A file system whose only file is named lua and lies in the directory
    root/a/b/c. *)
Definition only_directory_entry (p : string) : bool :=
  String.eqb p "root/a/b/c/lua".

(** As long as no cycle is reported, [fin] lists the nodes whose [dfs] call
    is over (visited and off the recursion stack), and every consumer of
    such a node was finished before it. *)
Definition finished_order (g : PyDict.t PySet.t) (st : dfs_state)
    (fin : list string) : Prop :=
  cycles st = [] ->
  (forall u, In u fin <-> In u (visited st) /\ ~ In u (rec_stack st)) /\
  (forall u v, In u fin -> has_edge g u v -> before fin v u).

(** ** Vocabulary of the further properties *)

(** [c] starts and ends at the same node and follows edges of [g]. *)
Definition closed_walk (g : PyDict.t PySet.t) (c : list string) : Prop :=
  exists x mid, c = x :: mid ++ [x] /\ walk g c.

(** A dictionary of sets as Python keeps it: a key occurs once and a set
    holds an element once.  Consumers need not be keys. *)
Definition dict_ok (g : PyDict.t PySet.t) : Prop :=
  NoDup (PyDict.keys g) /\ forall u s, In (u, s) g -> NoDup s.

(** The consumers of [g] that are not keys of [g], each once. *)
Definition dangling (g : PyDict.t PySet.t) : list string :=
  nodup string_dec
    (filter (fun v => negb (PyDict.contains g v)) (List.concat (map snd g))).

(** [g] with an empty entry added for each consumer that is not a key: the
    same edges, and every consumer a node. *)
Definition closed_up (g : PyDict.t PySet.t) : PyDict.t PySet.t :=
  g ++ map (fun v => (v, PySet.empty)) (dangling g).

(** The file names [find_module_file] looks for: each of the three names of
    the module with each of the four extensions. *)
Definition wanted_files (module_name : string) : list string :=
  flat_map
    (fun name => map (fun ext => (name ++ ext)%string)
                     [".lua"; ".so"; ".dll"; ".dylib"])
    (possible_names module_name).

Section FinderVocabulary.

Variable path_exists : string -> bool.
Variable walk_tree : string -> list (string * list string).

(** [target] is directly in [search_path], or in a directory walked
    below it, at path [p]. *)
Definition found_at (search_path target p : string) : Prop :=
  (p = path_div search_path target /\ path_exists p = true) \/
  exists root files,
    In (root, files) (walk_tree search_path) /\ In target files /\
    p = path_div root target.

End FinderVocabulary.

(** A tree with one file, api.lua, in the directory root/sub. *)
Definition one_file_tree (search_path : string)
    : list (string * list string) :=
  if String.eqb search_path "root"
  then [("root", []); ("root/sub", ["api.lua"])]
  else [].

(** * Properties *)

(** ** Containers *)

Lemma mem_true_iff x s : PySet.mem x s = true <-> In x s.
Proof.
  unfold PySet.mem. rewrite existsb_exists. split.
  - intros [y [Hin Heq]]. apply String.eqb_eq in Heq. now subst.
  - intros Hin. exists x. split; [assumption | apply String.eqb_refl].
Qed.

Lemma mem_false_iff x s : PySet.mem x s = false <-> ~ In x s.
Proof.
  rewrite <- mem_true_iff. destruct (PySet.mem x s); intuition congruence.
Qed.

Lemma mem_app x s1 s2 :
  PySet.mem x (s1 ++ s2) = PySet.mem x s1 || PySet.mem x s2.
Proof. unfold PySet.mem. apply existsb_app. Qed.

Lemma mem_add x y s :
  PySet.mem x (PySet.add y s) = String.eqb x y || PySet.mem x s.
Proof.
  unfold PySet.add. destruct (PySet.mem y s) eqn:Hy.
  - destruct (String.eqb_spec x y) as [-> | _]; simpl; [now rewrite Hy | reflexivity].
  - rewrite mem_app. simpl. rewrite orb_false_r. apply orb_comm.
Qed.

Lemma add_NoDup y s : NoDup s -> NoDup (PySet.add y s).
Proof.
  intros Hs. unfold PySet.add. destruct (PySet.mem y s) eqn:Hy; [assumption |].
  apply mem_false_iff in Hy. apply NoDup_app; try assumption.
  - repeat constructor. intros [].
  - intros a Ha [<- | []]. contradiction.
Qed.

Lemma mem_remove x y s :
  PySet.mem x (PySet.remove y s) = negb (String.eqb y x) && PySet.mem x s.
Proof.
  unfold PySet.remove. induction s as [| z s IH]; simpl.
  - now rewrite andb_false_r.
  - destruct (String.eqb_spec y z) as [-> | Hyz]; simpl.
    + rewrite IH. destruct (String.eqb_spec x z) as [-> | Hxz]; simpl.
      * now rewrite String.eqb_refl.
      * reflexivity.
    + rewrite IH. destruct (String.eqb_spec x z) as [-> | Hxz]; simpl.
      * destruct (String.eqb_spec y z); [contradiction | reflexivity].
      * reflexivity.
Qed.

Lemma In_add x y s : In x (PySet.add y s) <-> x = y \/ In x s.
Proof.
  rewrite <- !mem_true_iff, mem_add, orb_true_iff, String.eqb_eq. tauto.
Qed.

Lemma In_remove x y s : In x (PySet.remove y s) <-> x <> y /\ In x s.
Proof.
  rewrite <- !mem_true_iff, mem_remove, andb_true_iff, negb_true_iff.
  destruct (String.eqb_spec y x); intuition congruence.
Qed.

Section DictFacts.

Context {V : Type}.
Implicit Types (d : PyDict.t V) (k : string) (v : V).

Lemma get_set d k v k' :
  PyDict.get (PyDict.set d k v) k' =
  if String.eqb k' k then Some v else PyDict.get d k'.
Proof.
  induction d as [| [k0 v0] d IH]; simpl.
  - reflexivity.
  - destruct (String.eqb_spec k k0) as [-> | Hk]; simpl.
    + destruct (String.eqb k' k0); reflexivity.
    + rewrite IH. destruct (String.eqb_spec k' k0) as [-> | Hk'].
      * destruct (String.eqb_spec k0 k); [congruence | reflexivity].
      * reflexivity.
Qed.

Lemma get_set_same d k v : PyDict.get (PyDict.set d k v) k = Some v.
Proof. now rewrite get_set, String.eqb_refl. Qed.

Lemma get_remove d k k' :
  PyDict.get (PyDict.remove d k) k' =
  if String.eqb k' k then None else PyDict.get d k'.
Proof.
  unfold PyDict.remove. induction d as [| [k0 v0] d IH]; simpl.
  - now destruct (String.eqb k' k).
  - destruct (String.eqb_spec k k0) as [-> | Hk]; simpl.
    + rewrite IH. destruct (String.eqb k' k0); reflexivity.
    + rewrite IH. destruct (String.eqb_spec k' k0) as [-> | Hk'].
      * destruct (String.eqb_spec k0 k); [congruence | reflexivity].
      * reflexivity.
Qed.

Lemma contains_set d k v k' :
  PyDict.contains (PyDict.set d k v) k' =
  String.eqb k' k || PyDict.contains d k'.
Proof.
  unfold PyDict.contains. rewrite get_set.
  destruct (String.eqb k' k); reflexivity.
Qed.

Lemma contains_keys d k : PyDict.contains d k = true <-> In k (PyDict.keys d).
Proof.
  unfold PyDict.contains, PyDict.keys.
  induction d as [| [k0 v0] d IH]; simpl.
  - split; [discriminate | tauto].
  - destruct (String.eqb_spec k k0) as [-> | Hk].
    + split; auto.
    + rewrite IH. split; [auto | intros [H | H]; [congruence | assumption]].
Qed.

Lemma get_In d k v : PyDict.get d k = Some v -> In (k, v) d.
Proof.
  induction d as [| [k0 v0] d IH]; simpl; [discriminate |].
  destruct (String.eqb_spec k k0) as [-> | Hk].
  - intros [= ->]. now left.
  - intros H. right. auto.
Qed.

Lemma In_get d k v :
  NoDup (PyDict.keys d) -> In (k, v) d -> PyDict.get d k = Some v.
Proof.
  unfold PyDict.keys.
  induction d as [| [k0 v0] d IH]; simpl; [tauto |].
  intros Hnd [[= -> ->] | Hin].
  - now rewrite String.eqb_refl.
  - inversion Hnd as [| ? ? Hnotin Hnd']; subst.
    destruct (String.eqb_spec k k0) as [-> | Hk].
    + exfalso. apply Hnotin. apply in_map_iff. now exists (k0, v).
    + auto.
Qed.

(** Making sure a key is there does not change what is read with a
    default. *)
Lemma get_default_ensure d k dflt k' :
  PyDict.get_default
    (if PyDict.contains d k then d else PyDict.set d k dflt) k' dflt =
  PyDict.get_default d k' dflt.
Proof.
  unfold PyDict.contains, PyDict.get_default.
  destruct (PyDict.get d k) eqn:Hk; [reflexivity |].
  rewrite get_set. destruct (String.eqb_spec k' k) as [-> | ?];
    [now rewrite Hk | reflexivity].
Qed.

Lemma contains_ensure d k dflt k' :
  PyDict.contains (if PyDict.contains d k then d else PyDict.set d k dflt) k' =
  String.eqb k' k || PyDict.contains d k'.
Proof.
  destruct (PyDict.contains d k) eqn:Hk.
  - destruct (String.eqb_spec k' k) as [-> | ?]; [now rewrite Hk | reflexivity].
  - apply contains_set.
Qed.

End DictFacts.

Lemma get_default_add_to d k x k' :
  PyDict.get_default (PyDict.add_to d k x) k' PySet.empty =
  if String.eqb k' k then PySet.add x (PyDict.get_default d k PySet.empty)
  else PyDict.get_default d k' PySet.empty.
Proof.
  unfold PyDict.add_to, PyDict.get_default at 1. rewrite get_set.
  destruct (String.eqb k' k); reflexivity.
Qed.

Lemma contains_add_to d k x k' :
  PyDict.contains (PyDict.add_to d k x) k' =
  String.eqb k' k || PyDict.contains d k'.
Proof. unfold PyDict.add_to. apply contains_set. Qed.

(** ** Registration of files and dependencies *)

Lemma backfill_fold_fields fp pending st :
  file_to_module (fold_left (backfill fp) pending st) = file_to_module st /\
  module_to_file (fold_left (backfill fp) pending st) = module_to_file st /\
  file_contents (fold_left (backfill fp) pending st) = file_contents st /\
  pending_module_dependents (fold_left (backfill fp) pending st) =
    pending_module_dependents st.
Proof.
  revert st. induction pending as [| c pending IH]; intros st; simpl.
  - auto.
  - destruct (IH (backfill fp st c)) as (H1 & H2 & H3 & H4).
    rewrite H1, H2, H3, H4. auto.
Qed.

Lemma forward_edge_backfill fp st c a b :
  forward_edge (backfill fp st c) a b =
  String.eqb a fp && String.eqb b c || forward_edge st a b.
Proof.
  unfold forward_edge, backfill. simpl. rewrite get_default_add_to.
  destruct (String.eqb_spec a fp) as [-> | _]; simpl; [| reflexivity].
  apply mem_add.
Qed.

Lemma reverse_edge_backfill fp st c b a :
  reverse_edge (backfill fp st c) b a =
  String.eqb b c && String.eqb a fp || reverse_edge st b a.
Proof.
  unfold reverse_edge, backfill. simpl. rewrite get_default_add_to.
  rewrite !get_default_ensure.
  destruct (String.eqb_spec b c) as [-> | _]; simpl; [| reflexivity].
  apply mem_add.
Qed.

Lemma forward_edge_backfill_fold fp pending st a b :
  forward_edge (fold_left (backfill fp) pending st) a b =
  String.eqb a fp && PySet.mem b pending || forward_edge st a b.
Proof.
  revert st. induction pending as [| c pending IH]; intros st; simpl.
  - now rewrite andb_false_r.
  - rewrite IH, forward_edge_backfill.
    destruct (String.eqb a fp), (String.eqb b c), (PySet.mem b pending);
      reflexivity.
Qed.

Lemma reverse_edge_backfill_fold fp pending st b a :
  reverse_edge (fold_left (backfill fp) pending st) b a =
  PySet.mem b pending && String.eqb a fp || reverse_edge st b a.
Proof.
  revert st. induction pending as [| c pending IH]; intros st; simpl.
  - reflexivity.
  - rewrite IH, reverse_edge_backfill.
    destruct (String.eqb a fp), (String.eqb b c), (PySet.mem b pending);
      reflexivity.
Qed.

Section MutationFacts.

Variable resolve : string -> string.

Ltac add_file_fields :=
  unfold add_file, PyDict.pop;
  match goal with
  | |- context [fold_left (backfill ?fp) ?l ?st] =>
      destruct (backfill_fold_fields fp l st) as (H1 & H2 & H3 & H4)
  end.

Lemma pending_add_file self p m content :
  pending_module_dependents (add_file resolve self p m content) =
  PyDict.remove (pending_module_dependents self) m.
Proof. add_file_fields. now rewrite H4. Qed.

Lemma file_contents_add_file self p m content :
  file_contents (add_file resolve self p m content) =
  if truthy content
  then PyDict.set (file_contents self) (resolve p)
         (match content with Some s => s | None => "" end)
  else file_contents self.
Proof. add_file_fields. now rewrite H3. Qed.

Lemma module_to_file_add_file self p m content :
  module_to_file (add_file resolve self p m content) =
  PyDict.set (module_to_file self) m (resolve p).
Proof. add_file_fields. now rewrite H2. Qed.

Lemma file_to_module_add_file self p m content :
  file_to_module (add_file resolve self p m content) =
  PyDict.set (file_to_module self) (resolve p) m.
Proof. add_file_fields. now rewrite H1. Qed.

Lemma maps_add_dependency self p m :
  file_to_module (add_dependency resolve self p m) = file_to_module self /\
  module_to_file (add_dependency resolve self p m) = module_to_file self /\
  file_contents (add_dependency resolve self p m) = file_contents self.
Proof.
  unfold add_dependency.
  destruct (PyDict.get (module_to_file self) m); simpl; auto.
Qed.

Lemma forward_edge_add_file self p m content a b :
  forward_edge (add_file resolve self p m content) a b =
  String.eqb a (resolve p)
    && PySet.mem b (PyDict.get_default (pending_module_dependents self) m
                                       PySet.empty)
  || forward_edge self a b.
Proof.
  unfold add_file, PyDict.pop. rewrite forward_edge_backfill_fold.
  f_equal. unfold forward_edge. simpl. now rewrite get_default_ensure.
Qed.

Lemma reverse_edge_add_file self p m content b a :
  reverse_edge (add_file resolve self p m content) b a =
  PySet.mem b (PyDict.get_default (pending_module_dependents self) m
                                  PySet.empty)
    && String.eqb a (resolve p)
  || reverse_edge self b a.
Proof.
  unfold add_file, PyDict.pop. rewrite reverse_edge_backfill_fold.
  f_equal. unfold reverse_edge. simpl. now rewrite get_default_ensure.
Qed.

Lemma forward_edge_add_dependency self p m a b :
  forward_edge (add_dependency resolve self p m) a b =
  match PyDict.get (module_to_file self) m with
  | Some to_file => String.eqb a to_file && String.eqb b (resolve p)
  | None => false
  end || forward_edge self a b.
Proof.
  unfold add_dependency, forward_edge.
  destruct (PyDict.get (module_to_file self) m) as [to_file |]; simpl.
  - rewrite get_default_add_to, !get_default_ensure.
    destruct (String.eqb_spec a to_file) as [-> | _]; simpl; [| reflexivity].
    apply mem_add.
  - now rewrite get_default_ensure.
Qed.

Lemma reverse_edge_add_dependency self p m b a :
  reverse_edge (add_dependency resolve self p m) b a =
  match PyDict.get (module_to_file self) m with
  | Some to_file => String.eqb b (resolve p) && String.eqb a to_file
  | None => false
  end || reverse_edge self b a.
Proof.
  unfold add_dependency, reverse_edge.
  destruct (PyDict.get (module_to_file self) m) as [to_file |]; simpl.
  - rewrite get_default_add_to, !get_default_ensure.
    destruct (String.eqb_spec b (resolve p)) as [-> | _]; simpl;
      [| reflexivity].
    apply mem_add.
  - reflexivity.
Qed.

Lemma mirrored_do_call self c :
  mirrored self -> mirrored (do_call resolve self c).
Proof.
  intros H a b. destruct c as [p m content | p m]; simpl.
  - rewrite forward_edge_add_file, reverse_edge_add_file, H.
    f_equal. apply andb_comm.
  - rewrite forward_edge_add_dependency, reverse_edge_add_dependency, H.
    f_equal. destruct (PyDict.get (module_to_file self) m);
      [apply andb_comm | reflexivity].
Qed.

Lemma run_snoc calls c :
  run resolve (calls ++ [c]) = do_call resolve (run resolve calls) c.
Proof. unfold run. now rewrite fold_left_app. Qed.

(** C7: after any sequence of [add_file] and [add_dependency] calls on a
    fresh graph, [b] is in [forward[a]] exactly when [a] is in
    [reverse[b]]. *)
Theorem forward_reverse_mirrored calls a b :
  In b (PyDict.get_default (graph (run resolve calls)) a PySet.empty) <->
  In a (PyDict.get_default (reverse_graph (run resolve calls)) b PySet.empty).
Proof.
  assert (Hm : mirrored (run resolve calls)).
  { induction calls as [| c calls IH] using rev_ind.
    - intros x y. reflexivity.
    - rewrite run_snoc. now apply mirrored_do_call. }
  rewrite <- !mem_true_iff. specialize (Hm a b).
  unfold forward_edge, reverse_edge in Hm. now rewrite Hm.
Qed.

(** C6: a dependency on a module that has no file yet is turned into an
    edge by the [add_file] that registers the module, and the pending
    entry of the module is gone. *)
Theorem pending_dependency_resolved self consumer p m content :
  PyDict.contains (module_to_file self) m = false ->
  let self' :=
    add_file resolve (add_dependency resolve self consumer m) p m content in
  In (resolve p) (fst (get_dependencies resolve self' consumer)) /\
  PyDict.contains (pending_module_dependents self') m = false.
Proof.
  intros Hm self'. subst self'. split.
  - apply mem_true_iff. unfold get_dependencies. simpl.
    change (reverse_edge
              (add_file resolve (add_dependency resolve self consumer m)
                        p m content)
              (resolve consumer) (resolve p) = true).
    rewrite reverse_edge_add_file. apply orb_true_iff. left.
    rewrite String.eqb_refl, andb_true_r.
    unfold add_dependency, PyDict.contains in *.
    destruct (PyDict.get (module_to_file self) m); [discriminate |].
    simpl. rewrite get_default_add_to, String.eqb_refl, mem_add.
    now rewrite String.eqb_refl.
  - rewrite pending_add_file. unfold PyDict.contains.
    now rewrite get_remove, String.eqb_refl.
Qed.

(** C2 as amended: a second registration of a path with non-empty content
    replaces the cached content; the first content stays only when the
    second call gives no content or the empty string. *)
Theorem second_registration_content self p m1 m2 c1 content2 :
  c1 <> "" ->
  PyDict.get
    (file_contents
       (add_file resolve (add_file resolve self p m1 (Some c1)) p m2 content2))
    (resolve p) =
  match content2 with
  | Some c2 => if String.eqb c2 "" then Some c1 else Some c2
  | None => Some c1
  end.
Proof.
  intros Hc1. rewrite !file_contents_add_file.
  assert (Ht : truthy (Some c1) = true).
  { simpl. now destruct (String.eqb_spec c1 ""). }
  rewrite Ht. destruct content2 as [c2 |]; simpl.
  - destruct (String.eqb c2 ""); simpl; now rewrite get_set_same.
  - now rewrite get_set_same.
Qed.

Lemma last_path_of_snoc calls c m :
  last_path_of resolve (calls ++ [c]) m =
  match c with
  | AddFile p m' _ =>
      if String.eqb m m' then Some (resolve p)
      else last_path_of resolve calls m
  | AddDependency _ _ => last_path_of resolve calls m
  end.
Proof. unfold last_path_of. rewrite fold_left_app. reflexivity. Qed.

Lemma last_module_of_snoc calls c p :
  last_module_of resolve (calls ++ [c]) p =
  match c with
  | AddFile q m _ =>
      if String.eqb p (resolve q) then Some m
      else last_module_of resolve calls p
  | AddDependency _ _ => last_module_of resolve calls p
  end.
Proof. unfold last_module_of. rewrite fold_left_app. reflexivity. Qed.

Lemma module_to_file_run calls m :
  PyDict.get (module_to_file (run resolve calls)) m =
  last_path_of resolve calls m.
Proof.
  induction calls as [| c calls IH] using rev_ind; [reflexivity |].
  rewrite run_snoc, last_path_of_snoc. destruct c as [p m' content | p m'];
    simpl.
  - rewrite module_to_file_add_file, get_set, IH. reflexivity.
  - destruct (maps_add_dependency (run resolve calls) p m') as (_ & H & _).
    now rewrite H.
Qed.

Lemma file_to_module_run calls p :
  PyDict.get (file_to_module (run resolve calls)) p =
  last_module_of resolve calls p.
Proof.
  induction calls as [| c calls IH] using rev_ind; [reflexivity |].
  rewrite run_snoc, last_module_of_snoc. destruct c as [q m content | q m];
    simpl.
  - rewrite file_to_module_add_file, get_set, IH. reflexivity.
  - destruct (maps_add_dependency (run resolve calls) q m) as (H & _ & _).
    now rewrite H.
Qed.

Lemma last_path_of_registered calls m p :
  last_path_of resolve calls m = Some p ->
  exists q c, In (AddFile q m c) calls /\ resolve q = p.
Proof.
  induction calls as [| c0 calls IH] using rev_ind; [discriminate |].
  rewrite last_path_of_snoc. intros H.
  assert (Hold : last_path_of resolve calls m = Some p ->
                 exists q c, In (AddFile q m c) (calls ++ [c0]) /\
                             resolve q = p).
  { intros H'. destruct (IH H') as (q & c & Hin & Hq).
    exists q, c. split; [apply in_or_app; now left | assumption]. }
  destruct c0 as [q0 m0 c0 | q0 m0]; [| auto].
  destruct (String.eqb_spec m m0) as [-> | _]; [| auto].
  injection H as <-. exists q0, c0. split; [| reflexivity].
  apply in_or_app. right. now left.
Qed.

Lemma last_module_of_registered calls p m :
  last_module_of resolve calls p = Some m ->
  exists q c, In (AddFile q m c) calls /\ resolve q = p.
Proof.
  induction calls as [| c0 calls IH] using rev_ind; [discriminate |].
  rewrite last_module_of_snoc. intros H.
  assert (Hold : last_module_of resolve calls p = Some m ->
                 exists q c, In (AddFile q m c) (calls ++ [c0]) /\
                             resolve q = p).
  { intros H'. destruct (IH H') as (q & c & Hin & Hq).
    exists q, c. split; [apply in_or_app; now left | assumption]. }
  destruct c0 as [q0 m0 c0 | q0 m0]; [| auto].
  destruct (String.eqb_spec p (resolve q0)) as [-> | _]; [| auto].
  injection H as <-. exists q0, c0. split; [| reflexivity].
  apply in_or_app. right. now left.
Qed.

Lemma registered_last_path_of calls q m c :
  In (AddFile q m c) calls ->
  exists p, last_path_of resolve calls m = Some p.
Proof.
  induction calls as [| c0 calls IH] using rev_ind; [intros [] |].
  intros Hin. rewrite last_path_of_snoc.
  apply in_app_or in Hin. destruct Hin as [Hin | [-> | []]].
  - destruct c0 as [q0 m0 c0 | q0 m0]; [| auto].
    destruct (String.eqb m m0); eauto.
  - rewrite String.eqb_refl. eauto.
Qed.

Lemma registered_last_module_of calls q m c :
  In (AddFile q m c) calls ->
  exists m', last_module_of resolve calls (resolve q) = Some m'.
Proof.
  induction calls as [| c0 calls IH] using rev_ind; [intros [] |].
  intros Hin. rewrite last_module_of_snoc.
  apply in_app_or in Hin. destruct Hin as [Hin | [-> | []]].
  - destruct c0 as [q0 m0 c0 | q0 m0]; [| auto].
    destruct (String.eqb (resolve q) (resolve q0)); eauto.
  - rewrite String.eqb_refl. eauto.
Qed.

(** C3 as amended: in each map the last registration of a key wins, and
    the two maps are inverse to each other when no module name was
    registered under two paths and no path under two module names. *)
Theorem module_maps_last_registration calls :
  (forall m,
     PyDict.get (module_to_file (run resolve calls)) m =
     last_path_of resolve calls m) /\
  (forall p,
     PyDict.get (file_to_module (run resolve calls)) p =
     last_module_of resolve calls p) /\
  (one_to_one resolve calls -> mutual_inverses (run resolve calls)).
Proof.
  split; [apply module_to_file_run |].
  split; [apply file_to_module_run |].
  intros H11 m p. rewrite module_to_file_run, file_to_module_run. split.
  - intros H. destruct (last_path_of_registered _ _ _ H) as (q & c & Hin & <-).
    destruct (registered_last_module_of _ _ _ _ Hin) as (m' & Hm').
    rewrite Hm'. f_equal.
    destruct (last_module_of_registered _ _ _ Hm') as (q' & c' & Hin' & Hq').
    now apply (H11 q' m' c' q m c).
  - intros H. destruct (last_module_of_registered _ _ _ H) as (q & c & Hin & <-).
    destruct (registered_last_path_of _ _ _ _ Hin) as (p' & Hp').
    rewrite Hp'. f_equal.
    destruct (last_path_of_registered _ _ _ Hp') as (q' & c' & Hin' & <-).
    now apply (H11 q' m c' q m c).
Qed.

End MutationFacts.

(** ** Paths the graph has never seen *)

Lemma graph_keys_backfill_fold fp pending st k :
  PyDict.contains (graph (fold_left (backfill fp) pending st)) k = true ->
  k = fp \/ PyDict.contains (graph st) k = true.
Proof.
  revert st. induction pending as [| c pending IH]; intros st; simpl; [auto |].
  intros H. destruct (IH _ H) as [-> | H']; [auto |].
  unfold backfill in H'. simpl in H'. rewrite contains_add_to in H'.
  destruct (String.eqb_spec k fp); auto.
Qed.

Lemma reverse_keys_backfill_fold fp pending st k :
  PyDict.contains (reverse_graph (fold_left (backfill fp) pending st)) k = true ->
  In k pending \/ PyDict.contains (reverse_graph st) k = true.
Proof.
  revert st. induction pending as [| c pending IH]; intros st; simpl; [auto |].
  intros H. destruct (IH _ H) as [Hin | H']; [auto |].
  unfold backfill in H'. simpl in H'.
  rewrite contains_add_to, contains_ensure in H'.
  destruct (String.eqb_spec k c) as [-> | _]; auto.
Qed.

Section FreshPaths.

Variable resolve : string -> string.

Lemma confined_weaken paths paths' self :
  incl paths paths' -> confined paths self -> confined paths' self.
Proof.
  intros Hi (H1 & H2 & H3 & H4). split; [| split; [| split]]; intros.
  - apply Hi. eauto.
  - apply Hi. eauto.
  - apply Hi. eauto.
  - apply Hi. eauto.
Qed.

Lemma confined_add_file paths self p m content :
  confined paths self ->
  In (resolve p) paths ->
  confined paths (add_file resolve self p m content).
Proof.
  intros (H1 & H2 & H3 & H4) Hp. split; [| split; [| split]].
  - intros k Hk. unfold add_file, PyDict.pop in Hk.
    apply graph_keys_backfill_fold in Hk. simpl in Hk.
    destruct Hk as [-> | Hk]; [assumption |].
    rewrite contains_ensure in Hk.
    destruct (String.eqb_spec k (resolve p)) as [E | _]; [rewrite E |]; auto.
  - intros k Hk. unfold add_file, PyDict.pop in Hk.
    apply reverse_keys_backfill_fold in Hk. simpl in Hk.
    destruct Hk as [Hk | Hk].
    + apply (H4 m). now apply mem_true_iff.
    + rewrite contains_ensure in Hk.
      destruct (String.eqb_spec k (resolve p)) as [E | _]; [rewrite E |]; auto.
  - intros m' q. rewrite module_to_file_add_file, get_set.
    destruct (String.eqb m' m); [intros [= <-]; assumption | apply H3].
  - intros m' x. rewrite pending_add_file.
    unfold PyDict.get_default. rewrite get_remove.
    destruct (String.eqb m' m); [discriminate | apply H4].
Qed.

Lemma confined_add_dependency paths self p m :
  confined paths self ->
  In (resolve p) paths ->
  confined paths (add_dependency resolve self p m).
Proof.
  intros (H1 & H2 & H3 & H4) Hp. unfold add_dependency.
  destruct (PyDict.get (module_to_file self) m) as [to_file |] eqn:Hm.
  - split; [| split; [| split]]; simpl.
    + intros k. rewrite contains_add_to, !contains_ensure.
      destruct (String.eqb_spec k to_file) as [E | _]; [rewrite E; eauto |].
      destruct (String.eqb_spec k (resolve p)) as [E | _]; [rewrite E |]; auto.
    + intros k. rewrite contains_add_to, contains_ensure.
      destruct (String.eqb_spec k (resolve p)) as [E | _]; [rewrite E |]; auto.
    + assumption.
    + assumption.
  - split; [| split; [| split]]; simpl.
    + intros k. rewrite contains_ensure.
      destruct (String.eqb_spec k (resolve p)) as [E | _]; [rewrite E |]; auto.
    + assumption.
    + assumption.
    + intros m' x. rewrite get_default_add_to.
      destruct (String.eqb m' m); [| apply H4].
      rewrite mem_add. destruct (String.eqb_spec x (resolve p)) as [-> | _];
        [auto | apply H4].
Qed.

Lemma confined_run calls :
  confined (map (fun c => resolve (call_path c)) calls) (run resolve calls).
Proof.
  induction calls as [| c calls IH] using rev_ind.
  - repeat split; simpl; intros; discriminate.
  - rewrite run_snoc, map_app. simpl.
    assert (IH' : confined
                    (map (fun c => resolve (call_path c)) calls
                     ++ [resolve (call_path c)]) (run resolve calls)).
    { eapply confined_weaken; [| exact IH]. apply incl_appl, incl_refl. }
    assert (Hc : In (resolve (call_path c))
                    (map (fun c => resolve (call_path c)) calls
                     ++ [resolve (call_path c)])).
    { apply in_or_app. right. now left. }
    destruct c as [p m content | p m]; simpl in *.
    + now apply confined_add_file.
    + now apply confined_add_dependency.
Qed.

(** C10: for a path that no [add_file] or [add_dependency] call has named,
    both queries give the empty set, the object they leave is the object
    they found, and it has no node for the path in either map. *)
Theorem unknown_path_queries calls p :
  (forall c, In c calls -> resolve (call_path c) <> resolve p) ->
  let self := run resolve calls in
  get_dependencies resolve self p = (PySet.empty, self) /\
  get_dependents resolve self p = (PySet.empty, self) /\
  PyDict.contains (graph self) (resolve p) = false /\
  PyDict.contains (reverse_graph self) (resolve p) = false.
Proof.
  intros Hfresh self.
  destruct (confined_run calls) as (H1 & H2 & _ & _). fold self in H1, H2.
  assert (Hnot : ~ In (resolve p) (map (fun c => resolve (call_path c)) calls)).
  { intros Hin. apply in_map_iff in Hin. destruct Hin as (c & Hc & Hin).
    exact (Hfresh c Hin Hc). }
  assert (Hg : PyDict.contains (graph self) (resolve p) = false).
  { destruct (PyDict.contains (graph self) (resolve p)) eqn:E;
      [exfalso; auto | reflexivity]. }
  assert (Hr : PyDict.contains (reverse_graph self) (resolve p) = false).
  { destruct (PyDict.contains (reverse_graph self) (resolve p)) eqn:E;
      [exfalso; auto | reflexivity]. }
  split; [| split; [| split; assumption]].
  - unfold get_dependencies, PyDict.get_default.
    unfold PyDict.contains in Hr.
    destruct (PyDict.get (reverse_graph self) (resolve p));
      [discriminate | reflexivity].
  - unfold get_dependents, PyDict.get_default.
    unfold PyDict.contains in Hg.
    destruct (PyDict.get (graph self) (resolve p));
      [discriminate | reflexivity].
Qed.

End FreshPaths.

(** ** Topological sort *)

Lemma get_not_key {V : Type} (d : PyDict.t V) k :
  ~ In k (PyDict.keys d) -> PyDict.get d k = None.
Proof.
  intros H. destruct (PyDict.get d k) eqn:E; [| reflexivity].
  exfalso. apply H. apply contains_keys. unfold PyDict.contains. now rewrite E.
Qed.

Lemma has_edge_item g u v :
  has_edge g u v -> exists s, In (u, s) g /\ In v s.
Proof.
  unfold has_edge, adj, PyDict.get_default.
  destruct (PyDict.get g u) as [s |] eqn:E; [| intros []].
  intros H. exists s. split; [now apply get_In | assumption].
Qed.

Lemma item_has_edge (g : PyDict.t PySet.t) u s v :
  NoDup (PyDict.keys g) -> In (u, s) g -> In v s -> has_edge g u v.
Proof.
  intros Hnd Hin Hv. unfold has_edge, adj, PyDict.get_default.
  now rewrite (In_get _ _ _ Hnd Hin).
Qed.

Lemma adj_key (g : PyDict.t PySet.t) u v : has_edge g u v -> In u (PyDict.keys g).
Proof.
  intros H. destruct (has_edge_item _ _ _ H) as (s & Hin & _).
  unfold PyDict.keys. apply in_map_iff. now exists (u, s).
Qed.

Lemma has_edge_nodes g u v :
  well_formed g -> has_edge g u v ->
  In u (PyDict.keys g) /\ In v (PyDict.keys g).
Proof.
  intros Hwf H. destruct (has_edge_item _ _ _ H) as (s & Hin & Hv). split.
  - unfold PyDict.keys. apply in_map_iff. now exists (u, s).
  - eapply wf_closed; eauto.
Qed.

Lemma adj_NoDup g u : well_formed g -> NoDup (adj g u).
Proof.
  intros Hwf. unfold adj, PyDict.get_default.
  destruct (PyDict.get g u) as [s |] eqn:E; [| constructor].
  eapply wf_sets; eauto using get_In.
Qed.

(** *** The in-degree table *)

Lemma in_degree_zero_loop ks d v :
  d v = 0%Z ->
  fold_left (fun d node => in_degree_set d node 0%Z) ks d v = 0%Z.
Proof.
  revert d. induction ks as [| k ks IH]; intros d Hd; simpl; [assumption |].
  apply IH. unfold in_degree_set. now destruct (String.eqb v k).
Qed.

Lemma in_degree_count_set s d v :
  NoDup s ->
  fold_left (fun d dep => in_degree_set d dep (d dep + 1)%Z) s d v =
  (d v + if PySet.mem v s then 1 else 0)%Z.
Proof.
  revert d. induction s as [| x s IH]; intros d Hnd; simpl.
  - lia.
  - inversion Hnd as [| ? ? Hx Hnd']; subst. rewrite IH by assumption.
    unfold in_degree_set. destruct (String.eqb_spec v x) as [-> | Hvx]; simpl.
    + apply mem_false_iff in Hx. rewrite Hx. lia.
    + reflexivity.
Qed.

Lemma in_degree_count_graph g d v :
  (forall u s, In (u, s) g -> NoDup s) ->
  fold_left
    (fun d (item : string * PySet.t) =>
       fold_left (fun d dep => in_degree_set d dep (d dep + 1)%Z) (snd item) d)
    g d v =
  (d v + Z.of_nat (remaining g [] v))%Z.
Proof.
  revert d. unfold remaining.
  induction g as [| [u s] g IH]; intros d Hsets; simpl.
  - lia.
  - rewrite IH by (intros; eapply Hsets; right; eauto).
    rewrite in_degree_count_set by (eapply Hsets; left; reflexivity).
    rewrite andb_true_r. destruct (PySet.mem v s); simpl List.length; lia.
Qed.

Lemma in_degree_init_spec g v :
  well_formed g -> in_degree_init g v = Z.of_nat (remaining g [] v).
Proof.
  intros Hwf. unfold in_degree_init.
  rewrite in_degree_count_graph by apply Hwf.
  rewrite in_degree_zero_loop; [lia | reflexivity].
Qed.

(** *** Dependencies still to be emitted *)

Lemma remaining_zero g emitted u v :
  remaining g emitted v = 0 -> has_edge g u v -> In u emitted.
Proof.
  unfold remaining. intros H Hedge.
  destruct (has_edge_item _ _ _ Hedge) as (s & Hin & Hv).
  apply length_zero_iff_nil in H.
  destruct (PySet.mem u emitted) eqn:Hu; [now apply mem_true_iff |].
  exfalso.
  assert (Hf : In (u, s)
                  (filter
                     (fun item : string * PySet.t =>
                        PySet.mem v (snd item)
                        && negb (PySet.mem (fst item) emitted)) g)).
  { apply filter_In. split; [assumption |]. simpl.
    apply mem_true_iff in Hv. now rewrite Hv, Hu. }
  rewrite H in Hf. exact Hf.
Qed.

Lemma remaining_positive g emitted v :
  remaining g emitted v <> 0 ->
  exists u s, In (u, s) g /\ In v s /\ ~ In u emitted.
Proof.
  unfold remaining. intros H.
  destruct (filter _ g) as [| [u s] l] eqn:E; [now elim H |].
  assert (Hf : In (u, s) ((u, s) :: l)) by now left.
  rewrite <- E in Hf. apply filter_In in Hf. destruct Hf as [Hin Hc].
  simpl in Hc. apply andb_true_iff in Hc. destruct Hc as [Hv Hu].
  exists u, s. split; [assumption |]. split; [now apply mem_true_iff |].
  apply mem_false_iff. now destruct (PySet.mem u emitted).
Qed.

Lemma remaining_snoc g emitted node v :
  NoDup (PyDict.keys g) -> ~ In node emitted ->
  remaining g emitted v =
  remaining g (emitted ++ [node]) v
  + (if PySet.mem v (adj g node) then 1 else 0).
Proof.
  intros Hnd Hnode. unfold remaining, adj, PyDict.get_default.
  induction g as [| [k s] g IH]; simpl; [reflexivity |].
  inversion Hnd as [| ? ? Hk Hnd']; subst.
  rewrite mem_app.
  assert (Hs : PySet.mem k [node] = String.eqb k node)
    by (unfold PySet.mem; simpl; apply orb_false_r).
  rewrite Hs. specialize (IH Hnd').
  destruct (String.eqb_spec node k) as [-> | Hneq].
  - rewrite String.eqb_refl, orb_true_r. simpl negb. rewrite andb_false_r.
    apply mem_false_iff in Hnode. rewrite Hnode. simpl negb.
    rewrite andb_true_r.
    rewrite (get_not_key g k Hk) in IH. simpl in IH.
    destruct (PySet.mem v s); simpl List.length; lia.
  - assert (Hkn : String.eqb k node = false)
      by (destruct (String.eqb_spec k node); congruence).
    rewrite Hkn, orb_false_r.
    destruct (PySet.mem v s && negb (PySet.mem k emitted));
      simpl List.length; lia.
Qed.

(** *** Positions in the emitted sequence *)

Lemma index_Some node path i :
  index node path = Some i -> In node path /\ i < List.length path.
Proof.
  revert i. induction path as [| x path IH]; intros i; simpl; [discriminate |].
  destruct (String.eqb_spec x node) as [-> | Hx].
  - intros [= <-]. split; [now left | lia].
  - destruct (index node path) as [j |]; [| discriminate].
    intros [= <-]. destruct (IH j eq_refl). split; [now right | lia].
Qed.

Lemma index_In node path : In node path -> exists i, index node path = Some i.
Proof.
  induction path as [| x path IH]; simpl; [intros [] |].
  destruct (String.eqb_spec x node) as [-> | Hx]; [eauto |].
  intros [H | H]; [contradiction |]. destruct (IH H) as [i ->]. eauto.
Qed.

Lemma index_app_l node path path' i :
  index node path = Some i -> index node (path ++ path') = Some i.
Proof.
  revert i. induction path as [| x path IH]; intros i; simpl; [discriminate |].
  destruct (String.eqb x node); [trivial |].
  destruct (index node path) as [j |]; [| discriminate].
  intros [= <-]. now rewrite (IH j eq_refl).
Qed.

Lemma index_app_fresh node path path' :
  ~ In node path ->
  index node (path ++ node :: path') = Some (List.length path).
Proof.
  induction path as [| x path IH]; simpl; intros H.
  - now rewrite String.eqb_refl.
  - destruct (String.eqb_spec x node) as [-> | Hx]; [tauto |].
    rewrite IH; [reflexivity | tauto].
Qed.

Lemma before_app l l' u v : before l u v -> before (l ++ l') u v.
Proof.
  intros (i & j & Hi & Hj & Hlt). exists i, j.
  split; [now apply index_app_l |]. split; [now apply index_app_l | assumption].
Qed.

Lemma before_irrefl_cycle3 l a b c :
  before l a b -> before l b c -> before l c a -> False.
Proof.
  intros (i1 & j1 & H1 & H2 & Hlt1) (i2 & j2 & H3 & H4 & Hlt2)
         (i3 & j3 & H5 & H6 & Hlt3).
  rewrite H3 in H2. rewrite H5 in H4. rewrite H6 in H1.
  injection H1 as ->. injection H2 as ->. injection H4 as ->. lia.
Qed.

(** *** One pass over the consumers of an emitted node *)

Lemma relax_fold s d q :
  NoDup s ->
  (forall v, fst (fold_left relax s (d, q)) v =
             (d v - if PySet.mem v s then 1 else 0)%Z) /\
  snd (fold_left relax s (d, q)) =
    q ++ filter (fun dep => (d dep - 1 =? 0)%Z) s.
Proof.
  revert d q. induction s as [| x s IH]; intros d q Hnd; simpl.
  - split; [intros; lia | now rewrite app_nil_r].
  - inversion Hnd as [| ? ? Hx Hnd']; subst.
    assert (Hstep : relax (d, q) x =
                    (in_degree_set d x (d x - 1)%Z,
                     if (d x - 1 =? 0)%Z then q ++ [x] else q)).
    { unfold relax, in_degree_set. simpl. rewrite String.eqb_refl.
      now destruct (d x - 1 =? 0)%Z. }
    rewrite Hstep.
    destruct (IH (in_degree_set d x (d x - 1)%Z)
                 (if (d x - 1 =? 0)%Z then q ++ [x] else q) Hnd')
      as [Hd Hq].
    split.
    + intros v. rewrite Hd. unfold in_degree_set.
      destruct (String.eqb_spec v x) as [-> | Hvx]; simpl.
      * apply mem_false_iff in Hx. rewrite Hx. lia.
      * reflexivity.
    + rewrite Hq.
      assert (Hext : filter
                       (fun dep => (in_degree_set d x (d x - 1) dep - 1 =? 0)%Z) s
                     = filter (fun dep => (d dep - 1 =? 0)%Z) s).
      { apply filter_ext_in. intros y Hy. unfold in_degree_set.
        destruct (String.eqb_spec y x) as [-> | _]; [contradiction | reflexivity]. }
      rewrite Hext. destruct (d x - 1 =? 0)%Z; [| reflexivity].
      now rewrite <- app_assoc.
Qed.

Lemma kahn_initial g :
  well_formed g ->
  kahn_invariant g (in_degree_init g)
    (filter (fun node => (in_degree_init g node =? 0)%Z) (PyDict.keys g)) [].
Proof.
  intros Hwf. constructor; simpl.
  - apply NoDup_filter, Hwf.
  - intros v Hv. now apply filter_In in Hv.
  - intros v. now apply in_degree_init_spec.
  - intros v Hv. rewrite filter_In, Z.eqb_eq. tauto.
  - intros u v _ [].
Qed.

Lemma kahn_step g d node q r :
  well_formed g ->
  kahn_invariant g d (node :: q) r ->
  kahn_invariant g (fst (fold_left relax (adj g node) (d, q)))
                 (snd (fold_left relax (adj g node) (d, q))) (r ++ [node]).
Proof.
  intros Hwf [Hnd Hnodes Hcount Hready Horder].
  destruct (relax_fold (adj g node) d q (adj_NoDup g node Hwf)) as [Hd Hq].
  assert (Hnode_r : ~ In node r).
  { apply NoDup_remove_2 in Hnd. intros H. apply Hnd.
    apply in_or_app. now left. }
  assert (Hnode_key : In node (PyDict.keys g)).
  { apply Hnodes. apply in_or_app. right. now left. }
  assert (Hnode0 : remaining g r node = 0).
  { assert (d node = 0%Z).
    { apply Hready; [assumption |]. apply in_or_app. right. now left. }
    rewrite Hcount in *. lia. }
  assert (Hadj_key : forall v, In v (adj g node) -> In v (PyDict.keys g)).
  { intros v Hv. now apply (has_edge_nodes g node v Hwf). }
  assert (Hadj_new : forall v, In v (adj g node) -> ~ In v (r ++ node :: q)).
  { intros v Hv Hin. apply Hnode_r.
    apply (remaining_zero g r node v); [| exact Hv].
    apply Hready in Hin; [| now apply Hadj_key]. rewrite Hcount in Hin. lia. }
  assert (Hcount' : forall v,
            fst (fold_left relax (adj g node) (d, q)) v =
            Z.of_nat (remaining g (r ++ [node]) v)).
  { intros v. rewrite Hd, Hcount.
    rewrite (remaining_snoc g r node v (wf_keys g Hwf) Hnode_r).
    destruct (PySet.mem v (adj g node)); lia. }
  assert (Hsame : forall v, In v ((r ++ [node]) ++ q) <-> In v (r ++ node :: q)).
  { intros v. now rewrite <- app_assoc. }
  constructor.
  - rewrite Hq, app_assoc. apply NoDup_app.
    + now rewrite <- app_assoc.
    + apply NoDup_filter. now apply adj_NoDup.
    + intros v Hv Hnew. apply filter_In in Hnew. destruct Hnew as [Hnew _].
      apply (Hadj_new v Hnew). now apply Hsame.
  - intros v. rewrite Hq, app_assoc, in_app_iff, Hsame.
    intros [Hv | Hv]; [now apply Hnodes |].
    apply filter_In in Hv. now apply Hadj_key.
  - exact Hcount'.
  - intros v Hv. rewrite Hq, app_assoc, in_app_iff, Hsame, filter_In, Hd.
    rewrite <- (mem_true_iff v (adj g node)), Z.eqb_eq.
    specialize (Hready v Hv). specialize (Hadj_new v).
    rewrite <- (mem_true_iff v (adj g node)) in Hadj_new.
    destruct (PySet.mem v (adj g node)); split.
    + intros [H | [_ H]]; [exfalso; now apply Hadj_new | lia].
    + intros H. right. split; [reflexivity | lia].
    + intros [H | [H _]]; [apply Hready in H; lia | discriminate].
    + intros H. left. apply Hready. lia.
  - intros u v Hedge Hv. apply in_app_or in Hv. destruct Hv as [Hv | [<- | []]].
    + apply before_app. now apply Horder.
    + assert (Hu : In u r) by now apply (remaining_zero g r u node).
      destruct (index_In _ _ Hu) as [i Hi].
      exists i, (List.length r). split; [now apply index_app_l |].
      split; [now apply index_app_fresh |]. now apply index_Some in Hi.
Qed.

Lemma kahn_loop_total g :
  well_formed g ->
  forall fuel d q r,
    kahn_invariant g d q r ->
    List.length (PyDict.keys g) <= fuel + List.length r ->
    exists order d',
      kahn_loop fuel g d q r = Some order /\ kahn_invariant g d' [] order.
Proof.
  intros Hwf fuel. induction fuel as [| fuel IH]; intros d q r Hinv Hfuel.
  - destruct q as [| node q]; simpl; [eauto |].
    exfalso.
    assert (Hlen : List.length (r ++ node :: q) <= List.length (PyDict.keys g)).
    { apply NoDup_incl_length; [apply Hinv |]. intros v. apply Hinv. }
    rewrite length_app in Hlen. simpl in *. lia.
  - destruct q as [| node q]; simpl; [eauto |].
    apply IH.
    + now apply kahn_step.
    + rewrite length_app. simpl. lia.
Qed.

Lemma topological_sort_invariant self :
  well_formed (graph self) ->
  exists order d',
    topological_sort self = Some order /\
    kahn_invariant (graph self) d' [] order.
Proof.
  intros Hwf. unfold topological_sort.
  apply kahn_loop_total; [assumption | now apply kahn_initial |].
  unfold PyDict.keys. rewrite length_map. simpl. lia.
Qed.

(** *** Nodes that are never emitted lie behind a cycle *)

Lemma walk_suffix g l1 l2 : walk g (l1 ++ l2) -> walk g l2.
Proof.
  induction l1 as [| x l1 IH]; simpl; [trivial |].
  destruct (l1 ++ l2) eqn:E; [| intros [_ H]; auto].
  destruct l1; [| discriminate]. simpl in E. now subst.
Qed.

Lemma walk_reaches g x l y l' : walk g (x :: l ++ y :: l') -> reaches g x y.
Proof.
  revert x. induction l as [| z l IH]; intros x; simpl.
  - intros [H _]. now apply reaches_edge.
  - intros [H Hw]. eapply reaches_step; [exact H |]. now apply IH.
Qed.

Lemma duplicate_split (l : list string) :
  ~ NoDup l -> exists x l1 l2 l3, l = l1 ++ x :: l2 ++ x :: l3.
Proof.
  induction l as [| a l IH]; intros H.
  - elim H. constructor.
  - destruct (in_dec string_dec a l) as [Hin | Hnotin].
    + apply in_split in Hin. destruct Hin as (l2 & l3 & ->).
      now exists a, [], l2, l3.
    + destruct IH as (x & l1 & l2 & l3 & ->).
      * intros Hnd. apply H. now constructor.
      * now exists x, (a :: l1), l2, l3.
Qed.

Lemma backward_walk g (P : string -> Prop) :
  (forall v, P v -> exists u, has_edge g u v /\ P u) ->
  forall n v, P v ->
    exists h t, List.length t = n /\ Forall P (h :: t) /\ walk g (h :: t).
Proof.
  intros Hpred n. induction n as [| n IH]; intros v Hv.
  - exists v, []. simpl. repeat split; auto.
  - destruct (IH v Hv) as (h & t & Hlen & Hall & Hwalk).
    assert (Hh : P h) by now inversion Hall.
    destruct (Hpred h Hh) as (u & Hedge & Hu).
    exists u, (h :: t). simpl. repeat split; auto.
Qed.

Lemma unemitted_cycle g (P : string -> Prop) :
  (forall v, P v -> In v (PyDict.keys g)) ->
  (forall v, P v -> exists u, has_edge g u v /\ P u) ->
  forall v, P v -> exists w, reaches g w w.
Proof.
  intros Hkeys Hpred v Hv.
  destruct (backward_walk g P Hpred (List.length (PyDict.keys g)) v Hv)
    as (h & t & Hlen & Hall & Hwalk).
  assert (Hdup : ~ NoDup (h :: t)).
  { intros Hnd.
    assert (Hle : List.length (h :: t) <= List.length (PyDict.keys g)).
    { apply NoDup_incl_length; [assumption |]. intros x Hx.
      apply Hkeys. rewrite Forall_forall in Hall. now apply Hall. }
    simpl in Hle. lia. }
  destruct (duplicate_split _ Hdup) as (x & l1 & l2 & l3 & E).
  exists x. rewrite E in Hwalk. apply walk_suffix in Hwalk.
  now apply walk_reaches in Hwalk.
Qed.

(** C5: on an acyclic graph [topological_sort] returns a sequence that
    holds every node exactly once and in which every dependency stands
    strictly before each of its consumers. *)
Theorem topological_sort_acyclic self :
  well_formed (graph self) ->
  acyclic (graph self) ->
  exists order,
    topological_sort self = Some order /\
    NoDup order /\
    (forall v, In v order <-> In v (PyDict.keys (graph self))) /\
    (forall u v, has_edge (graph self) u v -> before order u v).
Proof.
  intros Hwf Hacyc.
  destruct (topological_sort_invariant self Hwf)
    as (order & d & Hsort & [Hnd Hnodes Hcount Hready Horder]).
  rewrite app_nil_r in *.
  assert (Hall : forall v, In v (PyDict.keys (graph self)) -> In v order).
  { intros v Hv. destruct (in_dec string_dec v order) as [| Hnot]; [assumption |].
    exfalso.
    destruct (unemitted_cycle (graph self)
                (fun x => In x (PyDict.keys (graph self)) /\ ~ In x order))
      with (v := v) as [w Hw].
    - tauto.
    - intros x [Hx Hxo].
      assert (Hrem : remaining (graph self) order x <> 0).
      { intros H0. apply Hxo. apply Hready; [assumption |].
        rewrite Hcount, H0. reflexivity. }
      destruct (remaining_positive _ _ _ Hrem) as (u & s & Hin & Hxs & Hu).
      exists u. split; [eapply item_has_edge; eauto; apply Hwf |].
      split; [| assumption].
      unfold PyDict.keys. apply in_map_iff. now exists (u, s).
    - tauto.
    - exact (Hacyc w Hw). }
  exists order. split; [assumption |]. split; [assumption |].
  split; [split; auto |].
  intros u v Hedge. apply Horder; [assumption |]. apply Hall.
  now apply (has_edge_nodes _ u v Hwf).
Qed.

Lemma topological_sort_skips_cycle self a b c :
  well_formed (graph self) ->
  has_edge (graph self) a b ->
  has_edge (graph self) b c ->
  has_edge (graph self) c a ->
  exists order,
    topological_sort self = Some order /\
    List.length order < List.length (PyDict.keys (graph self)) /\
    ~ In a order /\ ~ In b order /\ ~ In c order.
Proof.
  intros Hwf Hab Hbc Hca.
  destruct (topological_sort_invariant self Hwf)
    as (order & d & Hsort & [Hnd Hnodes Hcount Hready Horder]).
  rewrite app_nil_r in *.
  assert (Hbefore : forall u v, has_edge (graph self) u v -> In v order ->
                                In u order).
  { intros u v He Hv. destruct (Horder u v He Hv) as (i & j & Hi & _).
    now apply index_Some in Hi. }
  assert (Ha : ~ In a order).
  { intros Ha.
    assert (Hc : In c order) by eauto.
    assert (Hb : In b order) by eauto.
    exact (before_irrefl_cycle3 order a b c
             (Horder a b Hab Hb) (Horder b c Hbc Hc) (Horder c a Hca Ha)). }
  exists order. split; [assumption |]. split; [| split; [assumption |]].
  - assert (Hle : List.length (a :: order)
                  <= List.length (PyDict.keys (graph self))).
    { apply NoDup_incl_length; [now constructor |].
      intros x [<- | Hx]; [| auto].
      now apply (has_edge_nodes _ a b Hwf). }
    simpl in Hle. lia.
  - split; intros H; apply Ha; eauto.
Qed.

(** ** The graphs the class builds are well formed *)

Lemma keys_set {V : Type} (d : PyDict.t V) k v x :
  In x (PyDict.keys (PyDict.set d k v)) <-> x = k \/ In x (PyDict.keys d).
Proof.
  rewrite <- !contains_keys, contains_set, orb_true_iff, String.eqb_eq. tauto.
Qed.

Lemma keys_set_NoDup {V : Type} (d : PyDict.t V) k v :
  NoDup (PyDict.keys d) -> NoDup (PyDict.keys (PyDict.set d k v)).
Proof.
  unfold PyDict.keys. induction d as [| [k0 v0] d IH]; simpl; intros Hnd.
  - repeat constructor. intros [].
  - inversion Hnd as [| ? ? Hk0 Hnd']; subst.
    destruct (String.eqb_spec k k0) as [-> | Hk]; simpl; [assumption |].
    constructor; [| auto].
    intros Hin. apply Hk0. apply (keys_set d k v k0) in Hin.
    destruct Hin; [congruence | assumption].
Qed.

Lemma In_set {V : Type} (d : PyDict.t V) k v u s :
  In (u, s) (PyDict.set d k v) -> (u = k /\ s = v) \/ In (u, s) d.
Proof.
  induction d as [| [k0 v0] d IH]; simpl.
  - intros [[= <- <-] | []]. auto.
  - destruct (String.eqb_spec k k0) as [-> | Hk]; simpl.
    + intros [[= <- <-] | H]; auto.
    + intros [H | H]; [auto |]. destruct (IH H); auto.
Qed.

Lemma well_formed_set g k s :
  well_formed g -> NoDup s ->
  (forall v, In v s -> v = k \/ In v (PyDict.keys g)) ->
  well_formed (PyDict.set g k s).
Proof.
  intros [W1 W2 W3] Hs Hin. constructor.
  - now apply keys_set_NoDup.
  - intros u s' H. apply In_set in H. destruct H as [[_ ->] | H]; eauto.
  - intros u s' v H Hv. apply keys_set. apply In_set in H.
    destruct H as [[_ ->] | H]; [auto | right; eauto].
Qed.

Lemma well_formed_ensure g k :
  well_formed g ->
  well_formed (if PyDict.contains g k then g else PyDict.set g k PySet.empty).
Proof.
  intros Hwf. destruct (PyDict.contains g k); [assumption |].
  apply well_formed_set; [assumption | constructor | intros v []].
Qed.

Lemma keys_ensure {V : Type} (d : PyDict.t V) k dflt x :
  In x (PyDict.keys (if PyDict.contains d k then d else PyDict.set d k dflt))
  <-> x = k \/ In x (PyDict.keys d).
Proof.
  rewrite <- !contains_keys, contains_ensure, orb_true_iff, String.eqb_eq.
  tauto.
Qed.

Lemma well_formed_add_to g k x :
  well_formed g -> x = k \/ In x (PyDict.keys g) ->
  well_formed (PyDict.add_to g k x).
Proof.
  intros Hwf Hx. unfold PyDict.add_to. apply well_formed_set; [assumption | |].
  - apply add_NoDup. apply (adj_NoDup g k Hwf).
  - intros v Hv. apply In_add in Hv. destruct Hv as [-> | Hv]; [assumption |].
    right. now apply (has_edge_nodes g k v Hwf).
Qed.

Lemma keys_add_to g k x y :
  In y (PyDict.keys (PyDict.add_to g k x)) <-> y = k \/ In y (PyDict.keys g).
Proof. unfold PyDict.add_to. apply keys_set. Qed.

Lemma graph_backfill_fold fp pending st :
  well_formed (graph st) ->
  (forall x, In x pending -> In x (PyDict.keys (graph st))) ->
  well_formed (graph (fold_left (backfill fp) pending st)) /\
  (forall x, In x (PyDict.keys (graph st)) ->
             In x (PyDict.keys (graph (fold_left (backfill fp) pending st)))).
Proof.
  revert st. induction pending as [| c pending IH]; intros st Hwf Hin; simpl.
  - auto.
  - assert (Hgrow : forall x, In x (PyDict.keys (graph st)) ->
                              In x (PyDict.keys (graph (backfill fp st c)))).
    { intros x Hx. unfold backfill. simpl. apply keys_add_to. now right. }
    destruct (IH (backfill fp st c)) as [H1 H2].
    + unfold backfill. simpl. apply well_formed_add_to; [assumption |].
      right. apply Hin. now left.
    + intros x Hx. apply Hgrow, Hin. now right.
    + split; [assumption | auto].
Qed.

Section BuiltGraphs.

Variable resolve : string -> string.

Lemma graph_ok_add_file self p m content :
  graph_ok self -> graph_ok (add_file resolve self p m content).
Proof.
  intros [Hwf Hpend].
  assert (Hfold := graph_backfill_fold (resolve p)
                     (PyDict.get_default (pending_module_dependents self) m
                                         PySet.empty)).
  split.
  - unfold add_file, PyDict.pop. apply Hfold; simpl.
    + now apply well_formed_ensure.
    + intros x Hx. apply keys_ensure. right. eauto.
  - intros m' x. rewrite pending_add_file.
    unfold PyDict.get_default at 1. rewrite get_remove.
    destruct (String.eqb m' m); [intros [] |].
    intros Hx. unfold add_file, PyDict.pop. apply Hfold; simpl.
    + now apply well_formed_ensure.
    + intros y Hy. apply keys_ensure. right. eauto.
    + apply keys_ensure. right. apply (Hpend m'). exact Hx.
Qed.

Lemma graph_ok_add_dependency self p m :
  graph_ok self -> graph_ok (add_dependency resolve self p m).
Proof.
  intros [Hwf Hpend]. unfold add_dependency.
  destruct (PyDict.get (module_to_file self) m) as [to_file |]; split; simpl.
  - apply well_formed_add_to; [now repeat apply well_formed_ensure |].
    right. apply keys_ensure. right. apply keys_ensure. now left.
  - intros m' x Hx. apply keys_add_to. right. apply keys_ensure. right.
    apply keys_ensure. right. eauto.
  - now apply well_formed_ensure.
  - intros m' x. rewrite get_default_add_to.
    destruct (String.eqb m' m).
    + intros Hx. apply In_add in Hx. apply keys_ensure.
      destruct Hx as [-> | Hx]; [now left | right; eauto].
    + intros Hx. apply keys_ensure. right. eauto.
Qed.

(** Whatever the calls, the forward map of the object is well formed. *)
Lemma run_well_formed calls : well_formed (graph (run resolve calls)).
Proof.
  assert (H : graph_ok (run resolve calls)); [| apply H].
  induction calls as [| c calls IH] using rev_ind.
  - split; [| intros m x []]. constructor; simpl.
    + constructor.
    + intros u s [].
    + intros u s v [].
  - rewrite run_snoc. destruct c; simpl.
    + now apply graph_ok_add_file.
    + now apply graph_ok_add_dependency.
Qed.

End BuiltGraphs.

(** ** Cycle detection *)

Lemma fold_opt_preserves {A B : Type} (f : A -> B -> option A)
    (P : A -> Prop) l :
  (forall a b a', In b l -> P a -> f a b = Some a' -> P a') ->
  forall a a', P a -> fold_opt f l a = Some a' -> P a'.
Proof.
  induction l as [| b l IH]; intros Hstep a a' Ha; simpl.
  - now intros [= <-].
  - destruct (f a b) as [a1 |] eqn:E; [| discriminate].
    apply IH.
    + intros x y x' Hy. apply Hstep. now right.
    + eapply Hstep; eauto. now left.
Qed.

Lemma fold_opt_total {A B : Type} (f : A -> B -> option A)
    (P : A -> Prop) l :
  (forall a b, In b l -> P a -> exists a', f a b = Some a' /\ P a') ->
  forall a, P a -> exists a', fold_opt f l a = Some a' /\ P a'.
Proof.
  induction l as [| b l IH]; intros Hstep a Ha; simpl.
  - eauto.
  - destruct (Hstep a b (or_introl eq_refl) Ha) as (a1 & -> & Ha1).
    apply IH; [| assumption]. intros x y Hy. apply Hstep. now right.
Qed.

Lemma dfs_frame_refl st : dfs_frame st st.
Proof. repeat split; apply incl_refl. Qed.

Lemma dfs_frame_trans st1 st2 st3 :
  dfs_frame st1 st2 -> dfs_frame st2 st3 -> dfs_frame st1 st3.
Proof.
  intros (A1 & A2 & A3) (B1 & B2 & B3). repeat split.
  - eapply incl_tran; eauto.
  - eapply incl_tran; eauto.
  - eapply incl_tran; eauto.
Qed.

Lemma cycle_dfs_frame g fuel :
  forall st node path st',
    cycle_dfs fuel g st node path = Some st' -> dfs_frame st st'.
Proof.
  induction fuel as [| fuel IH]; intros st node path st'; simpl;
    [discriminate |].
  destruct (PySet.mem node (rec_stack st)) eqn:Hstack.
  { destruct (index node path); [| discriminate]. intros [= <-].
    repeat split; simpl; try apply incl_refl. apply incl_appl, incl_refl. }
  destruct (PySet.mem node (visited st)) eqn:Hvis.
  { intros [= <-]. apply dfs_frame_refl. }
  destruct (fold_opt _ _ _) as [st2 |] eqn:Hfold; [| discriminate].
  intros [= <-].
  apply (fold_opt_preserves _
           (dfs_frame (mkDfs (PySet.add node (visited st))
                             (PySet.add node (rec_stack st)) (cycles st))))
    in Hfold.
  - destruct Hfold as (F1 & F2 & F3). simpl in *. repeat split; simpl.
    + intros x Hx. apply In_remove in Hx. destruct Hx as [Hneq Hx].
      apply F1, In_add in Hx. tauto.
    + intros x Hx. apply F2, In_add. now right.
    + assumption.
  - intros a b a' _ Ha Hcall. eapply dfs_frame_trans; eauto.
  - apply dfs_frame_refl.
Qed.

Lemma cycle_dfs_visits g fuel st node path st' :
  cycle_dfs fuel g st node path = Some st' ->
  In node (rec_stack st) \/ In node (visited st').
Proof.
  destruct fuel as [| fuel]; simpl; [discriminate |].
  destruct (PySet.mem node (rec_stack st)) eqn:Hstack.
  { intros _. left. now apply mem_true_iff. }
  destruct (PySet.mem node (visited st)) eqn:Hvis.
  { intros [= <-]. right. now apply mem_true_iff. }
  destruct (fold_opt _ _ _) as [st2 |] eqn:Hfold; [| discriminate].
  intros [= <-]. right. simpl.
  apply (fold_opt_preserves _
           (dfs_frame (mkDfs (PySet.add node (visited st))
                             (PySet.add node (rec_stack st)) (cycles st))))
    in Hfold.
  - destruct Hfold as (_ & F2 & _). apply F2. simpl. apply In_add. now left.
  - intros a b a' _ Ha Hcall. eapply dfs_frame_trans; eauto.
    eapply cycle_dfs_frame; eauto.
  - apply dfs_frame_refl.
Qed.

(** *** The search always returns *)

Lemma unvisited_mono g st st' :
  incl (visited st) (visited st') ->
  List.length (unvisited g st') <= List.length (unvisited g st).
Proof.
  intros Hincl. unfold unvisited.
  induction (PyDict.keys g) as [| k ks IH]; simpl; [lia |].
  destruct (PySet.mem k (visited st')) eqn:E'; simpl.
  - destruct (PySet.mem k (visited st)); simpl; lia.
  - apply mem_false_iff in E'.
    assert (E : PySet.mem k (visited st) = false).
    { apply mem_false_iff. intros H. apply E'. now apply Hincl. }
    rewrite E. simpl. lia.
Qed.

Lemma unvisited_visit g st node rs cs :
  In node (PyDict.keys g) ->
  ~ In node (visited st) ->
  List.length (unvisited g (mkDfs (PySet.add node (visited st)) rs cs))
  < List.length (unvisited g st).
Proof.
  intros Hkey Hnew. unfold unvisited. simpl.
  induction (PyDict.keys g) as [| k ks IH]; simpl; [destruct Hkey |].
  rewrite mem_add.
  destruct (String.eqb_spec k node) as [-> | Hk]; simpl.
  - apply mem_false_iff in Hnew. rewrite Hnew. simpl.
    assert (Hle : List.length
                    (filter (fun k => negb (PySet.mem k (PySet.add node (visited st)))) ks)
                  <= List.length
                       (filter (fun k => negb (PySet.mem k (visited st))) ks)).
    { clear. induction ks as [| k ks IH]; simpl; [lia |].
      rewrite mem_add. destruct (String.eqb k node); simpl.
      - destruct (PySet.mem k (visited st)); simpl; lia.
      - destruct (PySet.mem k (visited st)); simpl; lia. }
    lia.
  - destruct Hkey as [Hkey | Hkey]; [congruence |].
    specialize (IH Hkey).
    destruct (PySet.mem k (visited st)); simpl; lia.
Qed.

Lemma cycle_dfs_total g :
  well_formed g ->
  forall fuel st node path,
    In node (PyDict.keys g) ->
    (forall x, In x (rec_stack st) -> In x path) ->
    List.length (unvisited g st) < fuel ->
    exists st', cycle_dfs fuel g st node path = Some st'.
Proof.
  intros Hwf fuel. induction fuel as [| fuel IH]; intros st node path Hkey Hpath Hfuel;
    [lia |].
  simpl.
  destruct (PySet.mem node (rec_stack st)) eqn:Hstack.
  { apply mem_true_iff, Hpath, index_In in Hstack.
    destruct Hstack as [i ->]. eauto. }
  destruct (PySet.mem node (visited st)) eqn:Hvis; [eauto |].
  apply mem_false_iff in Hvis.
  set (st1 := mkDfs (PySet.add node (visited st))
                    (PySet.add node (rec_stack st)) (cycles st)).
  destruct (fold_opt_total
              (fun st dep => cycle_dfs fuel g st dep (path ++ [node]))
              (fun s => (forall x, In x (rec_stack s) -> In x (path ++ [node]))
                        /\ List.length (unvisited g s) < fuel)
              (PyDict.get_default g node PySet.empty))
    with (a := st1) as (st2 & -> & _).
  - intros s dep Hdep [Hs1 Hs2].
    destruct (IH s dep (path ++ [node])) as [s' Hs']; try assumption.
    { now apply (has_edge_nodes g node dep Hwf). }
    exists s'. split; [assumption |].
    destruct (cycle_dfs_frame _ _ _ _ _ _ Hs') as (F1 & F2 & _). split.
    + intros x Hx. apply Hs1, F1, Hx.
    + pose proof (unvisited_mono g s s' F2). lia.
  - split.
    + intros x Hx. simpl in Hx. apply In_add in Hx. apply in_or_app.
      destruct Hx as [-> | Hx]; [right; now left | left; auto].
    + pose proof (unvisited_visit g st node (PySet.add node (rec_stack st))
                    (cycles st) Hkey Hvis).
      fold st1 in H. lia.
  - eauto.
Qed.

Lemma unvisited_bound g st : List.length (unvisited g st) <= List.length g.
Proof.
  unfold unvisited, PyDict.keys.
  etransitivity; [apply filter_length_le | now rewrite length_map].
Qed.

(** The outer loop of [detect_cycles]. *)
Lemma detect_loop g fuel l :
  forall st st',
    incl (rec_stack st) [] ->
    fold_opt
      (fun st node =>
         if PySet.mem node (visited st) then Some st
         else cycle_dfs fuel g st node []) l st = Some st' ->
    incl (rec_stack st') [] /\
    incl (visited st) (visited st') /\
    incl (cycles st) (cycles st') /\
    (forall k, In k l -> In k (visited st')).
Proof.
  induction l as [| k l IH]; intros st st' Hrs; simpl.
  - intros [= <-]. repeat split; try apply incl_refl; try assumption.
    intros k [].
  - destruct (PySet.mem k (visited st)) eqn:Hk.
    + intros Hfold. destruct (IH _ _ Hrs Hfold) as (I1 & I2 & I3 & I4).
      repeat split; try assumption.
      intros x [<- | Hx]; [| auto]. apply I2. now apply mem_true_iff.
    + destruct (cycle_dfs fuel g st k []) as [st1 |] eqn:Hcall; [| discriminate].
      intros Hfold.
      destruct (cycle_dfs_frame _ _ _ _ _ _ Hcall) as (F1 & F2 & F3).
      assert (Hrs1 : incl (rec_stack st1) []) by (eapply incl_tran; eauto).
      destruct (IH _ _ Hrs1 Hfold) as (I1 & I2 & I3 & I4).
      repeat split; try assumption.
      * eapply incl_tran; eauto.
      * eapply incl_tran; eauto.
      * intros x [<- | Hx]; [| auto]. apply I2.
        destruct (cycle_dfs_visits _ _ _ _ _ _ Hcall) as [H | H];
          [destruct (Hrs _ H) | assumption].
Qed.

Lemma detect_cycles_total self :
  well_formed (graph self) ->
  exists found, detect_cycles self = Some found.
Proof.
  intros Hwf. unfold detect_cycles.
  destruct (fold_opt_total
              (fun st node =>
                 if PySet.mem node (visited st) then Some st
                 else cycle_dfs
                        (S (List.length (graph self) + edge_count (graph self)))
                        (graph self) st node [])
              (fun s => incl (rec_stack s) [] /\ True)
              (PyDict.keys (graph self)))
    with (a := mkDfs PySet.empty PySet.empty []) as (st' & -> & _).
  - intros s k Hk [Hs _].
    destruct (PySet.mem k (visited s)); [eauto |].
    destruct (cycle_dfs_total (graph self) Hwf
                (S (List.length (graph self) + edge_count (graph self)))
                s k [] Hk) as [s' Hs'].
    + intros x Hx. exact (Hs x Hx).
    + pose proof (unvisited_bound (graph self) s). lia.
    + exists s'. split; [assumption |]. split; [| trivial].
      destruct (cycle_dfs_frame _ _ _ _ _ _ Hs') as (F1 & _).
      eapply incl_tran; eauto.
  - split; [apply incl_refl | trivial].
  - eauto.
Qed.

(** *** A cycle whose nodes have no other way out *)

Lemma cycle_dfs_unfold fuel g st node path :
  cycle_dfs (S fuel) g st node path =
  if PySet.mem node (rec_stack st) then
    match index node path with
    | Some cycle_start =>
        Some (mkDfs (visited st) (rec_stack st)
                    (cycles st ++ [skipn cycle_start path ++ [node]]))
    | None => None
    end
  else if PySet.mem node (visited st) then Some st
  else
    match fold_opt (fun st dep => cycle_dfs fuel g st dep (path ++ [node]))
                   (adj g node)
                   (mkDfs (PySet.add node (visited st))
                          (PySet.add node (rec_stack st)) (cycles st)) with
    | Some st =>
        Some (mkDfs (visited st) (PySet.remove node (rec_stack st)) (cycles st))
    | None => None
    end.
Proof. reflexivity. Qed.

Lemma index_app_bound x p rest i :
  index x (p ++ x :: rest) = Some i -> i <= List.length p.
Proof.
  revert i. induction p as [| y p IH]; intros i; simpl.
  - rewrite String.eqb_refl. intros [= <-]. lia.
  - destruct (String.eqb y x); [intros [= <-]; lia |].
    destruct (index x (p ++ x :: rest)) as [j |]; [| discriminate].
    intros [= <-]. specialize (IH j eq_refl). lia.
Qed.

Lemma skipn_app_le (p l : list string) i :
  i <= List.length p -> skipn i (p ++ l) = skipn i p ++ l.
Proof.
  intros H. rewrite skipn_app.
  replace (i - List.length p) with 0 by lia. reflexivity.
Qed.

Section CycleOfThree.

Variable g : PyDict.t PySet.t.

Lemma cycle_entry x y z :
  adj g x = [y] -> adj g y = [z] -> adj g z = [x] ->
  forall fuel st path st',
    (forall w, In w (rec_stack st) -> In w (visited st)) ->
    ~ In x (visited st) -> ~ In y (visited st) -> ~ In z (visited st) ->
    cycle_dfs fuel g st x path = Some st' ->
    cycle_through x y z (cycles st').
Proof.
  intros Hx Hy Hz fuel st path st' Hstack Hvx Hvy Hvz.
  assert (Hsx : PySet.mem x (rec_stack st) = false)
    by (apply mem_false_iff; auto).
  assert (Hsy : PySet.mem y (rec_stack st) = false)
    by (apply mem_false_iff; auto).
  assert (Hsz : PySet.mem z (rec_stack st) = false)
    by (apply mem_false_iff; auto).
  apply mem_false_iff in Hvx, Hvy, Hvz.
  destruct fuel as [| f1]; [discriminate |].
  rewrite cycle_dfs_unfold, Hsx, Hvx, Hx. simpl fold_opt.
  destruct (cycle_dfs f1 g _ y (path ++ [x])) as [st2 |] eqn:E2;
    [| discriminate].
  intros [= <-]. simpl cycles.
  destruct f1 as [| f2]; [discriminate |].
  rewrite cycle_dfs_unfold in E2. simpl rec_stack in E2. simpl visited in E2.
  simpl cycles in E2. rewrite !mem_add in E2.
  destruct (String.eqb_spec y x) as [Eyx | Nyx].
  { (* a single node with an edge to itself *)
    subst y. rewrite Hx in Hy. injection Hy as <-. simpl in E2.
    destruct (index x (path ++ [x])) as [i |]; [| discriminate].
    injection E2 as <-. simpl.
    exists (skipn i (path ++ [x]) ++ [x]).
    assert (In x (skipn i (path ++ [x]) ++ [x]))
      by (apply in_or_app; right; now left).
    split; [apply in_or_app; right; now left | auto]. }
  rewrite Hsy, Hvy, Hy in E2. simpl in E2.
  destruct (cycle_dfs f2 g _ z ((path ++ [x]) ++ [y])) as [st3 |] eqn:E3;
    [| discriminate].
  injection E2 as <-. simpl cycles.
  assert (Nzx : z <> x).
  { intros ->. rewrite Hx in Hz. injection Hz as ->. now apply Nyx. }
  assert (Nzy : z <> y).
  { intros ->. rewrite Hy in Hz. injection Hz as ->. now apply Nyx. }
  destruct f2 as [| f3]; [discriminate |].
  rewrite cycle_dfs_unfold in E3. simpl rec_stack in E3. simpl visited in E3.
  simpl cycles in E3. rewrite !mem_add, Hsz, Hvz, Hz in E3.
  destruct (String.eqb_spec z y) as [| _]; [contradiction |].
  destruct (String.eqb_spec z x) as [| _]; [contradiction |].
  simpl in E3.
  destruct (cycle_dfs f3 g _ x (((path ++ [x]) ++ [y]) ++ [z]))
    as [st4 |] eqn:E4; [| discriminate].
  injection E3 as <-. simpl cycles.
  destruct f3 as [| f4]; [discriminate |].
  rewrite cycle_dfs_unfold in E4. simpl rec_stack in E4.
  rewrite !mem_add, String.eqb_refl in E4.
  destruct (String.eqb x z); simpl in E4;
    (destruct (String.eqb x y); simpl in E4);
    (destruct (index x (((path ++ [x]) ++ [y]) ++ [z])) as [i |] eqn:Ei;
     [| discriminate]);
    injection E4 as <-; simpl cycles;
    exists (skipn i (((path ++ [x]) ++ [y]) ++ [z]) ++ [x]);
    (split; [apply in_or_app; right; now left |]);
    rewrite <- !app_assoc in *; simpl in *;
    apply index_app_bound in Ei;
    rewrite (skipn_app_le path [x; y; z] i Ei);
    rewrite !in_app_iff; simpl; tauto.
Qed.

Variables a b c : string.
Hypothesis Ha : adj g a = [b].
Hypothesis Hb : adj g b = [c].
Hypothesis Hc : adj g c = [a].

Lemma cycle_through_rotate x y z found :
  cycle_through x y z found -> cycle_through y z x found.
Proof.
  intros (cyc & H1 & H2 & H3 & H4). exists cyc. tauto.
Qed.

Lemma cycle_dfs_pending fuel :
  forall st node path st',
    (forall w, In w (rec_stack st) -> In w (visited st)) ->
    cycle_pending a b c st ->
    cycle_dfs fuel g st node path = Some st' ->
    cycle_pending a b c st'.
Proof.
  induction fuel as [| fuel IH]; intros st node path st' Hstack Hpend Hcall;
    [discriminate |].
  destruct (cycle_dfs_frame _ _ _ _ _ _ Hcall) as (F1 & F2 & F3).
  destruct Hpend as [(Hva & Hvb & Hvc) | (cyc & Hin & Hcyc)];
    [| right; exists cyc; split; [now apply F3 | assumption]].
  destruct (string_dec node a) as [-> | Na].
  { right. eapply (cycle_entry a b c); eauto. }
  destruct (string_dec node b) as [-> | Nb].
  { right. apply cycle_through_rotate, cycle_through_rotate.
    eapply (cycle_entry b c a); eauto. }
  destruct (string_dec node c) as [-> | Nc].
  { right. apply cycle_through_rotate. eapply (cycle_entry c a b); eauto. }
  rewrite cycle_dfs_unfold in Hcall.
  destruct (PySet.mem node (rec_stack st)).
  { destruct (index node path); [| discriminate]. injection Hcall as <-.
    left. simpl. auto. }
  destruct (PySet.mem node (visited st)).
  { injection Hcall as <-. left. auto. }
  destruct (fold_opt _ _ _) as [st2 |] eqn:Hfold; [| discriminate].
  injection Hcall as <-.
  apply (fold_opt_preserves _
           (fun s => (forall w, In w (rec_stack s) -> In w (visited s))
                     /\ cycle_pending a b c s)) in Hfold.
  - destruct Hfold as [_ [Hleft | Hright]]; [left | right]; assumption.
  - intros s dep s' _ [Hs1 Hs2] Hdep. split; [| eapply IH; eauto].
    destruct (cycle_dfs_frame _ _ _ _ _ _ Hdep) as (G1 & G2 & _).
    intros w Hw. apply G2, Hs1, G1, Hw.
  - split; cbn [visited rec_stack].
    + intros w Hw. apply In_add in Hw. apply In_add.
      destruct Hw; [now left | right; auto].
    + left. cbn [visited]. rewrite !In_add.
      repeat split; intros [E | E]; auto.
Qed.

Lemma detect_loop_pending fuel l :
  forall st st',
    incl (rec_stack st) [] ->
    cycle_pending a b c st ->
    fold_opt
      (fun st node =>
         if PySet.mem node (visited st) then Some st
         else cycle_dfs fuel g st node []) l st = Some st' ->
    cycle_pending a b c st'.
Proof.
  intros st st' Hrs Hpend Hfold.
  apply (fold_opt_preserves _
           (fun s => incl (rec_stack s) [] /\ cycle_pending a b c s))
    in Hfold; [tauto | | tauto].
  intros s k s' _ [Hs1 Hs2] Hstep.
  destruct (PySet.mem k (visited s)); [injection Hstep as <-; tauto |].
  split.
  - destruct (cycle_dfs_frame _ _ _ _ _ _ Hstep) as (G1 & _).
    eapply incl_tran; eauto.
  - eapply cycle_dfs_pending; eauto. intros w Hw. destruct (Hs1 w Hw).
Qed.

End CycleOfThree.



(** *** A cycle in the graph is never missed altogether *)

Lemma cycle_dfs_stack_kept g fuel :
  forall st node path st',
    cycle_dfs fuel g st node path = Some st' ->
    incl (rec_stack st) (rec_stack st').
Proof.
  induction fuel as [| fuel IH]; intros st node path st'; [discriminate |].
  rewrite cycle_dfs_unfold.
  destruct (PySet.mem node (rec_stack st)) eqn:Hstack.
  { destruct (index node path); [| discriminate]. intros [= <-].
    apply incl_refl. }
  destruct (PySet.mem node (visited st)).
  { intros [= <-]. apply incl_refl. }
  destruct (fold_opt _ _ _) as [st2 |] eqn:Hfold; [| discriminate].
  intros [= <-]. simpl.
  apply (fold_opt_preserves _
           (fun s => incl (PySet.add node (rec_stack st)) (rec_stack s)))
    in Hfold.
  - intros x Hx. apply In_remove. split.
    + intros ->. apply mem_false_iff in Hstack. contradiction.
    + apply Hfold, In_add. now right.
  - intros s dep s' _ Hs Hcall. eapply incl_tran; [exact Hs |].
    eapply IH; eauto.
  - apply incl_refl.
Qed.

Lemma incl_nil_eq {A : Type} (l : list A) : incl l [] -> l = [].
Proof.
  destruct l as [| x l]; [reflexivity |].
  intros H. destruct (H x (or_introl eq_refl)).
Qed.

Section FinishedOrder.

Variable g : PyDict.t PySet.t.

Lemma cycle_dfs_finished fuel :
  forall st node path st' fin,
    (forall w, In w (rec_stack st) -> In w (visited st)) ->
    finished_order g st fin ->
    cycle_dfs fuel g st node path = Some st' ->
    exists extra,
      finished_order g st' (fin ++ extra) /\
      (cycles st' = [] -> In node (fin ++ extra)).
Proof.
  induction fuel as [| fuel IH]; intros st node path st' fin Hstack Hfin;
    [discriminate |].
  rewrite cycle_dfs_unfold.
  destruct (PySet.mem node (rec_stack st)) eqn:Hnode_stack.
  { destruct (index node path); [| discriminate]. intros [= <-].
    exists []. split; intros Hnil; simpl in Hnil;
      apply app_eq_nil in Hnil; destruct Hnil; discriminate. }
  destruct (PySet.mem node (visited st)) eqn:Hnode_vis.
  { intros [= <-]. exists []. rewrite app_nil_r. split; [assumption |].
    intros Hnil. apply (Hfin Hnil). split.
    - now apply mem_true_iff.
    - now apply mem_false_iff. }
  apply mem_false_iff in Hnode_stack, Hnode_vis.
  set (st1 := mkDfs (PySet.add node (visited st))
                    (PySet.add node (rec_stack st)) (cycles st)).
  assert (Hloop : forall l s s' fin_s,
            (forall w, In w (rec_stack s) -> In w (visited s)) ->
            finished_order g s fin_s ->
            fold_opt (fun st dep => cycle_dfs fuel g st dep (path ++ [node]))
                     l s = Some s' ->
            exists extra,
              finished_order g s' (fin_s ++ extra) /\
              (cycles s' = [] -> forall v, In v l -> In v (fin_s ++ extra)) /\
              dfs_frame s s' /\ incl (rec_stack s) (rec_stack s')).
  { induction l as [| v l IHl]; intros s s' fin_s Hs Hfs; simpl.
    - intros [= <-]. exists []. rewrite app_nil_r.
      split; [assumption |]. split; [intros _ v [] |].
      split; [apply dfs_frame_refl | apply incl_refl].
    - destruct (cycle_dfs fuel g s v (path ++ [node])) as [s1 |] eqn:Hcall;
        [| discriminate].
      intros Hfold.
      destruct (IH _ _ _ _ _ Hs Hfs Hcall) as (extra1 & Hf1 & Hv1).
      pose proof (cycle_dfs_frame _ _ _ _ _ _ Hcall) as Hframe1.
      pose proof (cycle_dfs_stack_kept _ _ _ _ _ _ Hcall) as Hkept1.
      assert (Hs1 : forall w, In w (rec_stack s1) -> In w (visited s1)).
      { destruct Hframe1 as (G1 & G2 & _). intros w Hw.
        apply G2, Hs, G1, Hw. }
      destruct (IHl _ _ _ Hs1 Hf1 Hfold)
        as (extra2 & Hf2 & Hv2 & Hframe2 & Hkept2).
      exists (extra1 ++ extra2). rewrite app_assoc.
      split; [assumption |]. split; [| split].
      + intros Hnil x [<- | Hx]; [| now apply Hv2].
        apply in_or_app. left. apply Hv1.
        destruct Hframe2 as (_ & _ & G3). rewrite Hnil in G3.
        now apply incl_nil_eq.
      + eapply dfs_frame_trans; eauto.
      + eapply incl_tran; eauto. }
  destruct (fold_opt _ _ st1) as [st2 |] eqn:Hfold; [| discriminate].
  intros [= <-].
  destruct (Hloop (adj g node) st1 st2 fin) as
    (extra & Hf2 & Hchildren & (_ & F2 & F3) & Hkept); try assumption.
  { subst st1. simpl. intros w Hw. apply In_add in Hw. apply In_add.
    destruct Hw; [now left | right; auto]. }
  { intros Hnil. destruct (Hfin Hnil) as [Hset Hedges]. split; [| assumption].
    intros u. rewrite Hset. subst st1. simpl. rewrite !In_add. split.
    - intros [Hu Hnu]. split; [now right |].
      intros [-> | H]; contradiction.
    - intros [[-> | Hu] Hnu].
      + elim Hnu. now left.
      + split; [assumption |]. intros H. apply Hnu. now right. }
  assert (Hnode_vis2 : In node (visited st2)).
  { apply F2. subst st1. simpl. apply In_add. now left. }
  assert (Hnode_stack2 : In node (rec_stack st2)).
  { apply Hkept. subst st1. simpl. apply In_add. now left. }
  exists (extra ++ [node]). rewrite app_assoc.
  split; [| intros _; apply in_or_app; right; now left].
  intros Hnil. simpl in Hnil. destruct (Hf2 Hnil) as [Hset Hedges].
  assert (Hfresh : ~ In node (fin ++ extra)).
  { intros H. apply Hset in H. tauto. }
  split.
  - intros u. simpl. rewrite in_app_iff, Hset, In_remove. simpl.
    destruct (string_dec u node) as [-> | Hu].
    + split; [intros _ | intros _; right; now left].
      split; [assumption |]. intros [H _]. now apply H.
    + split.
      * intros [[Hv Hs] | [E | []]]; [| congruence].
        split; [assumption |]. intros [_ H]. now apply Hs.
      * intros [Hv Hs]. left. split; [assumption |].
        intros H. apply Hs. now split.
  - intros u v Hu Hedge. apply in_app_or in Hu.
    destruct Hu as [Hu | [<- | []]].
    + apply before_app. now apply Hedges.
    + specialize (Hchildren Hnil v Hedge).
      destruct (index_In _ _ Hchildren) as [i Hi].
      exists i, (List.length (fin ++ extra)).
      split; [now apply index_app_l |].
      split; [now apply index_app_fresh |]. now apply index_Some in Hi.
Qed.

Lemma detect_loop_finished fuel l :
  forall st st' fin,
    incl (rec_stack st) [] ->
    finished_order g st fin ->
    fold_opt
      (fun st node =>
         if PySet.mem node (visited st) then Some st
         else cycle_dfs fuel g st node []) l st = Some st' ->
    exists extra, finished_order g st' (fin ++ extra).
Proof.
  induction l as [| k l IH]; intros st st' fin Hrs Hfin; simpl.
  - intros [= <-]. exists []. now rewrite app_nil_r.
  - destruct (PySet.mem k (visited st)); [now apply IH |].
    destruct (cycle_dfs fuel g st k []) as [st1 |] eqn:Hcall;
      [| discriminate].
    intros Hfold.
    destruct (cycle_dfs_finished _ _ _ _ _ fin
                (fun w Hw => match Hrs w Hw with end) Hfin Hcall)
      as (extra1 & Hf1 & _).
    destruct (cycle_dfs_frame _ _ _ _ _ _ Hcall) as (G1 & _).
    destruct (IH st1 st' (fin ++ extra1)) as (extra2 & Hf2);
      [eapply incl_tran; eauto | assumption | assumption |].
    exists (extra1 ++ extra2). now rewrite app_assoc.
Qed.

End FinishedOrder.

Lemma detect_cycles_nonempty self a b c found :
  has_edge (graph self) a b ->
  has_edge (graph self) b c ->
  has_edge (graph self) c a ->
  detect_cycles self = Some found ->
  found <> [].
Proof.
  intros Hab Hbc Hca. unfold detect_cycles.
  destruct (fold_opt _ _ _) as [st |] eqn:Hfold; [| discriminate].
  intros [= <-] Hnil.
  assert (Hinit : finished_order (graph self)
                    (mkDfs PySet.empty PySet.empty []) []).
  { intros _. split.
    - intros u. simpl. tauto.
    - intros u v []. }
  assert (Hempty : incl (rec_stack (mkDfs PySet.empty PySet.empty [])) [])
    by (intros x []).
  destruct (detect_loop_finished (graph self) _ _ _ _ [] Hempty Hinit Hfold)
    as (fin & Hfin).
  apply detect_loop in Hfold; [| intros x []].
  destruct Hfold as (Hrs & _ & _ & Hall).
  destruct (Hfin Hnil) as [Hset Hedges]. simpl in Hset, Hedges.
  assert (Hkey : forall u v, has_edge (graph self) u v -> In u fin).
  { intros u v He. apply Hset. split; [apply Hall; now apply (adj_key _ u v) |].
    intros H. exact (Hrs u H). }
  apply (before_irrefl_cycle3 fin a c b).
  - apply (Hedges c a); eauto.
  - apply (Hedges b c); eauto.
  - apply (Hedges a b); eauto.
Qed.

(** C8 as amended: on a graph with edges a -> b -> c -> a,
    [topological_sort] returns a sequence that is shorter than the number
    of nodes and holds none of a, b, c; [detect_cycles] returns and reports
    at least one cycle; and when a, b and c have no other outgoing edge,
    one of the reported cycles goes through all three. *)
Theorem cycle_reported self a b c :
  well_formed (graph self) ->
  has_edge (graph self) a b ->
  has_edge (graph self) b c ->
  has_edge (graph self) c a ->
  (exists order,
     topological_sort self = Some order /\
     List.length order < List.length (PyDict.keys (graph self)) /\
     ~ In a order /\ ~ In b order /\ ~ In c order) /\
  (exists found,
     detect_cycles self = Some found /\
     found <> [] /\
     (adj (graph self) a = [b] -> adj (graph self) b = [c] ->
      adj (graph self) c = [a] -> cycle_through a b c found)).
Proof.
  intros Hwf Hab Hbc Hca. split.
  - exact (topological_sort_skips_cycle self a b c Hwf Hab Hbc Hca).
  - destruct (detect_cycles_total self Hwf) as [found Hfound].
    exists found. split; [assumption |].
    split; [exact (detect_cycles_nonempty self a b c found Hab Hbc Hca Hfound) |].
    intros Ha Hb Hc.
    unfold detect_cycles in Hfound.
    destruct (fold_opt _ _ _) as [st |] eqn:Hfold; [| discriminate].
    injection Hfound as <-.
    assert (Hpend : cycle_pending a b c st).
    { eapply (detect_loop_pending (graph self) a b c Ha Hb Hc);
        [| | exact Hfold].
      - intros x [].
      - left. simpl. tauto. }
    apply detect_loop in Hfold; [| intros x []].
    destruct Hfold as (_ & _ & _ & Hall).
    destruct Hpend as [(Hva & _) | Hthrough]; [| assumption].
    exfalso. apply Hva, Hall. now apply (adj_key _ a b).
Qed.

(** ** Module resolution *)

Lemma find_app {A : Type} (f : A -> bool) l1 l2 :
  find f (l1 ++ l2) =
  match find f l1 with Some x => Some x | None => find f l2 end.
Proof.
  induction l1 as [| x l1 IH]; simpl; [reflexivity |].
  now destruct (f x).
Qed.

Lemma find_flat_map_cons {A B : Type} (f : B -> bool) (F : A -> list B) a l :
  find f (flat_map F (a :: l)) =
  match find f (F a) with Some x => Some x | None => find f (flat_map F l) end.
Proof. simpl. apply find_app. Qed.

Section ResolverFacts.

Variable path_exists : string -> bool.

Lemma try_extensions_find base_path path_parts exts :
  try_extensions path_exists base_path path_parts exts =
  find path_exists
    (flat_map
       (fun ext => [method1_path base_path path_parts ext;
                    method2_path base_path path_parts ext]) exts).
Proof.
  induction exts as [| ext exts IH]; simpl; [reflexivity |].
  destruct (path_exists (method1_path base_path path_parts ext));
    [reflexivity |].
  destruct (path_exists (method2_path base_path path_parts ext));
    [reflexivity | assumption].
Qed.

(** What the code does: it returns the first existing path among the
    probed ones, and these hold two shapes for every base directory and
    extension. *)
Lemma resolve_first_probed base_paths module_name :
  resolve_module_to_path path_exists base_paths module_name =
  find path_exists (probed_paths base_paths module_name).
Proof.
  unfold resolve_module_to_path, probed_paths.
  induction base_paths as [| base_path bases IH]; [reflexivity |].
  rewrite find_flat_map_cons, <- try_extensions_find, <- IH. reflexivity.
Qed.

End ResolverFacts.

(** C4 does not hold of the code: under the base directory root and for
    the module a.b.c, a file named lua inside the directory root/a/b/c is
    returned, although it is not the base directory joined with the name
    segments and an extension, and no such candidate exists. *)
Theorem resolve_returns_directory_entry :
  resolve_module_to_path only_directory_entry ["root"] "a.b.c"
    = Some "root/a/b/c/lua" /\
  documented_resolve only_directory_entry ["root"] "a.b.c" = None /\
  ~ In "root/a/b/c/lua" (documented_candidates ["root"] "a.b.c").
Proof.
  split; [reflexivity |]. split; [reflexivity |].
  simpl. intros H. repeat (destruct H as [H | H]; [discriminate |]). exact H.
Qed.

(** ** Reference extraction *)

Lemma text_eqb_eq a b : text_eqb a b = true <-> a = b.
Proof.
  revert b. induction a as [| x a IH]; intros [| y b]; simpl;
    try (split; [discriminate | discriminate]); [tauto |].
  rewrite andb_true_iff, N.eqb_eq, IH. split.
  - intros [-> ->]. reflexivity.
  - intros [= -> ->]. auto.
Qed.

Lemma existsb_text_eqb x l : existsb (text_eqb x) l = true <-> In x l.
Proof.
  rewrite existsb_exists. split.
  - intros (y & Hy & E). apply text_eqb_eq in E. now subst.
  - intros H. exists x. split; [assumption | now apply text_eqb_eq].
Qed.

Lemma list_set_In l x : In x (list_set l) <-> In x l.
Proof.
  induction l as [| y l IH]; simpl; [tauto |].
  destruct (existsb (text_eqb y) l) eqn:E.
  - apply existsb_text_eqb in E. rewrite IH. split; [auto |].
    intros [<- | H]; assumption.
  - simpl. rewrite IH. tauto.
Qed.

Lemma list_set_NoDup l : NoDup (list_set l).
Proof.
  induction l as [| y l IH]; simpl; [constructor |].
  destruct (existsb (text_eqb y) l) eqn:E; [assumption |].
  constructor; [| assumption].
  rewrite list_set_In, <- existsb_text_eqb, E. discriminate.
Qed.

(** After a match the scan resumes behind it. *)
Lemma findall_skip pattern (p rest : text) :
  findall_from pattern (List.length p) (p ++ rest) =
  findall_from pattern 0 rest.
Proof.
  induction p as [| c p IH]; simpl; [| assumption].
  destruct rest; reflexivity.
Qed.

Lemma findall_match pattern c (p rest : text) group :
  pattern (c :: p ++ rest) = Some (group, rest) ->
  findall_from pattern 0 (c :: p ++ rest) =
  group :: findall_from pattern 0 rest.
Proof.
  intros H. cbn [findall_from]. rewrite H. f_equal.
  assert (E : List.length (c :: p ++ rest) - List.length rest - 1
               = List.length p)
    by (cbn [List.length]; rewrite length_app; lia).
  rewrite E. apply findall_skip.
Qed.

Lemma match_literal_plain c rest :
  c <> 114%N -> match_literal (text_of_string "require") (c :: rest) = None.
Proof.
  intros H.
  change (text_of_string "require") with (114%N :: text_of_string "equire").
  cbn [match_literal].
  destruct (N.eqb_spec 114 c); [congruence | reflexivity].
Qed.

Lemma findall_plain pattern t rest :
  (forall c s, c <> 114%N -> pattern (c :: s) = None) ->
  plain t ->
  findall_from pattern 0 (t ++ rest) = findall_from pattern 0 rest.
Proof.
  intros Hpat Ht. induction Ht as [| c t Hc Ht IH]; simpl; [reflexivity |].
  now rewrite (Hpat c (t ++ rest) Hc).
Qed.

Lemma match_call_plain c s : c <> 114%N -> match_call (c :: s) = None.
Proof.
  intros H. unfold match_call. now rewrite match_literal_plain.
Qed.

Lemma match_bare_plain c s : c <> 114%N -> match_bare (c :: s) = None.
Proof.
  intros H. unfold match_bare. now rewrite match_literal_plain.
Qed.

Lemma findall_call_in_call rest :
  findall_from match_call 0 (call_text ++ rest) =
  name_xy :: findall_from match_call 0 rest.
Proof.
  exact (findall_match match_call 114%N
           (List.tl call_text) rest name_xy eq_refl).
Qed.

Lemma findall_bare_in_bare rest :
  findall_from match_bare 0 (bare_text ++ rest) =
  name_z :: findall_from match_bare 0 rest.
Proof.
  exact (findall_match match_bare 114%N
           (List.tl bare_text) rest name_z eq_refl).
Qed.

Lemma findall_call_in_bare rest :
  findall_from match_call 0 (bare_text ++ rest) =
  findall_from match_call 0 rest.
Proof. destruct rest; reflexivity. Qed.

Lemma findall_bare_in_call rest :
  findall_from match_bare 0 (call_text ++ rest) =
  findall_from match_bare 0 rest.
Proof. destruct rest; reflexivity. Qed.

Section Pieces.

Variable pieces : list piece.
Hypothesis fillers_plain : forall t, In (Filler t) pieces -> plain t.

Lemma findall_call_render m :
  In m (findall match_call (render pieces)) <->
  m = name_xy /\ In Call pieces.
Proof.
  unfold findall, render. revert fillers_plain.
  induction pieces as [| p ps IH]; intros Hplain; simpl flat_map.
  - simpl. tauto.
  - assert (IH' := IH (fun t H => Hplain t (or_intror H))).
    destruct p as [t | |]; simpl render_piece.
    + rewrite findall_plain;
        [| exact match_call_plain | apply Hplain; now left].
      rewrite IH'. simpl. intuition discriminate.
    + rewrite findall_call_in_call. simpl. rewrite IH'. intuition.
    + rewrite findall_call_in_bare, IH'. simpl. intuition discriminate.
Qed.

Lemma findall_bare_render m :
  In m (findall match_bare (render pieces)) <->
  m = name_z /\ In Bare pieces.
Proof.
  unfold findall, render. revert fillers_plain.
  induction pieces as [| p ps IH]; intros Hplain; simpl flat_map.
  - simpl. tauto.
  - assert (IH' := IH (fun t H => Hplain t (or_intror H))).
    destruct p as [t | |]; simpl render_piece.
    + rewrite findall_plain;
        [| exact match_bare_plain | apply Hplain; now left].
      rewrite IH'. simpl. intuition discriminate.
    + rewrite findall_bare_in_call, IH'. simpl. intuition discriminate.
    + rewrite findall_bare_in_bare. simpl. rewrite IH'. intuition.
Qed.

End Pieces.

(** C9: on a file whose text holds the parenthesized reference to x.y and
    the bare reference to z, each once or more, among text with no other
    reference, [get_module_dependencies] returns the two names x.y and z,
    each exactly once. *)
Theorem references_of_both_forms read_file file_path pieces :
  read_file file_path = Some (render pieces) ->
  (forall t, In (Filler t) pieces -> plain t) ->
  In Call pieces ->
  In Bare pieces ->
  NoDup (get_module_dependencies read_file file_path) /\
  (forall m, In m (get_module_dependencies read_file file_path) <->
             m = name_xy \/ m = name_z).
Proof.
  intros Hread Hplain Hcall Hbare. unfold get_module_dependencies.
  rewrite Hread. unfold extract_references. split; [apply list_set_NoDup |].
  intros m. rewrite list_set_In, in_app_iff.
  rewrite (findall_call_render pieces Hplain),
          (findall_bare_render pieces Hplain).
  tauto.
Qed.

(** ** Transitive dependencies *)

Lemma reaches_snoc g u v w : reaches g u v -> has_edge g v w -> reaches g u w.
Proof.
  intros H. induction H as [u v He | u v x He _ IH]; intros Hw.
  - eapply reaches_step; [exact He | now apply reaches_edge].
  - eapply reaches_step; [exact He | now apply IH].
Qed.

Lemma reaches_trans g u v w : reaches g u v -> reaches g v w -> reaches g u w.
Proof.
  intros H. induction H as [u v He | u v x He _ IH]; intros Hw.
  - eapply reaches_step; eauto.
  - eapply reaches_step; [exact He | now apply IH].
Qed.

Lemma closure_dfs_unfold fuel r st node :
  closure_dfs (S fuel) r st node =
  if PySet.mem node (fst st) then Some st
  else
    fold_opt
      (fun st dep => closure_dfs fuel r (fst st, PySet.add dep (snd st)) dep)
      (adj r node) (PySet.add node (fst st), snd st).
Proof. reflexivity. Qed.

Lemma closure_dfs_frame r fuel :
  forall (st : PySet.t * PySet.t) node (st' : PySet.t * PySet.t),
    closure_dfs fuel r st node = Some st' ->
    incl (fst st) (fst st') /\ incl (snd st) (snd st').
Proof.
  induction fuel as [| fuel IH]; intros st node st'; [discriminate |].
  rewrite closure_dfs_unfold.
  destruct (PySet.mem node (fst st)).
  { intros [= <-]. split; apply incl_refl. }
  intros Hfold.
  apply (fold_opt_preserves _
           (fun s => incl (fst st) (fst s) /\ incl (snd st) (snd s)))
    in Hfold; [assumption | |].
  - intros s dep s' _ [H1 H2] Hcall. apply IH in Hcall. simpl in Hcall.
    destruct Hcall as [G1 G2]. split.
    + eapply incl_tran; eauto.
    + eapply incl_tran; [exact H2 |]. eapply incl_tran; [| exact G2].
      intros x Hx. apply In_add. now right.
  - simpl. split; [| apply incl_refl]. intros x Hx. apply In_add. now right.
Qed.

(** The search returns whatever the shape of the graph. *)
Lemma closure_dfs_total r :
  forall fuel (st : PySet.t * PySet.t) node,
    0 < fuel ->
    (In node (PyDict.keys r) ->
     List.length (unvisited r (mkDfs (fst st) [] [])) < fuel) ->
    exists st', closure_dfs fuel r st node = Some st'.
Proof.
  intros fuel. induction fuel as [| fuel IH]; intros st node Hpos Hfuel; [lia |].
  rewrite closure_dfs_unfold.
  destruct (PySet.mem node (fst st)) eqn:Hvis; [eauto |].
  apply mem_false_iff in Hvis.
  destruct (in_dec string_dec node (PyDict.keys r)) as [Hkey | Hkey].
  - pose proof (unvisited_visit r (mkDfs (fst st) [] []) node [] [] Hkey Hvis)
      as Hless.
    simpl in Hless. specialize (Hfuel Hkey).
    destruct (fold_opt_total
                (fun st dep =>
                   closure_dfs fuel r (fst st, PySet.add dep (snd st)) dep)
                (fun s => List.length (unvisited r (mkDfs (fst s) [] [])) < fuel)
                (adj r node))
      with (a := (PySet.add node (fst st), snd st)) as (st2 & Hst2 & _).
    + intros s dep _ Hs.
      destruct (IH (fst s, PySet.add dep (snd s)) dep) as [s' Hs'];
        [lia | intros _; exact Hs |].
      exists s'. split; [assumption |].
      apply closure_dfs_frame in Hs'. simpl in Hs'. destruct Hs' as [G1 _].
      pose proof (unvisited_mono r (mkDfs (fst s) [] []) (mkDfs (fst s') [] [])
                    G1).
      lia.
    + simpl. lia.
    + eauto.
  - unfold adj, PyDict.get_default. rewrite (get_not_key r node Hkey).
    simpl. eauto.
Qed.

Section Closure.

Variable r : PyDict.t PySet.t.
Variable start : string.

(** Only paths reached from [start] are collected. *)
Lemma closure_dfs_sound fuel :
  forall (st : PySet.t * PySet.t) node (st' : PySet.t * PySet.t),
    (node = start \/ reaches r start node) ->
    (forall v, In v (snd st) -> reaches r start v) ->
    closure_dfs fuel r st node = Some st' ->
    forall v, In v (snd st') -> reaches r start v.
Proof.
  induction fuel as [| fuel IH]; intros st node st' Hnode Hst; [discriminate |].
  rewrite closure_dfs_unfold.
  destruct (PySet.mem node (fst st));
    [intros E; injection E as E; now subst st' |].
  intros Hfold.
  eapply (fold_opt_preserves _
            (fun s => forall v, In v (snd s) -> reaches r start v));
    [| | exact Hfold]; [| exact Hst].
  intros s dep s' Hdep Hs Hcall.
  assert (Hreach : reaches r start dep).
  { destruct Hnode as [-> | Hnode].
    - now apply reaches_edge.
    - eapply reaches_snoc; eauto. }
  eapply IH; [right; exact Hreach | | exact Hcall].
  simpl. intros v Hv. apply In_add in Hv. destruct Hv as [-> | Hv]; auto.
Qed.

(** Once a call is over, every visited node outside [open] (the callers
    still at work) has all its dependencies visited and collected. *)
Lemma closure_dfs_complete fuel :
  forall (st : PySet.t * PySet.t) node (st' : PySet.t * PySet.t)
         (open : list string),
    (forall u, In u (fst st) -> ~ In u open ->
               forall v, has_edge r u v -> In v (fst st) /\ In v (snd st)) ->
    closure_dfs fuel r st node = Some st' ->
    In node (fst st') /\
    (forall u, In u (fst st') -> ~ In u open ->
               forall v, has_edge r u v -> In v (fst st') /\ In v (snd st')).
Proof.
  induction fuel as [| fuel IH]; intros st node st' open Hst; [discriminate |].
  rewrite closure_dfs_unfold.
  destruct (PySet.mem node (fst st)) eqn:Hvis.
  { intros [= <-]. split; [now apply mem_true_iff | assumption]. }
  intros Hfold.
  assert (Hloop : forall l (s s' : PySet.t * PySet.t),
            (forall u, In u (fst s) -> ~ In u (node :: open) ->
                       forall v, has_edge r u v ->
                                 In v (fst s) /\ In v (snd s)) ->
            fold_opt
              (fun st dep =>
                 closure_dfs fuel r (fst st, PySet.add dep (snd st)) dep)
              l s = Some s' ->
            incl (fst s) (fst s') /\ incl (snd s) (snd s') /\
            (forall v, In v l -> In v (fst s') /\ In v (snd s')) /\
            (forall u, In u (fst s') -> ~ In u (node :: open) ->
                       forall v, has_edge r u v ->
                                 In v (fst s') /\ In v (snd s'))).
  { induction l as [| dep l IHl]; intros s s' Hs; simpl.
    - intros [= <-]. repeat split; try apply incl_refl; try apply Hs; auto.
      + destruct H.
      + destruct H.
      + eapply Hs; eauto.
      + eapply Hs; eauto.
    - destruct (closure_dfs fuel r (fst s, PySet.add dep (snd s)) dep)
        as [s1 |] eqn:Hcall; [| discriminate].
      intros Hrest.
      pose proof (closure_dfs_frame _ _ _ _ _ Hcall) as [G1 G2].
      simpl in G1, G2.
      assert (Hpre : forall u, In u (fst (fst s, PySet.add dep (snd s))) ->
                        ~ In u (node :: open) ->
                        forall v, has_edge r u v ->
                          In v (fst (fst s, PySet.add dep (snd s))) /\
                          In v (snd (fst s, PySet.add dep (snd s)))).
      { simpl fst. simpl snd. intros u Hu Hno v He.
        destruct (Hs u Hu Hno v He) as [A B].
        split; [assumption | apply In_add; now right]. }
      destruct (IH _ _ _ (node :: open) Hpre Hcall) as [Hdep1 Hclosed1].
      destruct (IHl s1 s' Hclosed1 Hrest) as (F1 & F2 & Hall & Hclosed).
      split; [eapply incl_tran; eauto |].
      split.
      { eapply incl_tran; [| exact F2]. eapply incl_tran; [| exact G2].
        intros x Hx. apply In_add. now right. }
      split; [| assumption].
      intros v [<- | Hv]; [| now apply Hall]. split.
      + now apply F1.
      + apply F2, G2, In_add. now left. }
  destruct (Hloop (adj r node) (PySet.add node (fst st), snd st) st')
    as (F1 & F2 & Hall & Hclosed); [| exact Hfold |].
  { simpl. intros u Hu Hno v He. apply In_add in Hu.
    destruct Hu as [-> | Hu]; [elim Hno; now left |].
    destruct (Hst u Hu (fun H => Hno (or_intror H)) v He) as [A B].
    split; [apply In_add; now right | assumption]. }
  split.
  - apply F1. simpl. apply In_add. now left.
  - intros u Hu Hno v He.
    destruct (string_dec u node) as [-> | Hneq].
    + now apply Hall.
    + apply (Hclosed u); [assumption | | assumption].
      intros [E | H]; [congruence | contradiction].
Qed.

Lemma closure_dfs_NoDup fuel :
  forall (st : PySet.t * PySet.t) node (st' : PySet.t * PySet.t),
    NoDup (snd st) -> closure_dfs fuel r st node = Some st' -> NoDup (snd st').
Proof.
  induction fuel as [| fuel IH]; intros st node st' Hst; [discriminate |].
  rewrite closure_dfs_unfold.
  destruct (PySet.mem node (fst st));
    [intros E; injection E as E; now subst st' |].
  intros Hfold.
  apply (fold_opt_preserves _ (fun s => NoDup (snd s))) in Hfold;
    [assumption | | assumption].
  intros s dep s' _ Hs Hcall. eapply IH; [| exact Hcall].
  simpl. now apply add_NoDup.
Qed.

End Closure.

Section ClosureFacts.

Variable resolve : string -> string.

Lemma get_all_dependencies_spec self file_path :
  exists deps,
    get_all_dependencies resolve self file_path = Some deps /\
    NoDup deps /\
    forall v, In v deps <->
              reaches (reverse_graph self) (resolve file_path) v.
Proof.
  unfold get_all_dependencies.
  destruct (closure_dfs_total (reverse_graph self)
              (S (List.length (reverse_graph self)
                  + edge_count (reverse_graph self)))
              (PySet.empty, PySet.empty) (resolve file_path))
    as [st Hst].
  { lia. }
  { intros _.
    pose proof (unvisited_bound (reverse_graph self)
                  (mkDfs PySet.empty [] [])).
    simpl. lia. }
  rewrite Hst. exists (snd st). split; [reflexivity |].
  split; [eapply closure_dfs_NoDup; [| exact Hst]; constructor |].
  intros v. split.
  - eapply closure_dfs_sound; [left; reflexivity | | exact Hst].
    intros x [].
  - assert (Hpre : forall u,
              In u (fst (PySet.empty, PySet.empty)) -> ~ In u [] ->
              forall w, has_edge (reverse_graph self) u w ->
                In w (fst (PySet.empty, PySet.empty)) /\
                In w (snd (PySet.empty, PySet.empty)))
      by (intros u []).
    destruct (closure_dfs_complete (reverse_graph self) _ _ _ _ [] Hpre Hst)
      as [Hstart Hclosed].
    assert (Hall : forall u w, reaches (reverse_graph self) u w ->
                               In u (fst st) -> In w (fst st) /\ In w (snd st)).
    { intros u w Hr. induction Hr as [u w He | u w x He _ IH]; intros Hu.
      - apply (Hclosed u Hu (fun H => H) w He).
      - apply IH. apply (Hclosed u Hu (fun H => H) w He). }
    intros Hr. now apply (Hall _ _ Hr Hstart).
Qed.

(** X1: [get_all_dependencies] returns on every graph, cyclic or not, and
    what it returns is, without repetition, exactly the set of paths
    reached from the start path along one or more reverse edges. *)
Theorem get_all_dependencies_closure self file_path :
  exists deps,
    get_all_dependencies resolve self file_path = Some deps /\
    NoDup deps /\
    forall v, In v deps <->
              reaches (reverse_graph self) (resolve file_path) v.
Proof. exact (get_all_dependencies_spec self file_path). Qed.

(** X16: the closure holds the direct dependencies and is transitive:
    what [get_dependencies] gives for a path is in what
    [get_all_dependencies] gives for it, and the transitive dependencies
    of a transitive dependency are transitive dependencies. *)
Theorem closure_composes self file_path deps :
  get_all_dependencies resolve self file_path = Some deps ->
  (forall d, In d (fst (get_dependencies resolve self file_path)) ->
             In d deps) /\
  (forall d deps_d e,
     In d deps -> resolve d = d ->
     get_all_dependencies resolve self d = Some deps_d ->
     In e deps_d -> In e deps).
Proof.
  intros Hdeps.
  destruct (get_all_dependencies_spec self file_path) as (l & Hl & _ & Hspec).
  rewrite Hdeps in Hl. injection Hl as <-. split.
  - intros d Hd. apply Hspec. apply reaches_edge. exact Hd.
  - intros d deps_d e Hd Hcanon Hdd He.
    destruct (get_all_dependencies_spec self d) as (l & Hl & _ & Hspec_d).
    rewrite Hdd in Hl. injection Hl as <-.
    apply Hspec. apply Hspec in Hd. apply Hspec_d in He.
    rewrite Hcanon in He. eapply reaches_trans; eauto.
Qed.

End ClosureFacts.

(** ** More on the topological sort *)

Lemma before_trans l u v w : before l u v -> before l v w -> before l u w.
Proof.
  intros (i & j & Hi & Hj & Hij) (j' & k & Hj' & Hk & Hjk).
  rewrite Hj in Hj'. injection Hj' as <-.
  exists i, k. repeat split; try assumption. lia.
Qed.

Lemma before_irrefl l u : ~ before l u u.
Proof.
  intros (i & j & Hi & Hj & Hij). rewrite Hi in Hj. injection Hj as <-. lia.
Qed.

Lemma before_In l u v : before l u v -> In u l /\ In v l.
Proof.
  intros (i & j & Hi & Hj & _). split.
  - now apply index_Some in Hi.
  - now apply index_Some in Hj.
Qed.

(** An order that respects the edges into its members respects the paths
    into them. *)
Lemma reaches_before g order :
  (forall u v, has_edge g u v -> In v order -> before order u v) ->
  forall u v, reaches g u v -> In v order -> before order u v.
Proof.
  intros Hedge u v Hr. induction Hr as [u v He | u v w He _ IH]; intros Hv.
  - now apply Hedge.
  - specialize (IH Hv). eapply before_trans; [| exact IH].
    apply Hedge; [assumption |]. now apply before_In in IH.
Qed.

Lemma kahn_final_complete g d order :
  well_formed g -> acyclic g -> kahn_invariant g d [] order ->
  forall v, In v (PyDict.keys g) -> In v order.
Proof.
  intros Hwf Hacyc [Hnd Hnodes Hcount Hready Horder] v Hv.
  rewrite app_nil_r in *.
  destruct (in_dec string_dec v order) as [| Hnot]; [assumption |].
  exfalso.
  destruct (unemitted_cycle g (fun x => In x (PyDict.keys g) /\ ~ In x order))
    with (v := v) as [w Hw].
  - tauto.
  - intros x [Hx Hxo].
    assert (Hrem : remaining g order x <> 0).
    { intros H0. apply Hxo. apply Hready; [assumption |].
      rewrite Hcount, H0. reflexivity. }
    destruct (remaining_positive _ _ _ Hrem) as (u & s & Hin & Hxs & Hu).
    exists u. split; [eapply item_has_edge; eauto; apply Hwf |].
    split; [| assumption].
    unfold PyDict.keys. apply in_map_iff. now exists (u, s).
  - tauto.
  - exact (Hacyc w Hw).
Qed.

(** X2: on every well-formed graph, cyclic or not, [topological_sort]
    returns a sequence of distinct nodes in which each emitted node comes
    after every node it can be reached from, and which holds no node that
    lies on a cycle. *)
Theorem topological_sort_usable_prefix self :
  well_formed (graph self) ->
  exists order,
    topological_sort self = Some order /\
    NoDup order /\
    (forall v, In v order -> In v (PyDict.keys (graph self))) /\
    (forall u v, reaches (graph self) u v -> In v order -> before order u v) /\
    (forall w, reaches (graph self) w w -> ~ In w order).
Proof.
  intros Hwf.
  destruct (topological_sort_invariant self Hwf)
    as (order & d & Hsort & [Hnd Hnodes Hcount Hready Horder]).
  rewrite app_nil_r in *.
  exists order. split; [assumption |]. split; [assumption |].
  split; [assumption |].
  assert (Hreach : forall u v, reaches (graph self) u v -> In v order ->
                               before order u v)
    by (apply reaches_before; assumption).
  split; [assumption |].
  intros w Hw Hin. exact (before_irrefl order w (Hreach w w Hw Hin)).
Qed.

(** X3: the test with which [topological_sort] decides to warn about a
    cycle is exact: on a well-formed graph the returned sequence has as
    many entries as the graph has nodes if and only if the graph has no
    cycle. *)
Theorem cycle_warning_exact self :
  well_formed (graph self) ->
  exists order,
    topological_sort self = Some order /\
    (List.length order = List.length (graph self) <-> acyclic (graph self)).
Proof.
  intros Hwf.
  destruct (topological_sort_invariant self Hwf) as (order & d & Hsort & Hinv).
  exists order. split; [assumption |].
  pose proof Hinv as [Hnd Hnodes Hcount Hready Horder].
  rewrite app_nil_r in *.
  assert (Hlen : List.length (PyDict.keys (graph self))
                 = List.length (graph self))
    by (unfold PyDict.keys; apply length_map).
  split.
  - intros Heq w Hw.
    assert (Hall : incl (PyDict.keys (graph self)) order).
    { apply NoDup_length_incl; [assumption | lia | exact Hnodes]. }
    assert (Hin : In w order).
    { apply Hall. inversion Hw as [? ? He | ? ? ? He _]; subst;
        now apply (adj_key _ w _ He). }
    apply (before_irrefl order w).
    now apply (reaches_before (graph self) order Horder).
  - intros Hacyc.
    pose proof (kahn_final_complete _ _ _ Hwf Hacyc Hinv) as Hall.
    apply Nat.le_antisymm.
    + rewrite <- Hlen. apply NoDup_incl_length; assumption.
    + rewrite <- Hlen. apply NoDup_incl_length; [apply Hwf | exact Hall].
Qed.

(** ** More on cycle detection *)

Lemma walk_snoc g l a b :
  walk g (l ++ [a]) -> has_edge g a b -> walk g ((l ++ [a]) ++ [b]).
Proof.
  intros Hw He. induction l as [| x l IH]; simpl in *.
  - auto.
  - destruct (l ++ [a]) as [| y t] eqn:E.
    + destruct l; discriminate.
    + simpl. destruct Hw as [Hxy Hw]. split; [assumption |].
      apply IH. exact Hw.
Qed.

Lemma index_split node path i :
  index node path = Some i ->
  exists p1 p2, path = p1 ++ node :: p2 /\ List.length p1 = i.
Proof.
  revert i. induction path as [| x path IH]; intros i; simpl; [discriminate |].
  destruct (String.eqb_spec x node) as [-> | Hx].
  - intros [= <-]. now exists [], path.
  - destruct (index node path) as [j |]; [| discriminate].
    intros [= <-]. destruct (IH j eq_refl) as (p1 & p2 & -> & Hlen).
    exists (x :: p1), p2. simpl. auto.
Qed.

Lemma closed_walk_reaches g c : closed_walk g c -> exists x, reaches g x x.
Proof.
  intros (x & mid & -> & Hw). exists x.
  apply (walk_reaches g x mid x []). exact Hw.
Qed.

Section ReportedCycles.

Variable g : PyDict.t PySet.t.

(** Whatever [dfs] adds to the list is a cycle of the graph. *)
Lemma cycle_dfs_genuine fuel :
  forall st node path st',
    walk g (path ++ [node]) ->
    (forall c, In c (cycles st) -> closed_walk g c) ->
    cycle_dfs fuel g st node path = Some st' ->
    forall c, In c (cycles st') -> closed_walk g c.
Proof.
  induction fuel as [| fuel IH]; intros st node path st' Hwalk Hst;
    [discriminate |].
  rewrite cycle_dfs_unfold.
  destruct (PySet.mem node (rec_stack st)).
  { destruct (index node path) as [i |] eqn:Hi; [| discriminate].
    intros E. injection E as E. subst st'. simpl.
    intros c Hc. apply in_app_or in Hc.
    destruct Hc as [Hc | [<- | []]]; [now apply Hst |].
    destruct (index_split _ _ _ Hi) as (p1 & p2 & -> & <-).
    rewrite skipn_app, Nat.sub_diag, skipn_all. simpl.
    exists node, p2. split; [reflexivity |].
    rewrite <- app_assoc in Hwalk. apply walk_suffix in Hwalk.
    exact Hwalk. }
  destruct (PySet.mem node (visited st)).
  { intros E. injection E as E. now subst st'. }
  destruct (fold_opt _ _ _) as [st2 |] eqn:Hfold; [| discriminate].
  intros E. injection E as E. subst st'. simpl.
  eapply (fold_opt_preserves _
            (fun s => forall c, In c (cycles s) -> closed_walk g c));
    [| | exact Hfold]; [| exact Hst].
  intros s dep s' Hdep Hs Hcall.
  eapply IH; [| exact Hs | exact Hcall].
  now apply walk_snoc.
Qed.

Lemma detect_loop_genuine fuel l :
  forall st st',
    (forall c, In c (cycles st) -> closed_walk g c) ->
    fold_opt
      (fun st node =>
         if PySet.mem node (visited st) then Some st
         else cycle_dfs fuel g st node []) l st = Some st' ->
    forall c, In c (cycles st') -> closed_walk g c.
Proof.
  intros st st' Hst Hfold.
  eapply (fold_opt_preserves _
            (fun s => forall c, In c (cycles s) -> closed_walk g c));
    [| | exact Hfold]; [| exact Hst].
  intros s k s' _ Hs Hstep. cbv beta in Hstep.
  destruct (PySet.mem k (visited s)).
  - injection Hstep as <-. exact Hs.
  - eapply cycle_dfs_genuine; [| exact Hs | exact Hstep]. exact I.
Qed.

End ReportedCycles.

Lemma detect_cycles_finds_some self w found :
  reaches (graph self) w w ->
  detect_cycles self = Some found ->
  found <> [].
Proof.
  intros Hw. unfold detect_cycles.
  destruct (fold_opt _ _ _) as [st |] eqn:Hfold; [| discriminate].
  intros [= <-] Hnil.
  assert (Hinit : finished_order (graph self)
                    (mkDfs PySet.empty PySet.empty []) []).
  { intros _. split.
    - intros u. simpl. tauto.
    - intros u v []. }
  assert (Hempty : incl (rec_stack (mkDfs PySet.empty PySet.empty [])) [])
    by (intros x []).
  destruct (detect_loop_finished (graph self) _ _ _ _ [] Hempty Hinit Hfold)
    as (fin & Hfin).
  apply detect_loop in Hfold; [| intros x []].
  destruct Hfold as (Hrs & _ & _ & Hall).
  destruct (Hfin Hnil) as [Hset Hedges]. simpl in Hset, Hedges.
  assert (Hkey : forall u v, has_edge (graph self) u v -> In u fin).
  { intros u v He. apply Hset. split; [apply Hall; now apply (adj_key _ u v) |].
    intros H. exact (Hrs u H). }
  assert (Hback : forall u v, reaches (graph self) u v -> before fin v u).
  { intros u v Hr. induction Hr as [u v He | u v x He Hr IH].
    - apply Hedges; eauto.
    - eapply before_trans; [exact IH |]. apply Hedges; eauto. }
  exact (before_irrefl fin w (Hback w w Hw)).
Qed.

(** X4: on every well-formed graph [detect_cycles] returns; each cycle it
    reports starts and ends at the same node and follows edges of the
    graph; and it reports no cycle if and only if the graph has none. *)
Theorem detect_cycles_exact self :
  well_formed (graph self) ->
  exists found,
    detect_cycles self = Some found /\
    (forall c, In c found -> closed_walk (graph self) c) /\
    (found = [] <-> acyclic (graph self)).
Proof.
  intros Hwf. destruct (detect_cycles_total self Hwf) as [found Hfound].
  exists found. split; [assumption |].
  assert (Hgen : forall c, In c found -> closed_walk (graph self) c).
  { unfold detect_cycles in Hfound.
    destruct (fold_opt _ _ _) as [st |] eqn:Hfold; [| discriminate].
    injection Hfound as <-.
    eapply detect_loop_genuine; [| exact Hfold]. intros c []. }
  split; [assumption |]. split.
  - intros Hnil w Hw.
    exact (detect_cycles_finds_some self w found Hw Hfound Hnil).
  - intros Hacyc. destruct found as [| c found]; [reflexivity |].
    destruct (closed_walk_reaches _ c (Hgen c (or_introl eq_refl))) as [x Hx].
    elim (Hacyc x Hx).
Qed.

(** ** Sorting a dictionary whose consumers need not be keys *)

Lemma get_app {V : Type} (d1 d2 : PyDict.t V) k :
  PyDict.get (d1 ++ d2) k =
  match PyDict.get d1 k with Some v => Some v | None => PyDict.get d2 k end.
Proof.
  induction d1 as [| [k0 v0] d1 IH]; simpl; [reflexivity |].
  now destruct (String.eqb k k0).
Qed.

Lemma get_empty_entries (l : list string) k :
  PyDict.get_default (map (fun v => (v, PySet.empty)) l) k PySet.empty
  = PySet.empty.
Proof.
  unfold PyDict.get_default. induction l as [| x l IH]; simpl; [reflexivity |].
  now destruct (String.eqb k x).
Qed.

Lemma adj_closed_up g n : adj (closed_up g) n = adj g n.
Proof.
  unfold adj, closed_up, PyDict.get_default at 1. rewrite get_app.
  unfold PyDict.get_default.
  destruct (PyDict.get g n) as [s |]; [reflexivity |].
  apply (get_empty_entries (dangling g) n).
Qed.

Lemma has_edge_closed_up g u v : has_edge (closed_up g) u v <-> has_edge g u v.
Proof. unfold has_edge. now rewrite adj_closed_up. Qed.

Lemma In_dangling g v :
  In v (dangling g) <->
  ~ In v (PyDict.keys g) /\ exists u s, In (u, s) g /\ In v s.
Proof.
  unfold dangling. rewrite nodup_In, filter_In, in_concat, negb_true_iff.
  rewrite <- contains_keys. split.
  - intros [(s & Hs & Hv) Hc]. split; [now rewrite Hc |].
    apply in_map_iff in Hs. destruct Hs as ([u s'] & E & Hin). simpl in E.
    subst s'. eauto.
  - intros [Hc (u & s & Hin & Hv)]. split.
    + exists s. split; [| assumption]. apply in_map_iff. now exists (u, s).
    + now destruct (PyDict.contains g v).
Qed.

Lemma keys_closed_up g :
  PyDict.keys (closed_up g) = PyDict.keys g ++ dangling g.
Proof.
  unfold closed_up, PyDict.keys. rewrite map_app, map_map. simpl.
  now rewrite map_id.
Qed.

Lemma closed_up_well_formed g : dict_ok g -> well_formed (closed_up g).
Proof.
  intros [Hkeys Hsets]. constructor.
  - rewrite keys_closed_up. apply NoDup_app.
    + assumption.
    + apply NoDup_nodup.
    + intros v Hv Hd. apply In_dangling in Hd. tauto.
  - intros u s Hin. apply in_app_or in Hin. destruct Hin as [Hin | Hin].
    + eauto.
    + apply in_map_iff in Hin. destruct Hin as (v & [= <- <-] & _). constructor.
  - intros u s v Hin Hv. rewrite keys_closed_up.
    apply in_app_or in Hin. destruct Hin as [Hin | Hin].
    + destruct (in_dec string_dec v (PyDict.keys g)) as [Hk | Hk].
      * apply in_or_app. now left.
      * apply in_or_app. right. apply In_dangling. split; eauto.
    + apply in_map_iff in Hin. destruct Hin as (x & [= <- <-] & _).
      destruct Hv.
Qed.

Lemma edge_count_concat g : edge_count g = List.length (List.concat (map snd g)).
Proof.
  induction g as [| [u s] g IH]; simpl; [reflexivity |].
  rewrite length_app, IH. reflexivity.
Qed.

Lemma closed_up_size g :
  List.length (PyDict.keys (closed_up g)) <= List.length g + edge_count g.
Proof.
  rewrite keys_closed_up, length_app. unfold PyDict.keys at 1.
  rewrite length_map, edge_count_concat.
  apply Nat.add_le_mono_l. unfold dangling.
  transitivity
    (List.length
       (filter (fun v => negb (PyDict.contains g v))
               (List.concat (map snd g))));
    [| apply filter_length_le].
  apply NoDup_incl_length; [apply NoDup_nodup |].
  intros x Hx. now apply nodup_In in Hx.
Qed.

Lemma kahn_loop_same_edges g g' :
  (forall n, adj g n = adj g' n) ->
  forall fuel d q r, kahn_loop fuel g d q r = kahn_loop fuel g' d q r.
Proof.
  intros Hadj fuel. induction fuel as [| fuel IH]; intros d q r.
  - destruct q; reflexivity.
  - destruct q as [| node q]; [reflexivity |]. simpl.
    change (PyDict.get_default g node PySet.empty) with (adj g node).
    change (PyDict.get_default g' node PySet.empty) with (adj g' node).
    rewrite Hadj. apply IH.
Qed.

Lemma remaining_closed_up g emitted v :
  remaining (closed_up g) emitted v = remaining g emitted v.
Proof.
  unfold remaining, closed_up. rewrite filter_app, length_app.
  replace (filter _ (map (fun v0 => (v0, PySet.empty)) (dangling g)))
    with (@nil (string * PySet.t)); [simpl; lia |].
  symmetry. induction (dangling g) as [| x l IH]; simpl; [reflexivity |].
  exact IH.
Qed.

Lemma kahn_initial_open g :
  dict_ok g ->
  kahn_invariant (closed_up g) (in_degree_init g)
    (filter (fun node => (in_degree_init g node =? 0)%Z) (PyDict.keys g)) [].
Proof.
  intros [Hkeys Hsets].
  assert (Hspec : forall v,
            in_degree_init g v = Z.of_nat (remaining (closed_up g) [] v)).
  { intros v. rewrite remaining_closed_up. unfold in_degree_init.
    rewrite in_degree_count_graph by exact Hsets.
    rewrite in_degree_zero_loop; [lia | reflexivity]. }
  constructor; simpl.
  - now apply NoDup_filter.
  - intros v Hv. apply filter_In in Hv. rewrite keys_closed_up.
    apply in_or_app. now left.
  - exact Hspec.
  - intros v Hv. rewrite filter_In, Z.eqb_eq. split; [tauto |].
    intros H0. split; [| assumption].
    rewrite keys_closed_up in Hv. apply in_app_or in Hv.
    destruct Hv as [Hv | Hv]; [assumption |]. exfalso.
    apply In_dangling in Hv. destruct Hv as [_ (u & s & Hin & Hvs)].
    rewrite Hspec, remaining_closed_up in H0.
    assert (Hz : remaining g [] v = 0) by lia.
    unfold remaining in Hz. apply length_zero_iff_nil in Hz.
    assert (Hf : In (u, s)
                    (filter
                       (fun item : string * PySet.t =>
                          PySet.mem v (snd item)
                          && negb (PySet.mem (fst item) [])) g)).
    { apply filter_In. split; [assumption |]. simpl.
      apply mem_true_iff in Hvs. now rewrite Hvs. }
    rewrite Hz in Hf. exact Hf.
  - intros u v _ [].
Qed.

(** The loop ends within its fuel on every dictionary of sets, and what
    holds at its end is the invariant of the closed-up dictionary. *)
Lemma topological_sort_open self :
  dict_ok (graph self) ->
  exists order d',
    topological_sort self = Some order /\
    kahn_invariant (closed_up (graph self)) d' [] order.
Proof.
  intros Hok. unfold topological_sort.
  rewrite (kahn_loop_same_edges (graph self) (closed_up (graph self)))
    by (intros n; symmetry; apply adj_closed_up).
  apply kahn_loop_total.
  - now apply closed_up_well_formed.
  - now apply kahn_initial_open.
  - simpl. rewrite Nat.add_0_r. apply closed_up_size.
Qed.

(** ** The restoration order *)

Lemma get_fold_set (F : string -> PySet.t) deps :
  forall (d0 : PyDict.t PySet.t) k,
    PyDict.get
      (fold_left (fun sub dep => PyDict.set sub dep (F dep)) deps d0) k =
    if PySet.mem k deps then Some (F k) else PyDict.get d0 k.
Proof.
  induction deps as [| dep deps IH]; intros d0 k; simpl; [reflexivity |].
  rewrite IH, get_set.
  destruct (PySet.mem k deps) eqn:Hk.
  - now rewrite orb_true_r.
  - rewrite orb_false_r. destruct (String.eqb_spec k dep) as [-> | _];
      reflexivity.
Qed.

Lemma keys_fold_set_NoDup (F : string -> PySet.t) deps :
  forall d0 : PyDict.t PySet.t,
    NoDup (PyDict.keys d0) ->
    NoDup (PyDict.keys
             (fold_left (fun sub dep => PyDict.set sub dep (F dep)) deps d0)).
Proof.
  induction deps as [| dep deps IH]; intros d0 Hd0; simpl; [assumption |].
  apply IH. now apply keys_set_NoDup.
Qed.

Section Restoration.

Variable self : DependencyGraph.
Variable deps : PySet.t.
Variable start : string.

Let sub := restoration_subgraph self deps start.

Lemma get_restoration_subgraph k :
  PyDict.get sub k =
  if String.eqb k start || PySet.mem k deps
  then Some (adj (graph self) k) else None.
Proof.
  unfold sub, restoration_subgraph. rewrite get_set.
  destruct (String.eqb_spec k start) as [-> | _]; [reflexivity |].
  simpl. apply (get_fold_set (fun dep => adj (graph self) dep)).
Qed.

Lemma keys_restoration_subgraph k :
  In k (PyDict.keys sub) <-> In k (start :: deps).
Proof.
  rewrite <- contains_keys. unfold PyDict.contains.
  rewrite get_restoration_subgraph. simpl.
  destruct (String.eqb_spec k start) as [-> | Hk]; simpl.
  - split; auto.
  - destruct (PySet.mem k deps) eqn:E.
    + apply mem_true_iff in E. split; auto.
    + apply mem_false_iff in E. split; [discriminate |].
      intros [H | H]; [congruence | contradiction].
Qed.

Lemma adj_restoration_subgraph k :
  adj sub k =
  if String.eqb k start || PySet.mem k deps then adj (graph self) k
  else PySet.empty.
Proof.
  unfold adj at 1, PyDict.get_default. rewrite get_restoration_subgraph.
  now destruct (String.eqb k start || PySet.mem k deps).
Qed.

Lemma has_edge_restoration_subgraph u v :
  has_edge sub u v <-> In u (start :: deps) /\ has_edge (graph self) u v.
Proof.
  unfold has_edge at 1. rewrite adj_restoration_subgraph. simpl.
  destruct (String.eqb_spec u start) as [-> | Hu]; simpl.
  - unfold has_edge. tauto.
  - destruct (PySet.mem u deps) eqn:E.
    + apply mem_true_iff in E. unfold has_edge. tauto.
    + apply mem_false_iff in E. split; [intros [] |].
      intros [[H | H] _]; [congruence | contradiction].
Qed.

Lemma restoration_subgraph_ok : well_formed (graph self) -> dict_ok sub.
Proof.
  intros Hwf.
  assert (Hkeys : NoDup (PyDict.keys sub)).
  { unfold sub, restoration_subgraph. apply keys_set_NoDup.
    apply (keys_fold_set_NoDup (fun dep => adj (graph self) dep)).
    constructor. }
  split; [assumption |].
  intros u s Hin. apply (In_get _ _ _ Hkeys) in Hin.
  rewrite get_restoration_subgraph in Hin.
  destruct (String.eqb u start || PySet.mem u deps); [| discriminate].
  injection Hin as <-. now apply adj_NoDup.
Qed.

Lemma reaches_restoration_subgraph u v :
  reaches (closed_up sub) u v -> reaches (graph self) u v.
Proof.
  intros H. induction H as [u v He | u v w He _ IH].
  - apply reaches_edge.
    now apply has_edge_closed_up, has_edge_restoration_subgraph in He.
  - eapply reaches_step; [| exact IH].
    now apply has_edge_closed_up, has_edge_restoration_subgraph in He.
Qed.

End Restoration.

Section RestorationOrder.

Variable resolve : string -> string.

Lemma run_mirrored calls : mirrored (run resolve calls).
Proof.
  induction calls as [| c calls IH] using rev_ind.
  - intros x y. reflexivity.
  - rewrite run_snoc. now apply mirrored_do_call.
Qed.

Lemma with_graph_restore self g :
  with_graph (with_graph self g) (graph self) = self.
Proof. destruct self. reflexivity. Qed.

Lemma mirrored_has_edge self u v :
  mirrored self ->
  (has_edge (graph self) u v <-> has_edge (reverse_graph self) v u).
Proof.
  intros Hm. specialize (Hm u v). unfold forward_edge, reverse_edge in Hm.
  unfold has_edge, adj. rewrite <- !mem_true_iff. now rewrite Hm.
Qed.

Lemma restoration_order_spec self s :
  well_formed (graph self) ->
  mirrored self ->
  resolve (resolve s) = resolve s ->
  PyDict.contains (graph self) (resolve s) = true ->
  exists deps order,
    get_all_dependencies resolve self s = Some deps /\
    get_restoration_order resolve self s = (Some order, self) /\
    NoDup order /\
    (forall x, In x order ->
       In x (resolve s :: deps) \/
       exists u, In u (resolve s :: deps) /\ has_edge (graph self) u x) /\
    (forall u v, In u (resolve s :: deps) -> has_edge (graph self) u v ->
                 In v order -> before order u v) /\
    (acyclic (graph self) ->
     (forall u, In u (resolve s :: deps) -> In u order) /\
     (forall d, In d deps -> before order d (resolve s))).
Proof.
  intros Hwf Hmir Hidem Hnode.
  destruct (get_all_dependencies_spec resolve self s)
    as (deps & Hdeps & _ & Hreach).
  exists deps.
  set (sub := restoration_subgraph self deps (resolve s)).
  pose proof (restoration_subgraph_ok self deps (resolve s) Hwf) as Hok.
  fold sub in Hok.
  destruct (topological_sort_open (with_graph self sub) Hok)
    as (order & d & Hsort & Hinv).
  simpl graph in Hinv.
  pose proof Hinv as [Hnd Hnodes Hcount Hready Horder].
  rewrite app_nil_r in *.
  exists order. split; [assumption |].
  split.
  { unfold get_restoration_order. rewrite Hnode. simpl negb. cbv iota.
    assert (Hsame : get_all_dependencies resolve self (resolve s) = Some deps).
    { unfold get_all_dependencies in *. now rewrite Hidem. }
    rewrite Hsame. fold sub. rewrite Hsort.
    now rewrite with_graph_restore. }
  split; [assumption |].
  assert (Hedges : forall u v, In u (resolve s :: deps) ->
                     has_edge (graph self) u v -> In v order ->
                     before order u v).
  { intros u v Hu He Hv. apply Horder; [| assumption].
    apply has_edge_closed_up.
    apply (has_edge_restoration_subgraph self deps (resolve s)). now split. }
  split.
  { intros x Hx. apply Hnodes in Hx. rewrite keys_closed_up in Hx.
    apply in_app_or in Hx. destruct Hx as [Hx | Hx].
    - left. now apply (keys_restoration_subgraph self deps (resolve s)).
    - right. apply In_dangling in Hx.
      destruct Hx as [_ (u & set & Hin & Hxs)]. exists u.
      apply (has_edge_restoration_subgraph self deps (resolve s)).
      eapply item_has_edge; eauto. apply Hok. }
  split; [assumption |].
  intros Hacyc.
  assert (Hall : forall u, In u (resolve s :: deps) -> In u order).
  { intros u Hu.
    apply (kahn_final_complete (closed_up sub) d order).
    - now apply closed_up_well_formed.
    - intros w Hw.
      apply (Hacyc w).
      now apply (reaches_restoration_subgraph self deps (resolve s)).
    - exact Hinv.
    - rewrite keys_closed_up. apply in_or_app. left.
      now apply (keys_restoration_subgraph self deps (resolve s)). }
  split; [assumption |].
  assert (Hchain : forall a d0,
            reaches (reverse_graph self) a d0 ->
            a = resolve s \/ reaches (reverse_graph self) (resolve s) a ->
            In a order -> before order d0 a).
  { intros a d0 Hr.
    induction Hr as [a d0 He | a v d0 He Hr IH]; intros Ha Hin.
    - apply Hedges; [| now apply (mirrored_has_edge self) | assumption].
      right. apply Hreach.
      destruct Ha as [-> | Ha]; [now apply reaches_edge |].
      eapply reaches_snoc; eauto.
    - assert (Hv : reaches (reverse_graph self) (resolve s) v).
      { destruct Ha as [-> | Ha]; [now apply reaches_edge |].
        eapply reaches_snoc; eauto. }
      assert (Hva : before order v a).
      { apply Hedges; [| now apply (mirrored_has_edge self) | assumption].
        right. now apply Hreach. }
      eapply before_trans; [| exact Hva].
      apply IH; [now right |]. now apply before_In in Hva. }
  intros d0 Hd0. apply Hchain.
  - now apply Hreach.
  - now left.
  - apply Hall. now left.
Qed.

(** X5: for a start path that is a node of a well-formed, mirrored graph,
    [get_restoration_order] returns a sequence without repetition and
    leaves the object as it found it; every path of the sequence is the
    start path, one of its transitive dependencies, or a direct consumer
    of one of these; and every emitted consumer of such a path comes
    after it. *)
Theorem restoration_order_contents self s :
  well_formed (graph self) ->
  mirrored self ->
  resolve (resolve s) = resolve s ->
  PyDict.contains (graph self) (resolve s) = true ->
  exists deps order,
    get_all_dependencies resolve self s = Some deps /\
    get_restoration_order resolve self s = (Some order, self) /\
    NoDup order /\
    (forall x, In x order ->
       In x (resolve s :: deps) \/
       exists u, In u (resolve s :: deps) /\ has_edge (graph self) u x) /\
    (forall u v, In u (resolve s :: deps) -> has_edge (graph self) u v ->
                 In v order -> before order u v).
Proof.
  intros Hwf Hmir Hidem Hnode.
  destruct (restoration_order_spec self s Hwf Hmir Hidem Hnode)
    as (deps & order & H1 & H2 & H3 & H4 & H5 & _).
  exists deps, order. auto.
Qed.

(** X6: if moreover the graph has no cycle, the restoration order holds
    the start path and every one of its transitive dependencies, each
    dependency before the start path. *)
Theorem restoration_order_dependencies_first self s :
  well_formed (graph self) ->
  mirrored self ->
  acyclic (graph self) ->
  resolve (resolve s) = resolve s ->
  PyDict.contains (graph self) (resolve s) = true ->
  exists deps order,
    get_all_dependencies resolve self s = Some deps /\
    fst (get_restoration_order resolve self s) = Some order /\
    In (resolve s) order /\
    (forall d, In d deps -> In d order /\ before order d (resolve s)).
Proof.
  intros Hwf Hmir Hacyc Hidem Hnode.
  destruct (restoration_order_spec self s Hwf Hmir Hidem Hnode)
    as (deps & order & H1 & H2 & _ & _ & _ & H6).
  destruct (H6 Hacyc) as [Hall Hfirst].
  exists deps, order. split; [assumption |].
  split; [now rewrite H2 |].
  split; [apply Hall; now left |].
  intros d Hd. split; [apply Hall; now right | now apply Hfirst].
Qed.

End RestorationOrder.

(** ** More on registration *)

Lemma set_set {V : Type} (d : PyDict.t V) k v v' :
  PyDict.set (PyDict.set d k v) k v' = PyDict.set d k v'.
Proof.
  induction d as [| [k0 v0] d IH]; simpl.
  - now rewrite String.eqb_refl.
  - destruct (String.eqb_spec k k0) as [-> | Hk]; simpl.
    + now rewrite String.eqb_refl.
    + destruct (String.eqb_spec k k0); [contradiction |]. now rewrite IH.
Qed.

Lemma remove_remove {V : Type} (d : PyDict.t V) k :
  PyDict.remove (PyDict.remove d k) k = PyDict.remove d k.
Proof.
  unfold PyDict.remove. induction d as [| [k0 v0] d IH]; simpl; [reflexivity |].
  destruct (String.eqb k k0) eqn:E; simpl; [assumption |].
  now rewrite E, IH.
Qed.

Lemma contains_remove {V : Type} (d : PyDict.t V) k k' :
  PyDict.contains (PyDict.remove d k) k' =
  negb (String.eqb k' k) && PyDict.contains d k'.
Proof.
  unfold PyDict.contains. rewrite get_remove.
  now destruct (String.eqb k' k).
Qed.

Lemma graph_keys_backfill_grow fp pending st k :
  PyDict.contains (graph st) k = true ->
  PyDict.contains (graph (fold_left (backfill fp) pending st)) k = true.
Proof.
  revert st. induction pending as [| c pending IH]; intros st H; simpl;
    [assumption |].
  apply IH. unfold backfill. simpl. rewrite contains_add_to, H.
  apply orb_true_r.
Qed.

Lemma reverse_keys_backfill_grow fp pending st k :
  PyDict.contains (reverse_graph st) k = true ->
  PyDict.contains (reverse_graph (fold_left (backfill fp) pending st)) k = true.
Proof.
  revert st. induction pending as [| c pending IH]; intros st H; simpl;
    [assumption |].
  apply IH. unfold backfill. simpl.
  rewrite contains_add_to, contains_ensure, H. now rewrite !orb_true_r.
Qed.

Lemma graph_ext s1 s2 :
  graph s1 = graph s2 ->
  reverse_graph s1 = reverse_graph s2 ->
  file_to_module s1 = file_to_module s2 ->
  module_to_file s1 = module_to_file s2 ->
  file_contents s1 = file_contents s2 ->
  pending_module_dependents s1 = pending_module_dependents s2 ->
  s1 = s2.
Proof. destruct s1, s2. simpl. intros; subst; reflexivity. Qed.

Section RegistrationFacts.

Variable resolve : string -> string.

Lemma graph_node_add_file self p m content :
  PyDict.contains (graph (add_file resolve self p m content)) (resolve p)
    = true /\
  PyDict.contains (reverse_graph (add_file resolve self p m content))
                  (resolve p) = true.
Proof.
  unfold add_file, PyDict.pop. split.
  - apply graph_keys_backfill_grow. simpl.
    now rewrite contains_ensure, String.eqb_refl.
  - apply reverse_keys_backfill_grow. simpl.
    now rewrite contains_ensure, String.eqb_refl.
Qed.

(** X7: registering a file a second time with the same module name and
    content changes nothing: [add_file] is idempotent. *)
Theorem add_file_idempotent self p m content :
  add_file resolve (add_file resolve self p m content) p m content =
  add_file resolve self p m content.
Proof.
  set (once := add_file resolve self p m content).
  destruct (graph_node_add_file self p m content) as [Hg Hr].
  fold once in Hg, Hr.
  assert (Hp : pending_module_dependents once =
               PyDict.remove (pending_module_dependents self) m)
    by apply pending_add_file.
  assert (Hnone : PyDict.get_default (pending_module_dependents once) m
                                     PySet.empty = PySet.empty).
  { rewrite Hp. unfold PyDict.get_default.
    now rewrite get_remove, String.eqb_refl. }
  apply graph_ext.
  - unfold add_file at 1, PyDict.pop. rewrite Hnone. simpl. now rewrite Hg.
  - unfold add_file at 1, PyDict.pop. rewrite Hnone. simpl. now rewrite Hr.
  - rewrite file_to_module_add_file. unfold once.
    rewrite file_to_module_add_file. apply set_set.
  - rewrite module_to_file_add_file. unfold once.
    rewrite module_to_file_add_file. apply set_set.
  - rewrite file_contents_add_file. unfold once.
    rewrite file_contents_add_file.
    destruct (truthy content); [apply set_set | reflexivity].
  - rewrite pending_add_file, Hp. apply remove_remove.
Qed.

Lemma pending_add_dependency self p m :
  pending_module_dependents (add_dependency resolve self p m) =
  match PyDict.get (module_to_file self) m with
  | Some _ => pending_module_dependents self
  | None => PyDict.add_to (pending_module_dependents self) m (resolve p)
  end.
Proof.
  unfold add_dependency.
  now destruct (PyDict.get (module_to_file self) m).
Qed.

Lemma forward_edge_kept self c a b :
  forward_edge self a b = true ->
  forward_edge (do_call resolve self c) a b = true.
Proof.
  intros H. destruct c as [p m content | p m]; simpl.
  - rewrite forward_edge_add_file, H. apply orb_true_r.
  - rewrite forward_edge_add_dependency, H. apply orb_true_r.
Qed.

Lemma graph_keys_kept self c k :
  PyDict.contains (graph self) k = true ->
  PyDict.contains (graph (do_call resolve self c)) k = true.
Proof.
  intros H. destruct c as [p m content | p m]; simpl.
  - unfold add_file, PyDict.pop. apply graph_keys_backfill_grow. simpl.
    rewrite contains_ensure, H. apply orb_true_r.
  - unfold add_dependency.
    destruct (PyDict.get (module_to_file self) m); simpl.
    + rewrite contains_add_to, !contains_ensure, H. now rewrite !orb_true_r.
    + rewrite contains_ensure, H. apply orb_true_r.
Qed.

Lemma run_app calls more :
  run resolve (calls ++ more) =
  fold_left (do_call resolve) more (run resolve calls).
Proof. unfold run. apply fold_left_app. Qed.

(** X8: nothing is ever deleted: a node and an edge of the graph after
    some calls are still there after any further calls, and the edge is
    then in the reverse map too. *)
Theorem nodes_and_edges_kept calls more :
  (forall k, PyDict.contains (graph (run resolve calls)) k = true ->
             PyDict.contains (graph (run resolve (calls ++ more))) k = true) /\
  (forall a b,
     In b (adj (graph (run resolve calls)) a) ->
     In b (adj (graph (run resolve (calls ++ more))) a) /\
     In a (adj (reverse_graph (run resolve (calls ++ more))) b)).
Proof.
  pose proof (run_mirrored resolve (calls ++ more)) as Hmir.
  rewrite run_app in *. revert Hmir. generalize (run resolve calls) as self.
  assert (Hfold : forall self,
            (forall k, PyDict.contains (graph self) k = true ->
               PyDict.contains
                 (graph (fold_left (do_call resolve) more self)) k = true) /\
            (forall a b, forward_edge self a b = true ->
               forward_edge (fold_left (do_call resolve) more self) a b
               = true)).
  { induction more as [| c more IH]; intros self; simpl; [auto |].
    destruct (IH (do_call resolve self c)) as [IH1 IH2]. split.
    - intros k Hk. now apply IH1, graph_keys_kept.
    - intros a b Hab. now apply IH2, forward_edge_kept. }
  intros self Hmir. destruct (Hfold self) as [H1 H2]. split; [assumption |].
  intros a b Hab.
  assert (Hfwd : forward_edge (fold_left (do_call resolve) more self) a b
                 = true).
  { apply H2. unfold forward_edge. now apply mem_true_iff. }
  split.
  - apply mem_true_iff. exact Hfwd.
  - apply mem_true_iff. rewrite (Hmir a b) in Hfwd. exact Hfwd.
Qed.

End RegistrationFacts.

Section References.

Variable resolve : string -> string.

Lemma pending_kept self c m x :
  PySet.mem x (PyDict.get_default (pending_module_dependents self) m
                                  PySet.empty) = true ->
  match c with
  | AddFile _ m' _ => m' <> m
  | AddDependency _ _ => True
  end ->
  PySet.mem x
    (PyDict.get_default
       (pending_module_dependents (do_call resolve self c)) m PySet.empty)
  = true.
Proof.
  intros Hx Hc. destruct c as [p m' content | p m']; simpl.
  - rewrite pending_add_file. unfold PyDict.get_default in *.
    rewrite get_remove.
    destruct (String.eqb_spec m m') as [-> | _]; [contradiction | assumption].
  - rewrite pending_add_dependency.
    destruct (PyDict.get (module_to_file self) m'); [assumption |].
    rewrite get_default_add_to.
    destruct (String.eqb_spec m m') as [-> | _]; [| assumption].
    rewrite mem_add, Hx. apply orb_true_r.
Qed.

Lemma reference_kept_spec calls consumer m :
  In (AddDependency consumer m) calls ->
  In (resolve consumer)
     (PyDict.get_default (pending_module_dependents (run resolve calls)) m
                         PySet.empty) \/
  exists p content,
    In (AddFile p m content) calls /\
    In (resolve consumer) (adj (graph (run resolve calls)) (resolve p)).
Proof.
  induction calls as [| c0 calls IH] using rev_ind; [intros [] |].
  intros Hin. rewrite run_snoc.
  assert (Hold :
            In (resolve consumer)
               (PyDict.get_default
                  (pending_module_dependents (run resolve calls)) m
                  PySet.empty) \/
            (exists p content,
               In (AddFile p m content) calls /\
               In (resolve consumer)
                  (adj (graph (run resolve calls)) (resolve p))) ->
            In (resolve consumer)
               (PyDict.get_default
                  (pending_module_dependents
                     (do_call resolve (run resolve calls) c0)) m
                  PySet.empty) \/
            (exists p content,
               In (AddFile p m content) (calls ++ [c0]) /\
               In (resolve consumer)
                  (adj (graph (do_call resolve (run resolve calls) c0))
                       (resolve p)))).
  { intros [Hpend | (p & content & Hp & Hedge)].
    - apply mem_true_iff in Hpend.
      destruct c0 as [p0 m0 content0 | p0 m0].
      + destruct (string_dec m0 m) as [-> | Hneq].
        * right. exists p0, content0. split.
          { apply in_or_app. right. now left. }
          apply mem_true_iff.
          change (forward_edge
                    (add_file resolve (run resolve calls) p0 m content0)
                    (resolve p0) (resolve consumer) = true).
          rewrite forward_edge_add_file, String.eqb_refl, Hpend.
          reflexivity.
        * left. apply mem_true_iff.
          now apply (pending_kept _ (AddFile p0 m0 content0)).
      + left. apply mem_true_iff.
        now apply (pending_kept _ (AddDependency p0 m0)).
    - right. exists p, content. split; [apply in_or_app; now left |].
      apply mem_true_iff. apply mem_true_iff in Hedge.
      now apply forward_edge_kept. }
  apply in_app_or in Hin. destruct Hin as [Hin | [-> | []]]; [auto |].
  clear IH Hold. simpl.
  destruct (PyDict.get (module_to_file (run resolve calls)) m)
    as [to_file |] eqn:Hm.
  - right.
    pose proof Hm as Hlast. rewrite module_to_file_run in Hlast.
    destruct (last_path_of_registered resolve _ _ _ Hlast)
      as (p & content & Hp & <-).
    exists p, content. split; [apply in_or_app; now left |].
    apply mem_true_iff.
    change (forward_edge
              (add_dependency resolve (run resolve calls) consumer m)
              (resolve p) (resolve consumer) = true).
    rewrite forward_edge_add_dependency, Hm, !String.eqb_refl. reflexivity.
  - left. apply mem_true_iff. rewrite pending_add_dependency, Hm.
    rewrite get_default_add_to, String.eqb_refl, mem_add.
    now rewrite String.eqb_refl.
Qed.

(** X9: no dependency reference is ever lost: after any sequence of
    calls, every [add_dependency(consumer, m)] made so far is either
    still pending under [m] or an edge from a path that some [add_file]
    registered for [m] to the consumer. *)
Theorem reference_never_dropped calls consumer m :
  In (AddDependency consumer m) calls ->
  In (resolve consumer)
     (PyDict.get_default (pending_module_dependents (run resolve calls)) m
                         PySet.empty) \/
  exists p content,
    In (AddFile p m content) calls /\
    In (resolve consumer) (adj (graph (run resolve calls)) (resolve p)).
Proof. exact (reference_kept_spec calls consumer m). Qed.

Lemma pending_unregistered_spec calls m :
  PyDict.contains (pending_module_dependents (run resolve calls)) m = true ->
  PyDict.contains (module_to_file (run resolve calls)) m = false.
Proof.
  induction calls as [| c calls IH] using rev_ind; [discriminate |].
  rewrite run_snoc. destruct c as [p m0 content | p m0]; simpl.
  - rewrite pending_add_file, module_to_file_add_file.
    rewrite contains_remove, contains_set.
    destruct (String.eqb m m0); [discriminate | exact IH].
  - rewrite pending_add_dependency.
    destruct (maps_add_dependency resolve (run resolve calls) p m0)
      as (_ & -> & _).
    destruct (PyDict.get (module_to_file (run resolve calls)) m0) eqn:Hm;
      [exact IH |].
    rewrite contains_add_to.
    destruct (String.eqb_spec m m0) as [-> | _]; [| exact IH].
    intros _. unfold PyDict.contains. now rewrite Hm.
Qed.

(** X10: a module name has a pending entry only while no file is
    registered for it. *)
Theorem pending_only_while_unregistered calls m :
  PyDict.contains (pending_module_dependents (run resolve calls)) m = true ->
  PyDict.contains (module_to_file (run resolve calls)) m = false.
Proof. exact (pending_unregistered_spec calls m). Qed.

(** X11: the order of discovery does not matter: once a file is
    registered for module [m], in whatever order the calls came, every
    consumer that declared a dependency on [m] has an edge from a path
    registered for [m], and on an acyclic graph [topological_sort] puts
    that path before the consumer. *)
Theorem dependency_sorted_first calls consumer m p0 content0 :
  In (AddDependency consumer m) calls ->
  In (AddFile p0 m content0) calls ->
  acyclic (graph (run resolve calls)) ->
  exists order p content,
    topological_sort (run resolve calls) = Some order /\
    In (AddFile p m content) calls /\
    before order (resolve p) (resolve consumer).
Proof.
  intros Hdep Hfile Hacyc.
  pose proof (run_well_formed resolve calls) as Hwf.
  destruct (topological_sort_invariant _ Hwf) as (order & d & Hsort & Hinv).
  destruct (reference_kept_spec calls consumer m Hdep)
    as [Hpend | (p & content & Hp & Hedge)].
  - exfalso.
    destruct (registered_last_path_of resolve _ _ _ _ Hfile) as [q Hq].
    rewrite <- module_to_file_run in Hq.
    assert (Hc : PyDict.contains
                   (pending_module_dependents (run resolve calls)) m = true).
    { unfold PyDict.contains, PyDict.get_default in *.
      destruct (PyDict.get (pending_module_dependents (run resolve calls)) m);
        [reflexivity | destruct Hpend]. }
    apply pending_unregistered_spec in Hc.
    unfold PyDict.contains in Hc. now rewrite Hq in Hc.
  - exists order, p, content. split; [assumption |]. split; [assumption |].
    pose proof (kahn_final_complete _ _ _ Hwf Hacyc Hinv) as Hall.
    destruct Hinv as [_ _ _ _ Horder]. apply Horder; [exact Hedge |].
    apply Hall. now apply (has_edge_nodes _ (resolve p) _ Hwf).
Qed.

End References.

(** ** More on the resolver *)

Lemma in_paths_In path base_paths :
  in_paths path base_paths = true <-> In path base_paths.
Proof. apply mem_true_iff. Qed.

Lemma list_remove_fresh x l : ~ In x l -> list_remove x (l ++ [x]) = l.
Proof.
  induction l as [| y l IH]; simpl; intros H.
  - now rewrite String.eqb_refl.
  - destruct (String.eqb_spec x y) as [-> | _]; [elim H; now left |].
    rewrite IH; [reflexivity | tauto].
Qed.

Lemma list_remove_In x y l : In y (list_remove x l) -> In y l.
Proof.
  induction l as [| z l IH]; simpl; [tauto |].
  destruct (String.eqb x z); simpl; tauto.
Qed.

Lemma list_remove_NoDup x l : NoDup l -> ~ In x (list_remove x l).
Proof.
  induction l as [| y l IH]; simpl; intros Hnd; [tauto |].
  inversion Hnd as [| ? ? Hy Hnd']; subst.
  destruct (String.eqb_spec x y) as [-> | Hxy]; [assumption |].
  simpl. intros [E | H]; [congruence | now apply IH].
Qed.

(** X12: the list of search roots: adding a root twice is the same as
    adding it once, a new root goes last, removing a root that was just
    added gives the list back, and on a list without repetition a removed
    root is gone while the other roots stay. *)
Theorem search_path_updates base_paths path :
  add_search_path (add_search_path base_paths path) path
    = add_search_path base_paths path /\
  In path (add_search_path base_paths path) /\
  (~ In path base_paths ->
   add_search_path base_paths path = base_paths ++ [path] /\
   remove_search_path (add_search_path base_paths path) path = base_paths) /\
  (NoDup base_paths ->
   forall q, In q (remove_search_path base_paths path) <->
             In q base_paths /\ q <> path).
Proof.
  unfold add_search_path, remove_search_path.
  destruct (in_paths path base_paths) eqn:E; simpl.
  - rewrite E. simpl. apply in_paths_In in E.
    split; [reflexivity |]. split; [assumption |].
    split; [intros H; contradiction |].
    intros Hnd q. split.
    + intros Hq. split; [now apply list_remove_In in Hq |].
      intros ->. now apply (list_remove_NoDup path base_paths Hnd).
    + intros [Hq Hneq]. clear E Hnd.
      induction base_paths as [| y l IH]; simpl in *; [assumption |].
      destruct (String.eqb_spec path y) as [-> | _].
      * destruct Hq; [congruence | assumption].
      * destruct Hq as [-> | Hq]; [now left | right; auto].
  - assert (Hin : in_paths path (base_paths ++ [path]) = true).
    { apply in_paths_In, in_or_app. right. now left. }
    rewrite Hin. simpl.
    assert (Hnot : ~ In path base_paths).
    { intros H. apply in_paths_In in H. congruence. }
    split; [reflexivity |].
    split; [apply in_or_app; right; now left |].
    split; [intros _; split; [reflexivity | now apply list_remove_fresh] |].
    intros _ q. split.
    + intros Hq. split; [assumption |]. intros ->. contradiction.
    + tauto.
Qed.

Section ResolverMore.

Variable path_exists : string -> bool.

Lemma try_base_paths_app bases1 bases2 parts :
  try_base_paths path_exists (bases1 ++ bases2) parts =
  match try_base_paths path_exists bases1 parts with
  | Some p => Some p
  | None => try_base_paths path_exists bases2 parts
  end.
Proof.
  induction bases1 as [| b bases1 IH]; [reflexivity |].
  cbn [app try_base_paths].
  destruct (try_extensions path_exists b parts extensions); [reflexivity |].
  exact IH.
Qed.

(** X13: adding a search root never changes a resolution that succeeded;
    a module that did not resolve is looked up under the new root
    alone. *)
Theorem resolve_after_add_search_path base_paths path module_name :
  resolve_module_to_path path_exists (add_search_path base_paths path)
                         module_name =
  match resolve_module_to_path path_exists base_paths module_name with
  | Some p => Some p
  | None =>
      if in_paths path base_paths then None
      else resolve_module_to_path path_exists [path] module_name
  end.
Proof.
  unfold add_search_path, resolve_module_to_path.
  destruct (in_paths path base_paths); simpl negb; cbv iota.
  - now destruct (try_base_paths path_exists base_paths
                    (split_dot module_name)).
  - apply try_base_paths_app.
Qed.

Lemma find_first {A : Type} (f : A -> bool) l x :
  find f l = Some x ->
  exists l1 l2, l = l1 ++ x :: l2 /\ f x = true /\
                forall y, In y l1 -> f y = false.
Proof.
  induction l as [| a l IH]; simpl; [discriminate |].
  destruct (f a) eqn:E.
  - intros [= <-]. exists [], l. repeat split; auto. intros y [].
  - intros H. destruct (IH H) as (l1 & l2 & -> & Hx & Hl1).
    exists (a :: l1), l2. repeat split; auto.
    intros y [<- | Hy]; auto.
Qed.

(** X14: what [resolve_module_to_path] returns exists and is the first
    existing path in probing order (base directories outermost,
    extensions next, the two path shapes innermost); it returns nothing
    exactly when none of the probed paths exists. *)
Theorem resolve_first_existing base_paths module_name :
  (forall p,
     resolve_module_to_path path_exists base_paths module_name = Some p ->
     path_exists p = true /\
     exists before_p after_p,
       probed_paths base_paths module_name = before_p ++ p :: after_p /\
       forall q, In q before_p -> path_exists q = false) /\
  (resolve_module_to_path path_exists base_paths module_name = None <->
   forall q, In q (probed_paths base_paths module_name) ->
             path_exists q = false).
Proof.
  rewrite resolve_first_probed. split.
  - intros p Hp. destruct (find_first _ _ _ Hp) as (l1 & l2 & E & Hx & Hl1).
    split; [assumption |]. exists l1, l2. auto.
  - split.
    + intros H q Hq. now apply (find_none _ _ H).
    + intros H. destruct (find path_exists _) as [p |] eqn:E; [| reflexivity].
      apply find_some in E. destruct E as [Hin Hp].
      rewrite (H p Hin) in Hp. discriminate.
Qed.

End ResolverMore.

(** ** More on reference extraction *)

Lemma findall_from_matched pattern :
  forall s skip m,
    In m (findall_from pattern skip s) ->
    exists s' rest, pattern s' = Some (m, rest).
Proof.
  induction s as [| c s IH]; intros skip m; simpl; [intros [] |].
  destruct skip as [| skip]; [| apply IH].
  destruct (pattern (c :: s)) as [[group rest] |] eqn:E; [| apply IH].
  intros [<- | H]; [eauto | eapply IH; eauto].
Qed.

Lemma take_name_no_quote s :
  Forall (fun c => is_quote c = false) (fst (take_name s)).
Proof.
  induction s as [| c s IH]; simpl; [constructor |].
  destruct (is_quote c) eqn:E; simpl; [constructor |].
  destruct (take_name s) as [name rest]. simpl in *. now constructor.
Qed.

Lemma match_quoted_name s name rest :
  match_quoted s = Some (name, rest) ->
  name <> [] /\ Forall (fun c => is_quote c = false) name.
Proof.
  unfold match_quoted. destruct s as [| q s1]; [discriminate |].
  destruct (is_quote q); [| discriminate].
  pose proof (take_name_no_quote s1) as Hname.
  destruct (take_name s1) as [[| c name'] [| q' s2]]; try discriminate.
  destruct (is_quote q'); [| discriminate].
  intros [= <- <-]. simpl in Hname. split; [discriminate | assumption].
Qed.

Lemma match_call_name s name rest :
  match_call s = Some (name, rest) ->
  name <> [] /\ Forall (fun c => is_quote c = false) name.
Proof.
  unfold match_call.
  destruct (match_literal (text_of_string "require") s) as [s1 |];
    [| discriminate].
  destruct (skip_spaces s1) as [| c s2]; [discriminate |].
  destruct (N.eqb_spec c 40) as [-> | Hc].
  - destruct (match_quoted (skip_spaces s2)) as [[name' s3] |] eqn:E;
      [| discriminate].
    destruct (skip_spaces s3) as [| c' s4]; [discriminate |].
    destruct (N.eqb_spec c' 41) as [-> | Hc'].
    + intros [= <- <-]. now apply match_quoted_name in E.
    + destruct c' as [| p]; [discriminate |].
      do 6 (destruct p as [p | p |]; try discriminate);
        exfalso; now apply Hc'.
  - destruct c as [| p]; [discriminate |].
    do 6 (destruct p as [p | p |]; try discriminate);
      exfalso; now apply Hc.
Qed.

Lemma match_bare_name s name rest :
  match_bare s = Some (name, rest) ->
  name <> [] /\ Forall (fun c => is_quote c = false) name.
Proof.
  unfold match_bare.
  destruct (match_literal (text_of_string "require") s) as [[| c s1] |];
    try discriminate.
  destruct (is_space c); [| discriminate].
  apply match_quoted_name.
Qed.

Section ExtractionMore.

Variable read_file : string -> option text.

(** X15: whatever the file holds, [get_module_dependencies] returns a
    list without repetition of names that are not empty and hold no
    quote character; when the file cannot be read it returns the empty
    list. *)
Theorem module_dependencies_well_formed file_path :
  NoDup (get_module_dependencies read_file file_path) /\
  (forall m, In m (get_module_dependencies read_file file_path) ->
             m <> [] /\ Forall (fun c => is_quote c = false) m) /\
  (read_file file_path = None ->
   get_module_dependencies read_file file_path = []).
Proof.
  unfold get_module_dependencies.
  destruct (read_file file_path) as [content |].
  - split; [apply list_set_NoDup |]. split; [| discriminate].
    intros m Hm. unfold extract_references in Hm.
    apply list_set_In, in_app_or in Hm. unfold findall in Hm.
    destruct Hm as [Hm | Hm];
      apply findall_from_matched in Hm; destruct Hm as (s' & rest & Hm).
    + now apply match_call_name in Hm.
    + now apply match_bare_name in Hm.
  - split; [constructor |]. split; [intros m [] | reflexivity].
Qed.

End ExtractionMore.

(** ** Helpers of the driver *)

Lemma string_length_append a b :
  String.length (a ++ b) = String.length a + String.length b.
Proof. induction a as [| c a IH]; simpl; [reflexivity | now rewrite IH]. Qed.

Lemma string_append_assoc (a b c : string) :
  ((a ++ b) ++ c = a ++ (b ++ c))%string.
Proof. induction a as [| x a IH]; simpl; [reflexivity | now rewrite IH]. Qed.

Lemma string_append_nil (a : string) : (a ++ "" = a)%string.
Proof. induction a as [| x a IH]; simpl; [reflexivity | now rewrite IH]. Qed.

Lemma list_ascii_append a b :
  list_ascii_of_string (a ++ b) =
  (list_ascii_of_string a ++ list_ascii_of_string b)%list.
Proof. induction a as [| c a IH]; simpl; [reflexivity | now rewrite IH]. Qed.

Lemma starts_with_app p l : starts_with p (p ++ l) = true.
Proof.
  induction p as [| c p IH]; simpl; [reflexivity |].
  now rewrite Ascii.eqb_refl.
Qed.

Lemma ends_with_append a suffix : ends_with (a ++ suffix) suffix = true.
Proof.
  unfold ends_with. rewrite list_ascii_append, rev_app_distr.
  apply starts_with_app.
Qed.

Lemma substring_prefix a b : substring 0 (String.length a) (a ++ b) = a.
Proof.
  induction a as [| c a IH]; simpl.
  - now destruct b.
  - now rewrite IH.
Qed.

Lemma drop_last_append a suffix :
  drop_last (String.length suffix) (a ++ suffix) = a.
Proof.
  unfold drop_last. rewrite string_length_append.
  replace (String.length a + String.length suffix - String.length suffix)
    with (String.length a) by lia.
  apply substring_prefix.
Qed.

Lemma rfind_dot_append a b :
  rfind_dot b = None ->
  rfind_dot (a ++ String "."%char b) = Some (String.length a).
Proof.
  intros Hb. induction a as [| c a IH]; simpl.
  - now rewrite Hb.
  - now rewrite IH.
Qed.

Lemma join_snoc sep (init : list string) (x y : string) :
  join sep (init ++ [(x ++ y)%string]) = (join sep (init ++ [x]) ++ y)%string.
Proof.
  induction init as [| a init IH]; simpl; [reflexivity |].
  destruct (init ++ [(x ++ y)%string]) as [| b l] eqn:E1;
    [destruct init; discriminate |].
  destruct (init ++ [x]) as [| b' l'] eqn:E2; [destruct init; discriminate |].
  rewrite IH. now rewrite !string_append_assoc.
Qed.

(** Splitting a name at its dots and joining the segments with dots gives
    the name back. *)
Lemma join_split_dot m : join "." (split_dot m) = m.
Proof.
  induction m as [| c m IH]; simpl; [reflexivity |].
  destruct (Ascii.eqb_spec c "."%char) as [-> | Hc].
  - simpl. destruct (split_dot m) as [| part parts] eqn:E.
    + simpl in IH. now subst m.
    + now rewrite IH.
  - destruct (split_dot m) as [| part parts] eqn:E.
    + simpl in IH. now subst m.
    + simpl in *. destruct parts; simpl in *; now rewrite IH.
Qed.

Lemma index_skip node pre l :
  ~ In node pre ->
  index node (pre ++ node :: l) = Some (List.length pre).
Proof. apply index_app_fresh. Qed.

Lemma skipn_after (pre : list string) x l :
  skipn (List.length pre + 1) (pre ++ x :: l) = l.
Proof.
  induction pre as [| a pre IH]; simpl; [reflexivity | exact IH].
Qed.

Lemma last_snoc (l : list string) x d : last (l ++ [x]) d = x.
Proof. apply last_last. Qed.

Lemma extract_under_lua pre init name :
  ~ In "lua" pre ->
  _extract_module_name (pre ++ "lua" :: init ++ [name]) =
  join "."
    (if ends_with name ".lua.unluac" then init ++ [drop_last 10 name]
     else if ends_with name ".lua" then init ++ [drop_last 4 name]
     else init ++ [name]).
Proof.
  intros Hpre. unfold _extract_module_name.
  rewrite (index_app_fresh "lua" pre (init ++ [name]) Hpre).
  rewrite skipn_after.
  destruct (init ++ [name]) as [| a l] eqn:E; [destruct init; discriminate |].
  rewrite <- E, last_last, removelast_last.
  destruct (ends_with name ".lua.unluac"); [reflexivity |].
  destruct (ends_with name ".lua"); reflexivity.
Qed.

(** X17: for a source file below a directory named lua, the module name
    derived from the path is the name the resolver maps to that file:
    the segments after the first lua directory, joined with dots, with the
    suffix .lua removed. *)
Theorem extract_module_name_of_source pre m init base :
  ~ In "lua" pre ->
  split_dot m = init ++ [base] ->
  _extract_module_name (pre ++ "lua" :: init ++ [(base ++ ".lua")%string]) = m.
Proof.
  intros Hpre Hm. rewrite (extract_under_lua pre init _ Hpre).
  assert (Hno : ends_with (base ++ ".lua") ".lua.unluac" = false).
  { unfold ends_with. rewrite list_ascii_append, rev_app_distr. reflexivity. }
  rewrite Hno, ends_with_append.
  change 4 with (String.length ".lua"). rewrite drop_last_append.
  rewrite <- Hm. apply join_split_dot.
Qed.

(** X18: for a decompiled file below a directory named lua the slice
    removes ten characters of the eleven of .lua.unluac, so the derived
    name is the module name followed by a dot. *)
Theorem extract_module_name_of_decompiled pre m init base :
  ~ In "lua" pre ->
  split_dot m = init ++ [base] ->
  _extract_module_name
    (pre ++ "lua" :: init ++ [(base ++ ".lua.unluac")%string])
  = (m ++ ".")%string.
Proof.
  intros Hpre Hm. rewrite (extract_under_lua pre init _ Hpre).
  rewrite ends_with_append.
  change (base ++ ".lua.unluac")%string
    with (base ++ ("." ++ "lua.unluac"))%string.
  rewrite <- string_append_assoc.
  change 10 with (String.length "lua.unluac"). rewrite drop_last_append.
  rewrite join_snoc, <- Hm. now rewrite join_split_dot.
Qed.

(** X19: when no part of the path is named lua, the module name is the
    file name without its suffixes: a file base.lua.unluac gives base,
    and so does base.lua when base does not itself end in .lua. *)
Theorem extract_module_name_from_file_name parts base :
  index "lua" parts = None ->
  base <> "" ->
  (path_name parts = (base ++ ".lua.unluac")%string ->
   _extract_module_name parts = base) /\
  (path_name parts = (base ++ ".lua")%string ->
   ends_with base ".lua" = false ->
   _extract_module_name parts = base).
Proof.
  intros Hlua Hbase.
  assert (Hlen : 0 < String.length base)
    by (destruct base; [congruence | simpl; lia]).
  unfold _extract_module_name, path_stem. rewrite Hlua. split.
  - intros ->.
    change (base ++ ".lua.unluac")%string
      with (base ++ (".lua" ++ String "."%char "unluac"))%string.
    rewrite <- string_append_assoc, rfind_dot_append by reflexivity.
    rewrite !string_length_append. simpl String.length.
    assert (H1 : Nat.ltb 0 (String.length base + 4) = true)
      by (apply Nat.ltb_lt; lia).
    assert (H2 : Nat.ltb (String.length base + 4)
                         (String.length base + 4 + 7 - 1) = true)
      by (apply Nat.ltb_lt; lia).
    rewrite H1, H2. simpl andb. cbv iota.
    replace (String.length base + 4)
      with (String.length (base ++ ".lua")%string)
      by (rewrite string_length_append; reflexivity).
    rewrite substring_prefix, ends_with_append.
    change 4 with (String.length ".lua"). apply drop_last_append.
  - intros -> Hnot.
    change (base ++ ".lua")%string with (base ++ String "."%char "lua")%string.
    rewrite rfind_dot_append by reflexivity.
    rewrite !string_length_append. simpl String.length.
    assert (H1 : Nat.ltb 0 (String.length base) = true)
      by (apply Nat.ltb_lt; lia).
    assert (H2 : Nat.ltb (String.length base) (String.length base + 4 - 1)
                 = true)
      by (apply Nat.ltb_lt; lia).
    rewrite H1, H2. simpl andb. cbv iota.
    rewrite substring_prefix, Hnot. reflexivity.
Qed.

Lemma split_dot_nonempty s : split_dot s <> [].
Proof.
  destruct s as [| c s]; simpl; [discriminate |].
  destruct (Ascii.eqb c "."%char); [discriminate |].
  destruct (split_dot s); discriminate.
Qed.

Lemma split_dot_append p q :
  split_dot (p ++ String "."%char q) = (split_dot p ++ split_dot q)%list.
Proof.
  induction p as [| c p IH]; simpl; [reflexivity |].
  destruct (Ascii.eqb c "."%char); simpl; [now rewrite IH |].
  rewrite IH. pose proof (split_dot_nonempty p) as Hne.
  destruct (split_dot p) as [| part parts]; [congruence | reflexivity].
Qed.

Lemma follow_keys_none {A : Type} keys :
  follow_keys keys (@PyNone A) = PyNone.
Proof. destruct keys; reflexivity. Qed.

Lemma follow_keys_app {A : Type} keys1 keys2 (value : py_value A) :
  keys2 <> [] ->
  follow_keys (keys1 ++ keys2) value =
  follow_keys keys2 (follow_keys keys1 value).
Proof.
  intros Hk. revert value. induction keys1 as [| k keys1 IH]; intros value;
    simpl; [reflexivity |].
  destruct value as [| a | items]; try (now rewrite follow_keys_none).
  destruct (PyDict.get items k); [apply IH | now rewrite follow_keys_none].
Qed.

(** X20: [_get_nested_value] follows a dotted key path one key at a time:
    looking up [p.q] is looking up [q] in what the lookup of [p] gives,
    and a lookup that fails on the way, on a missing key or on a value
    that is not a dictionary, gives [None]. *)
Theorem get_nested_value_composes {A : Type} (data : py_value A) p q :
  _get_nested_value data (p ++ String "."%char q) =
  _get_nested_value (_get_nested_value data p) q.
Proof.
  unfold _get_nested_value. rewrite split_dot_append.
  apply follow_keys_app. apply split_dot_nonempty.
Qed.

(** ** Looking a module file up by name *)

Section FinderFacts.

Variable path_exists : string -> bool.
Variable walk_tree : string -> list (string * list string).

Lemma find_file_spec root files target :
  (forall p, find_file root files target = Some p ->
             In target files /\ p = path_div root target) /\
  (find_file root files target = None <-> ~ In target files).
Proof.
  induction files as [| f files [IH1 IH2]]; simpl.
  - split; [discriminate | tauto].
  - destruct (String.eqb_spec f target) as [-> | Hf]; split.
    + intros p [= <-]. auto.
    + split; [discriminate | intros H; elim H; now left].
    + intros p Hp. destruct (IH1 p Hp). auto.
    + rewrite IH2. tauto.
Qed.

Lemma find_in_walk_spec walked target :
  (forall p, find_in_walk walked target = Some p ->
             exists root files,
               In (root, files) walked /\ In target files /\
               p = path_div root target) /\
  (find_in_walk walked target = None <->
   forall root files, In (root, files) walked -> ~ In target files).
Proof.
  induction walked as [| [root files] walked [IH1 IH2]]; simpl.
  - split; [discriminate |]. split; [intros _ r f [] | reflexivity].
  - destruct (find_file_spec root files target) as [F1 F2].
    destruct (find_file root files target) as [p0 |]; split.
    + intros p [= <-]. destruct (F1 p0 eq_refl) as [Hin ->].
      exists root, files. auto.
    + split; [discriminate |]. intros H. exfalso.
      destruct (F1 p0 eq_refl) as [Hin _].
      exact (H root files (or_introl eq_refl) Hin).
    + intros p Hp. destruct (IH1 p Hp) as (r & f & Hin & Ht & ->).
      exists r, f. auto.
    + rewrite IH2. split.
      * intros H r f [[= <- <-] | Hin]; [now apply F2 | eauto].
      * intros H r f Hin. apply (H r f). now right.
Qed.

Lemma find_with_extensions_spec search_path name exts :
  (forall p, find_with_extensions path_exists walk_tree search_path name exts
             = Some p ->
             exists ext, In ext exts /\
                         found_at path_exists walk_tree search_path (name ++ ext) p) /\
  (find_with_extensions path_exists walk_tree search_path name exts = None
   <-> forall ext p, In ext exts ->
                     ~ found_at path_exists walk_tree search_path (name ++ ext) p).
Proof.
  induction exts as [| ext exts [IH1 IH2]]; simpl.
  - split; [discriminate |]. split; [intros _ e p [] | reflexivity].
  - destruct (find_in_walk_spec (walk_tree search_path)
                (name ++ ext)%string) as [W1 W2].
    destruct (path_exists (path_div search_path (name ++ ext))) eqn:E.
    { split.
      - intros p [= <-]. exists ext. split; [now left |]. left. auto.
      - split; [discriminate |]. intros H. exfalso.
        apply (H ext (path_div search_path (name ++ ext))
                 (or_introl eq_refl)).
        left. auto. }
    destruct (find_in_walk (walk_tree search_path) (name ++ ext))
      as [p0 |]; split.
    + intros p [= <-]. exists ext. split; [now left |]. right.
      exact (W1 p0 eq_refl).
    + split; [discriminate |]. intros H. exfalso.
      apply (H ext p0 (or_introl eq_refl)). right. exact (W1 p0 eq_refl).
    + intros p Hp. destruct (IH1 p Hp) as (e & He & Hf). exists e. auto.
    + rewrite IH2. split.
      * intros H e p [<- | He]; [| eauto].
        intros [[-> Hex] | (r & f & Hin & Ht & _)].
        { congruence. }
        { exact (proj1 W2 eq_refl r f Hin Ht). }
      * intros H e p He. apply H. now right.
Qed.

Lemma find_with_names_spec search_path names :
  (forall p, find_with_names path_exists walk_tree search_path names
             = Some p ->
             exists name ext,
               In name names /\ In ext [".lua"; ".so"; ".dll"; ".dylib"] /\
               found_at path_exists walk_tree search_path (name ++ ext) p) /\
  (find_with_names path_exists walk_tree search_path names = None <->
   forall name ext p,
     In name names -> In ext [".lua"; ".so"; ".dll"; ".dylib"] ->
     ~ found_at path_exists walk_tree search_path (name ++ ext) p).
Proof.
  induction names as [| name names [IH1 IH2]]; cbn [find_with_names].
  - split; [discriminate |]. split; [intros _ n e p [] | reflexivity].
  - destruct (find_with_extensions_spec search_path name
                [".lua"; ".so"; ".dll"; ".dylib"]) as [E1 E2].
    destruct (find_with_extensions path_exists walk_tree search_path name
                [".lua"; ".so"; ".dll"; ".dylib"]) as [p0 |]; split.
    + intros p [= <-]. destruct (E1 p0 eq_refl) as (e & He & Hf).
      exists name, e. split; [now left | auto].
    + split; [discriminate |]. intros H. exfalso.
      destruct (E1 p0 eq_refl) as (e & He & Hf).
      exact (H name e p0 (or_introl eq_refl) He Hf).
    + intros p Hp. destruct (IH1 p Hp) as (n & e & Hn & He & Hf).
      exists n, e. split; [now right | auto].
    + rewrite IH2. split.
      * intros H n e p [<- | Hn] He; [| eauto].
        exact (proj1 E2 eq_refl e p He).
      * intros H n e p Hn. apply H. now right.
Qed.

Lemma In_wanted_files module_name target :
  In target (wanted_files module_name) <->
  exists name ext,
    In name (possible_names module_name) /\
    In ext [".lua"; ".so"; ".dll"; ".dylib"] /\
    target = (name ++ ext)%string.
Proof.
  unfold wanted_files. rewrite in_flat_map. split.
  - intros (name & Hn & Ht). apply in_map_iff in Ht.
    destruct Ht as (ext & <- & He). eauto.
  - intros (name & ext & Hn & He & ->). exists name. split; [assumption |].
    apply in_map_iff. eauto.
Qed.

Lemma find_in_paths_spec search_paths module_name :
  (forall p, find_in_paths path_exists walk_tree search_paths
               (possible_names module_name) = Some p ->
             exists search_path target,
               In search_path search_paths /\
               In target (wanted_files module_name) /\
               found_at path_exists walk_tree search_path target p) /\
  (find_in_paths path_exists walk_tree search_paths
     (possible_names module_name) = None <->
   forall search_path target p,
     In search_path search_paths ->
     In target (wanted_files module_name) ->
     ~ found_at path_exists walk_tree search_path target p).
Proof.
  induction search_paths as [| sp sps [IH1 IH2]]; cbn [find_in_paths].
  - split; [discriminate |]. split; [intros _ s t p [] | reflexivity].
  - destruct (find_with_names_spec sp (possible_names module_name))
      as [N1 N2].
    destruct (find_with_names path_exists walk_tree sp
                (possible_names module_name)) as [p0 |]; split.
    + intros p [= <-]. destruct (N1 p0 eq_refl) as (n & e & Hn & He & Hf).
      exists sp, (n ++ e)%string. split; [now left |].
      split; [apply In_wanted_files; eauto | assumption].
    + split; [discriminate |]. intros H. exfalso.
      destruct (N1 p0 eq_refl) as (n & e & Hn & He & Hf).
      apply (H sp (n ++ e)%string p0 (or_introl eq_refl)); [| assumption].
      apply In_wanted_files. eauto.
    + intros p Hp. destruct (IH1 p Hp) as (s & t & Hs & Ht & Hf).
      exists s, t. split; [now right | auto].
    + rewrite IH2. split.
      * intros H s t p [<- | Hs] Ht; [| eauto].
        apply In_wanted_files in Ht. destruct Ht as (n & e & Hn & He & ->).
        exact (proj1 N2 eq_refl n e p Hn He).
      * intros H s t p Hs. apply H. now right.
Qed.

(** X21: what [find_module_file] returns is a wanted file (one of the
    three names of the module with one of the four extensions) that
    exists directly in a search path or was met while walking below it;
    it returns nothing exactly when no wanted file is found in either
    way under any search path.  Without an explicit list the search
    paths are the base paths of the resolver. *)
Theorem find_module_file_found base_paths module_name search_paths :
  let roots := match search_paths with
               | None => base_paths
               | Some paths => paths
               end in
  (forall p,
     find_module_file path_exists walk_tree base_paths module_name
                      search_paths = Some p ->
     exists search_path target,
       In search_path roots /\ In target (wanted_files module_name) /\
       found_at path_exists walk_tree search_path target p) /\
  (find_module_file path_exists walk_tree base_paths module_name
                    search_paths = None <->
   forall search_path target p,
     In search_path roots -> In target (wanted_files module_name) ->
     ~ found_at path_exists walk_tree search_path target p).
Proof.
  intros roots. unfold find_module_file. apply find_in_paths_spec.
Qed.

End FinderFacts.

(** ** The properties at concrete inputs *)

Lemma ranked_acyclic g (rank : string -> nat) :
  (forall u v, has_edge g u v -> rank v < rank u) -> acyclic g.
Proof.
  intros Hrank.
  assert (H : forall u v, reaches g u v -> rank v < rank u).
  { intros u v Hr. induction Hr as [u v He | u v w He _ IH].
    - now apply Hrank.
    - specialize (Hrank u v He). lia. }
  intros u Hu. specialize (H u u Hu). lia.
Qed.

(** C1 does not hold of the code: on the graph of [test_dependency_graph]
    the dependency closure of file2 is file3 alone, yet the restoration
    order of file2 also holds file1, a consumer of file2 that is outside
    the closure. *)
Theorem restoration_order_emits_consumer :
  let self := run canonical test_calls in
  get_all_dependencies canonical self "/w/file2.lua" = Some ["/w/file3.lua"] /\
  fst (get_restoration_order canonical self "/w/file2.lua") =
    Some ["/w/file3.lua"; "/w/file2.lua"; "/w/file1.lua"] /\
  ~ In "/w/file1.lua" ["/w/file3.lua"; "/w/file2.lua"].
Proof.
  split; [reflexivity |]. split; [reflexivity |].
  simpl. intros [H | [H | []]]; discriminate.
Qed.

(** C2 as stated fails: both contents are non-empty, and after the second
    registration of the path the cache holds the second content, not the
    first. *)
Lemma content_overwritten :
  let self :=
    add_file canonical
      (add_file canonical init "/w/a.lua" "a" (Some "old"))
      "/w/a.lua" "a" (Some "new") in
  PyDict.get (file_contents self) (canonical "/w/a.lua") = Some "new" /\
  PyDict.get (file_contents self) (canonical "/w/a.lua") <> Some "old".
Proof. split; [reflexivity | discriminate]. Qed.

Lemma second_registration_content_witness :
  "old" <> "" /\
  PyDict.get
    (file_contents
       (add_file canonical
          (add_file canonical init "/w/a.lua" "a" (Some "old"))
          "/w/a.lua" "a" None))
    (canonical "/w/a.lua") = Some "old".
Proof.
  split; [discriminate |].
  apply (second_registration_content canonical init "/w/a.lua" "a" "a" "old"
           None).
  discriminate.
Defined.

(** C3 as stated fails: a module name registered under a second path
    leaves the first path mapped to it, so the two maps are not inverse to
    each other. *)
Lemma stale_path_entry :
  ~ mutual_inverses
      (run canonical
         [AddFile "/w/old.lua" "m" None; AddFile "/w/new.lua" "m" None]).
Proof.
  intros H. specialize (H "m" "/w/old.lua"). destruct H as [_ H].
  specialize (H eq_refl). discriminate H.
Qed.

Lemma test_calls_one_to_one : one_to_one canonical test_calls.
Proof.
  intros p1 m1 c1 p2 m2 c2 H1 H2. unfold canonical.
  simpl in H1, H2.
  destruct H1 as [H1 | [H1 | [H1 | [H1 | [H1 | [H1 | []]]]]]];
    try discriminate H1; injection H1 as <- <- <-;
    destruct H2 as [H2 | [H2 | [H2 | [H2 | [H2 | [H2 | []]]]]]];
    try discriminate H2; injection H2 as <- <- <-;
    split; intros E; try reflexivity; discriminate E.
Defined.

Lemma module_maps_last_registration_witness :
  one_to_one canonical test_calls /\
  mutual_inverses (run canonical test_calls).
Proof.
  split; [exact test_calls_one_to_one |].
  apply (module_maps_last_registration canonical test_calls).
  exact test_calls_one_to_one.
Defined.

Lemma test_graph_acyclic : acyclic (graph (run canonical test_calls)).
Proof.
  apply (ranked_acyclic _
           (fun p => if String.eqb p "/w/file3.lua" then 2
                     else if String.eqb p "/w/file2.lua" then 1 else 0)).
  intros u v H. destruct (has_edge_item _ _ _ H) as (s & Hin & Hv).
  simpl in Hin. destruct Hin as [E | [E | [E | []]]];
    injection E as <- <-; simpl in Hv.
  - destruct Hv.
  - destruct Hv as [<- | []]. simpl. lia.
  - destruct Hv as [<- | [<- | []]]; simpl; lia.
Defined.

Lemma topological_sort_acyclic_witness :
  well_formed (graph (run canonical test_calls)) /\
  acyclic (graph (run canonical test_calls)) /\
  exists order,
    topological_sort (run canonical test_calls) = Some order /\
    NoDup order /\
    (forall v, In v order <->
               In v (PyDict.keys (graph (run canonical test_calls)))) /\
    (forall u v, has_edge (graph (run canonical test_calls)) u v ->
                 before order u v).
Proof.
  split; [apply run_well_formed |]. split; [exact test_graph_acyclic |].
  apply (topological_sort_acyclic (run canonical test_calls)).
  - apply run_well_formed.
  - exact test_graph_acyclic.
Defined.

Lemma pending_dependency_resolved_witness :
  PyDict.contains (module_to_file init) "util" = false /\
  (let self' :=
     add_file canonical
       (add_dependency canonical init "/w/main.lua" "util")
       "/w/util.lua" "util" None in
   In (canonical "/w/util.lua")
      (fst (get_dependencies canonical self' "/w/main.lua")) /\
   PyDict.contains (pending_module_dependents self') "util" = false).
Proof.
  split; [reflexivity |].
  apply (pending_dependency_resolved canonical init "/w/main.lua"
           "/w/util.lua" "util" None).
  reflexivity.
Defined.

(** C8 as stated fails: with the edge a -> c next to a -> b -> c -> a, and
    c enumerated before b among the consumers of a, the only cycle that
    [detect_cycles] reports is a, c, a; b is not on it. *)
Lemma chord_hides_cycle :
  let self := run canonical chord_calls in
  well_formed (graph self) /\
  has_edge (graph self) "/w/a.lua" "/w/b.lua" /\
  has_edge (graph self) "/w/b.lua" "/w/c.lua" /\
  has_edge (graph self) "/w/c.lua" "/w/a.lua" /\
  detect_cycles self = Some [["/w/a.lua"; "/w/c.lua"; "/w/a.lua"]] /\
  ~ cycle_through "/w/a.lua" "/w/b.lua" "/w/c.lua"
      [["/w/a.lua"; "/w/c.lua"; "/w/a.lua"]].
Proof.
  split; [apply run_well_formed |].
  split; [right; left; reflexivity |].
  split; [left; reflexivity |].
  split; [left; reflexivity |].
  split; [reflexivity |].
  intros (cyc & [<- | []] & _ & Hb & _).
  simpl in Hb. destruct Hb as [H | [H | [H | []]]]; discriminate H.
Qed.

Lemma cycle_reported_witness :
  let self := run canonical triangle_calls in
  well_formed (graph self) /\
  (exists order,
     topological_sort self = Some order /\
     List.length order < List.length (PyDict.keys (graph self)) /\
     ~ In "/w/a.lua" order /\ ~ In "/w/b.lua" order /\
     ~ In "/w/c.lua" order) /\
  (exists found,
     detect_cycles self = Some found /\
     found <> [] /\
     cycle_through "/w/a.lua" "/w/b.lua" "/w/c.lua" found).
Proof.
  intros self. split; [apply run_well_formed |].
  destruct (cycle_reported self "/w/a.lua" "/w/b.lua" "/w/c.lua")
    as [Hsort (found & Hfound & Hsome & Hcycle)].
  - apply run_well_formed.
  - left. reflexivity.
  - left. reflexivity.
  - left. reflexivity.
  - split; [exact Hsort |]. exists found. split; [exact Hfound |].
    split; [exact Hsome |]. apply Hcycle; reflexivity.
Defined.

Lemma references_of_both_forms_witness :
  let pieces :=
    [Call; Filler (text_of_string "; local x = 1; "); Bare; Call] in
  let read_file := fun _ : string => Some (render pieces) in
  NoDup (get_module_dependencies read_file "/w/a.lua") /\
  (forall m, In m (get_module_dependencies read_file "/w/a.lua") <->
             m = name_xy \/ m = name_z).
Proof.
  intros pieces read_file.
  apply (references_of_both_forms read_file "/w/a.lua" pieces).
  - reflexivity.
  - intros t [E | [E | [E | [E | []]]]]; try discriminate E.
    injection E as <-. repeat constructor; discriminate.
  - left. reflexivity.
  - right. right. left. reflexivity.
Defined.

Lemma unknown_path_queries_witness :
  let self := run canonical test_calls in
  get_dependencies canonical self "/w/other.lua" = (PySet.empty, self) /\
  get_dependents canonical self "/w/other.lua" = (PySet.empty, self) /\
  PyDict.contains (graph self) (canonical "/w/other.lua") = false /\
  PyDict.contains (reverse_graph self) (canonical "/w/other.lua") = false.
Proof.
  apply (unknown_path_queries canonical test_calls "/w/other.lua").
  intros c Hc. simpl in Hc.
  destruct Hc as [<- | [<- | [<- | [<- | [<- | [<- | []]]]]]]; discriminate.
Defined.

(** ** The further properties at concrete inputs *)

Lemma closure_composes_witness :
  let self := run canonical test_calls in
  get_all_dependencies canonical self "/w/file1.lua"
    = Some ["/w/file2.lua"; "/w/file3.lua"] /\
  (forall d, In d (fst (get_dependencies canonical self "/w/file1.lua")) ->
             In d ["/w/file2.lua"; "/w/file3.lua"]).
Proof.
  intros self. split; [reflexivity |].
  apply (closure_composes canonical self "/w/file1.lua"
           ["/w/file2.lua"; "/w/file3.lua"]).
  reflexivity.
Defined.

Lemma topological_sort_usable_prefix_witness :
  let self := run canonical chord_calls in
  well_formed (graph self) /\
  exists order,
    topological_sort self = Some order /\
    NoDup order /\
    (forall v, In v order -> In v (PyDict.keys (graph self))) /\
    (forall u v, reaches (graph self) u v -> In v order -> before order u v) /\
    (forall w, reaches (graph self) w w -> ~ In w order).
Proof.
  intros self. split; [apply run_well_formed |].
  apply (topological_sort_usable_prefix self). apply run_well_formed.
Defined.

Lemma cycle_warning_exact_witness :
  let self := run canonical test_calls in
  well_formed (graph self) /\
  exists order,
    topological_sort self = Some order /\
    (List.length order = List.length (graph self) <-> acyclic (graph self)).
Proof.
  intros self. split; [apply run_well_formed |].
  apply (cycle_warning_exact self). apply run_well_formed.
Defined.

Lemma detect_cycles_exact_witness :
  let self := run canonical triangle_calls in
  well_formed (graph self) /\
  exists found,
    detect_cycles self = Some found /\
    (forall c, In c found -> closed_walk (graph self) c) /\
    (found = [] <-> acyclic (graph self)).
Proof.
  intros self. split; [apply run_well_formed |].
  apply (detect_cycles_exact self). apply run_well_formed.
Defined.

Lemma restoration_order_contents_witness :
  let self := run canonical test_calls in
  well_formed (graph self) /\
  mirrored self /\
  canonical (canonical "/w/file2.lua") = canonical "/w/file2.lua" /\
  PyDict.contains (graph self) (canonical "/w/file2.lua") = true /\
  exists deps order,
    get_all_dependencies canonical self "/w/file2.lua" = Some deps /\
    get_restoration_order canonical self "/w/file2.lua" = (Some order, self) /\
    NoDup order /\
    (forall x, In x order ->
       In x (canonical "/w/file2.lua" :: deps) \/
       exists u, In u (canonical "/w/file2.lua" :: deps) /\
                 has_edge (graph self) u x) /\
    (forall u v, In u (canonical "/w/file2.lua" :: deps) ->
                 has_edge (graph self) u v ->
                 In v order -> before order u v).
Proof.
  intros self. split; [apply run_well_formed |].
  split; [apply run_mirrored |]. split; [reflexivity |].
  split; [reflexivity |].
  apply (restoration_order_contents canonical self "/w/file2.lua").
  - apply run_well_formed.
  - apply run_mirrored.
  - reflexivity.
  - reflexivity.
Defined.

Lemma restoration_order_dependencies_first_witness :
  let self := run canonical test_calls in
  acyclic (graph self) /\
  exists deps order,
    get_all_dependencies canonical self "/w/file1.lua" = Some deps /\
    fst (get_restoration_order canonical self "/w/file1.lua") = Some order /\
    In (canonical "/w/file1.lua") order /\
    (forall d, In d deps ->
               In d order /\ before order d (canonical "/w/file1.lua")).
Proof.
  intros self. split; [exact test_graph_acyclic |].
  apply (restoration_order_dependencies_first canonical self "/w/file1.lua").
  - apply run_well_formed.
  - apply run_mirrored.
  - exact test_graph_acyclic.
  - reflexivity.
  - reflexivity.
Defined.

Lemma nodes_and_edges_kept_witness :
  let calls := [AddFile "/w/util.lua" "util" None;
                AddDependency "/w/main.lua" "util"] in
  let more := [AddFile "/w/util.lua" "other" None;
               AddDependency "/w/main.lua" "missing"] in
  In "/w/main.lua" (adj (graph (run canonical calls)) "/w/util.lua") /\
  In "/w/main.lua" (adj (graph (run canonical (calls ++ more))) "/w/util.lua") /\
  In "/w/util.lua"
     (adj (reverse_graph (run canonical (calls ++ more))) "/w/main.lua").
Proof.
  intros calls more.
  assert (H : In "/w/main.lua" (adj (graph (run canonical calls)) "/w/util.lua"))
    by (left; reflexivity).
  split; [exact H |].
  exact (proj2 (nodes_and_edges_kept canonical calls more)
               "/w/util.lua" "/w/main.lua" H).
Defined.

Lemma reference_never_dropped_witness :
  In (AddDependency "/w/file1.lua" "module3") test_calls /\
  (In (canonical "/w/file1.lua")
      (PyDict.get_default
         (pending_module_dependents (run canonical test_calls)) "module3"
         PySet.empty) \/
   exists p content,
     In (AddFile p "module3" content) test_calls /\
     In (canonical "/w/file1.lua")
        (adj (graph (run canonical test_calls)) (canonical p))).
Proof.
  assert (H : In (AddDependency "/w/file1.lua" "module3") test_calls)
    by (simpl; tauto).
  split; [exact H |].
  exact (reference_never_dropped canonical test_calls "/w/file1.lua" "module3"
           H).
Defined.

Lemma pending_only_while_unregistered_witness :
  let calls := [AddFile "/w/main.lua" "main" None;
                AddDependency "/w/main.lua" "util"] in
  PyDict.contains (pending_module_dependents (run canonical calls)) "util"
    = true /\
  PyDict.contains (module_to_file (run canonical calls)) "util" = false.
Proof.
  intros calls. split; [reflexivity |].
  apply (pending_only_while_unregistered canonical calls "util").
  reflexivity.
Defined.

Lemma dependency_sorted_first_witness :
  exists order p content,
    topological_sort (run canonical test_calls) = Some order /\
    In (AddFile p "module2" content) test_calls /\
    before order (canonical p) (canonical "/w/file1.lua").
Proof.
  apply (dependency_sorted_first canonical test_calls "/w/file1.lua" "module2"
           "/w/file2.lua" None).
  - simpl. tauto.
  - simpl. tauto.
  - exact test_graph_acyclic.
Defined.

Lemma search_path_updates_witness :
  let base_paths := ["lua"; "/usr/lib/lua"] in
  ~ In "/opt/lua" base_paths /\
  NoDup base_paths /\
  add_search_path base_paths "/opt/lua" = base_paths ++ ["/opt/lua"] /\
  remove_search_path (add_search_path base_paths "/opt/lua") "/opt/lua"
    = base_paths /\
  (forall q, In q (remove_search_path base_paths "lua") <->
             In q base_paths /\ q <> "lua").
Proof.
  intros base_paths.
  assert (Hnot : ~ In "/opt/lua" base_paths).
  { simpl. intros [H | [H | []]]; discriminate H. }
  assert (Hnd : NoDup base_paths).
  { repeat constructor; simpl.
    - intros [H | []]. discriminate H.
    - intros []. }
  split; [exact Hnot |]. split; [exact Hnd |].
  destruct (search_path_updates base_paths "/opt/lua") as (_ & _ & H3 & _).
  destruct (H3 Hnot) as [Hadd Hback].
  split; [exact Hadd |]. split; [exact Hback |].
  destruct (search_path_updates base_paths "lua") as (_ & _ & _ & H4).
  exact (H4 Hnd).
Defined.

Lemma resolve_first_existing_witness :
  resolve_module_to_path only_directory_entry ["root"] "a.b.c"
    = Some "root/a/b/c/lua" /\
  only_directory_entry "root/a/b/c/lua" = true /\
  exists before_p after_p,
    probed_paths ["root"] "a.b.c" = before_p ++ "root/a/b/c/lua" :: after_p /\
    forall q, In q before_p -> only_directory_entry q = false.
Proof.
  split; [reflexivity |].
  apply (proj1 (resolve_first_existing only_directory_entry ["root"] "a.b.c")).
  reflexivity.
Defined.

Lemma module_dependencies_well_formed_witness :
  let read_file := fun _ : string => Some (render [Call; Bare]) in
  In name_xy (get_module_dependencies read_file "/w/a.lua") /\
  name_xy <> [] /\ Forall (fun c => is_quote c = false) name_xy.
Proof.
  intros read_file.
  assert (H : In name_xy (get_module_dependencies read_file "/w/a.lua"))
    by (left; reflexivity).
  split; [exact H |].
  exact (proj1 (proj2 (module_dependencies_well_formed read_file "/w/a.lua"))
               name_xy H).
Defined.

Lemma extract_module_name_of_source_witness :
  ~ In "lua" ["/"; "usr"; "lib"] /\
  split_dot "luci.http" = ["luci"] ++ ["http"] /\
  _extract_module_name ["/"; "usr"; "lib"; "lua"; "luci"; "http.lua"]
    = "luci.http".
Proof.
  assert (H : ~ In "lua" ["/"; "usr"; "lib"]).
  { simpl. intros [E | [E | [E | []]]]; discriminate E. }
  split; [exact H |]. split; [reflexivity |].
  exact (extract_module_name_of_source ["/"; "usr"; "lib"] "luci.http"
           ["luci"] "http" H eq_refl).
Defined.

Lemma extract_module_name_of_decompiled_witness :
  ~ In "lua" ["/"; "usr"; "lib"] /\
  split_dot "luci.http" = ["luci"] ++ ["http"] /\
  _extract_module_name ["/"; "usr"; "lib"; "lua"; "luci"; "http.lua.unluac"]
    = "luci.http.".
Proof.
  assert (H : ~ In "lua" ["/"; "usr"; "lib"]).
  { simpl. intros [E | [E | [E | []]]]; discriminate E. }
  split; [exact H |]. split; [reflexivity |].
  exact (extract_module_name_of_decompiled ["/"; "usr"; "lib"] "luci.http"
           ["luci"] "http" H eq_refl).
Defined.

Lemma extract_module_name_from_file_name_witness :
  index "lua" ["/"; "w"; "http.lua.unluac"] = None /\
  "http" <> "" /\
  path_name ["/"; "w"; "http.lua.unluac"] = "http.lua.unluac" /\
  _extract_module_name ["/"; "w"; "http.lua.unluac"] = "http".
Proof.
  assert (H : "http" <> "") by discriminate.
  split; [reflexivity |]. split; [exact H |]. split; [reflexivity |].
  exact (proj1 (extract_module_name_from_file_name
                  ["/"; "w"; "http.lua.unluac"] "http" eq_refl H)
               eq_refl).
Defined.

Lemma find_module_file_found_witness :
  find_module_file (fun _ => false) one_file_tree ["root"]
                   "luci.controller.api" None = Some "root/sub/api.lua" /\
  exists search_path target,
    In search_path ["root"] /\
    In target (wanted_files "luci.controller.api") /\
    found_at (fun _ => false) one_file_tree search_path target
             "root/sub/api.lua".
Proof.
  split; [reflexivity |].
  apply (proj1 (find_module_file_found (fun _ => false) one_file_tree ["root"]
                  "luci.controller.api" None)).
  reflexivity.
Defined.
